(** * svg-canvas-mcp: the document core, embedded and verified

    A shallow embedding of the scene-graph core of the SVG canvas server:
    the identifier generator ([src/core/id-generator.ts]), the element
    model ([src/core/element.ts]), the document manager
    ([src/core/document.ts]), the history manager
    ([src/core/history-manager.ts]) and the layer manager
    ([core/layer-manager.ts]).

    Conventions of the embedding.
    - JavaScript objects are immutable Rocq values; a method that mutates
      [this] becomes a function from the old state to the new one.  A deep
      copy [JSON.parse(JSON.stringify x)] of a value of the typed model is
      the value itself ([deepCopy]).
    - The module-level [counters] object of the identifier generator is
      global state; code that reaches [generateId] or [resetCounters] lives
      in the state monad [Gen].
    - JavaScript numbers that are only stored and compared are rationals
      ([Q]); indices are integers ([Z], [nat]).  The counters of the
      identifier generator are doubles holding a non-negative integer or
      [+Infinity]; they are kept in [N] with the rounding of every
      operation written out ([roundToDouble]).
    - Randomness and the clock ([uuidv4()], [new Date()]) are inputs of the
      function that consults them. *)

From Stdlib Require Import QArith Qround Ascii.
From stdpp Require Import gmap strings list pretty.

Set Default Proof Using "Type".
Local Open Scope string_scope.
Local Open Scope list_scope.
Local Open Scope nat_scope.
#[local] Coercion Z.of_nat : nat >-> Z.

(** [JSON.parse(JSON.stringify(x))] on the typed model. *)
Definition deepCopy {A : Type} (x : A) : A := x.

(** [s || d] for a string [s] that may be [undefined]: the empty string is
    falsy as well. *)
Definition orElse (s : option string) (d : string) : string :=
  match s with
  | Some v => if decide (v = "") then d else v
  | None => d
  end.

(* ================================================================== *)
(** * Identifier generator *)
(* ================================================================== *)
Module IdGenerator.

(** [type IdPrefix] *)
Inductive IdPrefix :=
| p_rect | p_circle | p_ellipse | p_line | p_polyline | p_polygon | p_path
| p_text | p_textpath | p_image | p_group | p_use | p_layer | p_gradient
| p_pattern | p_filter | p_symbol | p_clip | p_mask | p_anim | p_history.

#[global] Instance IdPrefix_eq_dec : EqDecision IdPrefix.
Proof. solve_decision. Defined.

Definition prefix_str (p : IdPrefix) : string :=
  match p with
  | p_rect => "rect" | p_circle => "circle" | p_ellipse => "ellipse"
  | p_line => "line" | p_polyline => "polyline" | p_polygon => "polygon"
  | p_path => "path" | p_text => "text" | p_textpath => "textpath"
  | p_image => "image" | p_group => "group" | p_use => "use"
  | p_layer => "layer" | p_gradient => "gradient" | p_pattern => "pattern"
  | p_filter => "filter" | p_symbol => "symbol" | p_clip => "clip"
  | p_mask => "mask" | p_anim => "anim" | p_history => "history"
  end.

(** ** The numbers of the counters

    The counters are JavaScript numbers, that is IEEE 754 doubles.  The
    values that [generateId] and [syncCounterFromId] store are
    non-negative integers and [+Infinity]; the model keeps them in [N],
    [infinity] standing for [+Infinity]. *)

(** [2^53]: every integer up to it is a double, and above it some are
    not.  [Number.MAX_SAFE_INTEGER] is [maxExact - 1]. *)
Definition maxExact : N := (2 ^ 53)%N.

(** [+Infinity] among the counter values: the first power of two that
    is too large for a double. *)
Definition infinity : N := (2 ^ 1024)%N.

(** The double nearest to the integer [n]: [n] is cut to a significand
    [q] of 53 binary digits and rounded to the nearest multiple of
    [2^sh], to the even significand when [n] is half way; what reaches
    [2^1024] is [+Infinity]. *)
Definition roundToDouble (n : N) : N :=
  if (n <? maxExact)%N then n
  else
    let sh := (N.log2 n - 52)%N in
    let q := N.shiftr n sh in
    let r := (n - N.shiftl q sh)%N in
    let half := N.shiftl 1 (sh - 1) in
    let q' := if (half <? r)%N || ((r =? half)%N && N.odd q) then (q + 1)%N else q in
    let v := N.shiftl q' sh in
    if (infinity <=? v)%N then infinity else v.

(** [c++] on a counter: the double sum of [c] and 1. *)
Definition increment (c : N) : N := roundToDouble (c + 1).

(** The digits that [Number::toString] prints for the double [x]: the
    multiple of the largest power of ten [10^e] whose nearest double is
    [x]; of the two multiples next to [x], the nearer one when both
    qualify, and the one with the even quotient when they are equally
    near. *)
Fixpoint shortestDigits (e : nat) (x : N) : N :=
  match e with
  | O => x
  | S e' =>
      let step := (10 ^ N.of_nat e)%N in
      let lo := (x / step * step)%N in
      let hi := (lo + step)%N in
      match bool_decide (roundToDouble lo = x), bool_decide (roundToDouble hi = x) with
      | true, true =>
          if (x - lo <? hi - x)%N then lo
          else if (hi - x <? x - lo)%N then hi
          else if N.even (lo / step) then lo else hi
      | true, false => lo
      | false, true => hi
      | false, false => shortestDigits e' x
      end
  end.

Fixpoint dropTrailingZeros (s : string) : string :=
  match s with
  | EmptyString => EmptyString
  | String c r =>
      match dropTrailingZeros r with
      | EmptyString => if decide (c = "0"%char) then EmptyString else String c EmptyString
      | r' => String c r'
      end
  end.

(** The form [d.ddde+x] of a number of 22 digits or more. *)
Definition exponential (v : N) : string :=
  let digits := pretty v in
  let e := pretty (N.of_nat (String.length digits - 1)) in
  match dropTrailingZeros digits with
  | EmptyString => "0"
  | String d EmptyString => String d ("e+" +:+ e)
  | String d rest => String d ("." +:+ rest +:+ "e+" +:+ e)
  end.

(** [`${c}`] for a counter value [c] ([Number::toString]): an integer
    up to [2^53] is written digit by digit; a larger double by its
    shortest digits, followed by zeros below [10^21] and in the
    exponential form from there on. *)
Definition numberToString (c : N) : string :=
  if (infinity <=? c)%N then "Infinity"
  else if (c <=? maxExact)%N then pretty c
  else
    let v := shortestDigits (String.length (pretty c)) c in
    if (v <? 10 ^ 21)%N then pretty v else exponential v.

(** [const counters: Record<string, number> = {}] *)
Abbreviation Counters := (gmap string N).

(** The value read by [counters[prefix]] once the guard
    [if (!counters[prefix]) counters[prefix] = 0] has run. *)
Definition counter (cs : Counters) (p : IdPrefix) : N :=
  default 0%N (cs !! prefix_str p).

(** The identifier [prefix-n] with [n] written digit by digit. *)
Definition shortId (p : IdPrefix) (n : N) : string :=
  prefix_str p +:+ "-" +:+ pretty n.

(** [generateId(prefix)]

    {[
      if (!counters[prefix]) counters[prefix] = 0;
      counters[prefix]++;
      return `${prefix}-${counters[prefix]}`;
    ]} *)
Definition generateId (p : IdPrefix) (cs : Counters) : string * Counters :=
  let n := increment (counter cs p) in
  (prefix_str p +:+ "-" +:+ numberToString n, <[prefix_str p := n]> cs).

(** The counters leave room for [k] more identifiers of every kind
    before one of them reaches [2^53]. *)
Definition roomFor (k : nat) (cs : Counters) : Prop :=
  ∀ p, (counter cs p + N.of_nat k ≤ maxExact)%N.

(** [generateUUID(prefix?)]; [uuid] is the value drawn by [uuidv4()]. *)
Definition generateUUID (uuid : string) (prefix : option string) : string :=
  match prefix with
  | Some p => if decide (p = "") then uuid else p +:+ "-" +:+ uuid
  | None => uuid
  end.

(** No hyphen occurs in a string. *)
Fixpoint hyphenFree (s : string) : bool :=
  match s with
  | EmptyString => true
  | String c r => if decide (c = "-"%char) then false else hyphenFree r
  end.

(** [resetCounters()] *)
Definition resetCounters (cs : Counters) : Counters := ∅.

(** [setCounter(prefix, value)], for a [value] among the counter values
    of the model. *)
Definition setCounter (prefix : string) (value : N) (cs : Counters) : Counters :=
  <[prefix := value]> cs.

(** ** Resynchronisation and validity of identifiers *)

(** The character classes of the regular expressions of this file. *)
Definition isLower (c : ascii) : bool :=
  bool_decide (97 ≤ nat_of_ascii c ≤ 122).
Definition isUpper (c : ascii) : bool :=
  bool_decide (65 ≤ nat_of_ascii c ≤ 90).
Definition isDigit (c : ascii) : bool :=
  bool_decide (48 ≤ nat_of_ascii c ≤ 57).
Definition isLetter (c : ascii) : bool := isLower c || isUpper c.

(** [[a-zA-Z0-9_-]] *)
Definition isIdChar (c : ascii) : bool :=
  isLetter c || isDigit c || bool_decide (c = "_"%char) || bool_decide (c = "-"%char).

(** The longest run of [[a-z]] at the head of a string, and what follows. *)
Fixpoint spanLower (s : string) : string * string :=
  match s with
  | EmptyString => (EmptyString, EmptyString)
  | String c r =>
      if isLower c then let (a, b) := spanLower r in (String c a, b)
      else (EmptyString, s)
  end.

Fixpoint allDigits (s : string) : bool :=
  match s with
  | EmptyString => true
  | String c r => isDigit c && allDigits r
  end.

(** The integer that a string of decimal digits denotes, read from the
    left with the value so far in [acc]. *)
Fixpoint parseDigits (acc : N) (s : string) : N :=
  match s with
  | EmptyString => acc
  | String c r => parseDigits (acc * 10 + (N_of_ascii c - 48))%N r
  end.

(** [parseInt(numStr, 10)] for a string of decimal digits: the double
    nearest to the integer they denote. *)
Definition parseInt (numStr : string) : N := roundToDouble (parseDigits 0 numStr).

(** [id.match(/^([a-z]+)-(\d+)$/)]: the groups [prefix] and
    [parseInt(numStr, 10)].  The first group cannot hold a hyphen, so it
    is the whole run of lower-case letters at the head. *)
Definition matchShortId (id : string) : option (string * N) :=
  match spanLower id with
  | (String c pre, String sep digits) =>
      if bool_decide (sep = "-"%char) && allDigits digits
         && negb (bool_decide (digits = EmptyString))
      then Some (String c pre, parseInt digits)
      else None
  | _ => None
  end.

(** [syncCounterFromId(id)]

    {[
      if (!counters[prefix] || counters[prefix] < num) counters[prefix] = num;
    ]} *)
Definition syncCounterFromId (id : string) (cs : Counters) : Counters :=
  match matchShortId id with
  | Some (prefix, num) =>
      match cs !! prefix with
      | Some c =>
          if bool_decide (c = 0%N) || bool_decide (c < num)%N
          then <[prefix := num]> cs else cs
      | None => <[prefix := num]> cs
      end
  | None => cs
  end.

(** [syncCountersFromIds(ids)] *)
Definition syncCountersFromIds (ids : list string) (cs : Counters) : Counters :=
  foldl (λ acc id, syncCounterFromId id acc) cs ids.

(** [isValidId(id)]: [/^[a-zA-Z][a-zA-Z0-9_-]*$/.test(id)] *)
Fixpoint allIdChars (s : string) : bool :=
  match s with
  | EmptyString => true
  | String c r => isIdChar c && allIdChars r
  end.

Definition isValidId (id : string) : bool :=
  match id with
  | EmptyString => false
  | String c r => isLetter c && allIdChars r
  end.

(** [id.replace(/[^a-zA-Z0-9_-]/g, '-')] *)
Fixpoint replaceForeign (s : string) : string :=
  match s with
  | EmptyString => EmptyString
  | String c r => String (if isIdChar c then c else "-"%char) (replaceForeign r)
  end.

(** [sanitizeId(id)] *)
Definition sanitizeId (id : string) : string :=
  let sanitized := replaceForeign id in
  match sanitized with
  | String c _ => if isDigit c then String "_" sanitized else sanitized
  | EmptyString => sanitized
  end.

(** A run of [generateId] calls, one per prefix of the list. *)
Definition generateAll (ps : list IdPrefix) (cs : Counters) : list string * Counters :=
  foldl (λ acc p, let r := generateId p acc.2 in (acc.1 ++ [r.1], r.2)) ([], cs) ps.

End IdGenerator.

(** ** The state monad of the global counters *)
Definition Gen (A : Type) : Type := IdGenerator.Counters → A * IdGenerator.Counters.

#[global] Instance gen_ret : MRet Gen := λ A (a : A) cs, (a, cs).
#[global] Instance gen_bind : MBind Gen :=
  λ A B (f : A → Gen B) (m : Gen A) cs, let (a, cs') := m cs in f a cs'.

(** [xs.map(f)] for an effectful callback, left to right. *)
Fixpoint gmapM {A B} (f : A → Gen B) (xs : list A) : Gen (list B) :=
  match xs with
  | [] => mret []
  | x :: xs' => y ← f x; ys ← gmapM f xs'; mret (y :: ys)
  end.

(* ================================================================== *)
(** * Element model *)
(* ================================================================== *)
Module Element.
Import IdGenerator.

(** The discriminant [type] of the union [SVGElement]. *)
Inductive ElementType :=
| t_rect | t_circle | t_ellipse | t_line | t_polyline | t_polygon
| t_path | t_text | t_textpath | t_image | t_g | t_use.

#[global] Instance ElementType_eq_dec : EqDecision ElementType.
Proof. solve_decision. Defined.

(** Values of the attributes other than [type], [id] and [children]. *)
Inductive PropValue :=
| PNum (q : Q)
| PStr (s : string)
| PBool (b : bool)
| PPoints (pts : list (Q * Q)).

Abbreviation Props := (gmap string PropValue).

(** An element object.  [el_props] holds the own properties whose value
    is defined (geometry and presentation attributes); [el_children] is
    the [children] array of a group and is read only when the type is
    ['g']. *)
#[local] Unset Elimination Schemes.
Inductive SVGElement := mkElement {
  el_type : ElementType;
  el_id : string;
  el_props : Props;
  el_children : list SVGElement
}.
#[local] Set Elimination Schemes.

(** [element.type === 'g' ? 'group' : element.type], as an [IdPrefix]. *)
Definition idPrefixOf (t : ElementType) : IdPrefix :=
  match t with
  | t_rect => p_rect | t_circle => p_circle | t_ellipse => p_ellipse
  | t_line => p_line | t_polyline => p_polyline | t_polygon => p_polygon
  | t_path => p_path | t_text => p_text | t_textpath => p_textpath
  | t_image => p_image | t_g => p_group | t_use => p_use
  end.

(** [interface ElementOptions] *)
Record ElementOptions := mkOptions {
  o_id : option string;
  o_class : option string;
  o_fill : option string;
  o_stroke : option string;
  o_strokeWidth : option Q;
  o_opacity : option Q;
  o_transform : option string;
  o_ariaLabel : option string
}.

Definition noOptions : ElementOptions :=
  mkOptions None None None None None None None None.

(** A property [key: value] of an object literal; an [undefined] value
    leaves no trace in the model. *)
Definition setProp (k : string) (v : option PropValue) (ps : Props) : Props :=
  match v with Some x => <[k := x]> ps | None => ps end.

(** The eight presentation properties every factory copies from its
    options. *)
Definition commonProps (o : ElementOptions) (ps : Props) : Props :=
  setProp "class" (PStr <$> o_class o)
  (setProp "fill" (PStr <$> o_fill o)
  (setProp "stroke" (PStr <$> o_stroke o)
  (setProp "strokeWidth" (PNum <$> o_strokeWidth o)
  (setProp "opacity" (PNum <$> o_opacity o)
  (setProp "transform" (PStr <$> o_transform o)
  (setProp "ariaLabel" (PStr <$> o_ariaLabel o) ps)))))).

(** [options.id || generateId(prefix)] *)
Definition idOrFresh (given : option string) (p : IdPrefix) : Gen string :=
  match given with
  | Some s => if decide (s = "") then generateId p else mret s
  | None => generateId p
  end.

(** [createRect(x, y, width, height, options)]; [rx] and [ry] are the two
    fields that this factory adds to [ElementOptions]. *)
Definition createRect (x y width height : Q) (rx ry : option Q)
    (o : ElementOptions) : Gen SVGElement :=
  i ← idOrFresh (o_id o) p_rect;
  mret (mkElement t_rect i
    (commonProps o
      (setProp "rx" (PNum <$> rx) (setProp "ry" (PNum <$> ry)
        (<["x" := PNum x]> (<["y" := PNum y]>
          (<["width" := PNum width]> (<["height" := PNum height]> ∅)))))))
    []).

(** [createCircle(cx, cy, r, options)] *)
Definition createCircle (cx cy r : Q) (o : ElementOptions) : Gen SVGElement :=
  i ← idOrFresh (o_id o) p_circle;
  mret (mkElement t_circle i
    (commonProps o (<["cx" := PNum cx]> (<["cy" := PNum cy]> (<["r" := PNum r]> ∅))))
    []).

(** [createGroup(children, options)] *)
Definition createGroup (children : list SVGElement) (o : ElementOptions)
    : Gen SVGElement :=
  i ← idOrFresh (o_id o) p_group;
  mret (mkElement t_g i (commonProps o ∅) children).

(** [cloneElement(element, newId?)]

    {[
      const clone = JSON.parse(JSON.stringify(element));
      clone.id = newId || generateId(element.type === 'g' ? 'group' : element.type);
      if (clone.type === 'g') {
        clone.children = clone.children.map(child => cloneElement(child));
      }
      return clone;
    ]} *)
Fixpoint cloneElement (element : SVGElement) (newId : option string)
    : Gen SVGElement :=
  let clone := deepCopy element in
  i ← idOrFresh newId (idPrefixOf (el_type element));
  if decide (el_type clone = t_g) then
    children ← gmapM (λ child, cloneElement child None) (el_children clone);
    mret (mkElement (el_type clone) i (el_props clone) children)
  else
    mret (mkElement (el_type clone) i (el_props clone) (el_children clone)).

(** [Partial<T>] for an element variant [T]: every field optional,
    [type] included.  A property of [u_props] mapped to [None] is a key
    written with the value [undefined], as in [{ filter: undefined }]. *)
Record PartialElement := mkPartial {
  u_type : option ElementType;
  u_id : option string;
  u_props : gmap string (option PropValue);
  u_children : option (list SVGElement)
}.

(** The properties of [{ ...a, ...b }]. *)
Definition spreadProps (a : Props) (b : gmap string (option PropValue)) : Props :=
  map_fold (λ k v acc, match v with Some x => <[k := x]> acc | None => delete k acc end)
           a b.

(** [updateElement(element, updates)]: [{ ...element, ...updates }] *)
Definition updateElement (element : SVGElement) (updates : PartialElement)
    : SVGElement :=
  mkElement (default (el_type element) (u_type updates))
            (default (el_id element) (u_id updates))
            (spreadProps (el_props element) (u_props updates))
            (default (el_children element) (u_children updates)).

(** All identifiers of a tree, in document order; the traversal is that
    of [collectAllIds] in the document manager, which enters the children
    of groups only. *)
Fixpoint ids (e : SVGElement) : list string :=
  el_id e :: (if decide (el_type e = t_g) then flat_map ids (el_children e) else []).

(** Structural induction on element trees. *)
Fixpoint SVGElement_tree_ind (P : SVGElement → Prop)
    (step : ∀ t i ps ch, Forall P ch → P (mkElement t i ps ch))
    (e : SVGElement) : P e :=
  match e with
  | mkElement t i ps ch =>
      step t i ps ch
        ((fix all (l : list SVGElement) : Forall P l :=
            match l with
            | [] => List.Forall_nil P
            | x :: r => List.Forall_cons P x r (SVGElement_tree_ind P step x) (all r)
            end) ch)
  end.

(** An identifier handed out between two states of the counters. *)
Definition between (cs cs' : Counters) (i : string) : Prop :=
  ∃ p n, i = shortId p n ∧ (counter cs p < n ≤ counter cs' p)%N.

(** What a clone satisfies while the counters have room for it: the
    counters grow, by the number of identifiers of the element at most,
    every identifier of the clone was handed out during the call, and no
    identifier repeats. *)
Definition cloneSpec (e : SVGElement) : Prop :=
  ∀ cs, roomFor (length (ids e)) cs →
    let r := cloneElement e None cs in
    (∀ p, (counter cs p ≤ counter r.2 p ≤ counter cs p + N.of_nat (length (ids e)))%N) ∧
    Forall (between cs r.2) (ids r.1) ∧
    NoDup (ids r.1).

End Element.

(** The first defined result of [f] along a list: the loop
    [for (const x of xs) { const r = f(x); if (r) return r; } return null]. *)
Definition firstSome {A B} (f : A → option B) : list A → option B :=
  fix go xs :=
    match xs with
    | [] => None
    | x :: rest => match f x with Some y => Some y | None => go rest end
    end.

(** The list in which the first element on which [f] is defined is replaced
    by the result; [None] when [f] is undefined everywhere. *)
Definition replaceFirst {A} (f : A → option A) : list A → option (list A) :=
  fix go xs :=
    match xs with
    | [] => None
    | x :: rest =>
        match f x with
        | Some x' => Some (x' :: rest)
        | None => (x ::.) <$> go rest
        end
    end.

(** [xs.splice(i, 0, x)] for a position [i] of the array or its length. *)
Definition spliceInsert {A} (i : nat) (x : A) (xs : list A) : list A :=
  take i xs ++ x :: drop i xs.

(* ================================================================== *)
(** * Document manager *)
(* ================================================================== *)
Module Document.
Import IdGenerator Element.

Record ViewBox := mkViewBox { minX : Q; minY : Q; vb_width : Q; vb_height : Q }.

(** [interface CanvasConfig] *)
Record CanvasConfig := mkConfig {
  width : Q;
  height : Q;
  viewBox : option ViewBox;
  background : option string;
  preserveAspectRatio : option string
}.

(** [Partial<CanvasConfig>].  For the optional fields the outer option
    says whether the key is present, the inner one whether its value is
    defined: [{ viewBox: undefined }] is [Some None]. *)
Record PartialConfig := mkPartialConfig {
  c_width : option Q;
  c_height : option Q;
  c_viewBox : option (option ViewBox);
  c_background : option (option string);
  c_preserveAspectRatio : option (option string)
}.

Definition noConfig : PartialConfig := mkPartialConfig None None None None None.

(** A gradient, pattern or filter of the [defs] table. *)
Record DefObject := mkDef { def_id : string; def_props : Props }.

Record SymbolDef := mkSymbol {
  sym_id : string; sym_viewBox : option string; sym_content : list SVGElement
}.

Record Defs := mkDefs {
  gradients : list DefObject;
  patterns : list DefObject;
  filters : list DefObject;
  symbols : list SymbolDef;
  clipPaths : list SVGElement;
  masks : list SVGElement
}.

(** [interface SVGDocument] *)
Record SVGDocument := mkDocument {
  config : CanvasConfig;
  defs : Defs;
  elements : list SVGElement
}.

Inductive DocumentEventType :=
| element_added | element_removed | element_updated | canvas_changed | defs_changed.

Record DocumentEvent := mkEvent {
  ev_type : DocumentEventType;
  ev_elementId : option string
}.

(** [class SVGDocumentManager].  [emitted] is the sequence of events
    handed to the listeners so far, oldest first. *)
Record SVGDocumentManager := mkManager {
  document : SVGDocument;
  filePath : option string;
  isDirty : bool;
  rawDefs : list string;
  rawElements : list string;
  emitted : list DocumentEvent
}.

Definition emit (ev : DocumentEvent) (m : SVGDocumentManager) : SVGDocumentManager :=
  mkManager (document m) (filePath m) (isDirty m) (rawDefs m) (rawElements m)
            (emitted m ++ [ev]).

Definition defaultConfig : CanvasConfig :=
  mkConfig 800 600 (Some (mkViewBox 0 0 800 600)) None None.

(** [{ ...defaultConfig, ...config }] *)
Definition mergeConfig (d : CanvasConfig) (c : PartialConfig) : CanvasConfig :=
  mkConfig (default (width d) (c_width c))
           (default (height d) (c_height c))
           (default (viewBox d) (c_viewBox c))
           (default (background d) (c_background c))
           (default (preserveAspectRatio d) (c_preserveAspectRatio c)).

(** [createEmptyDocument(config?)] *)
Definition createEmptyDocument (c : PartialConfig) : Gen SVGDocument :=
  λ cs, (mkDocument (mergeConfig defaultConfig c) (mkDefs [] [] [] [] [] []) [],
         resetCounters cs).

(** [new SVGDocumentManager(config?)] *)
Definition new (c : PartialConfig) : Gen SVGDocumentManager :=
  d ← createEmptyDocument c;
  mret (mkManager d None false [] [] []).

(** The [options] argument of [create]. *)
Record CreateOptions := mkCreateOptions {
  co_viewBox : option string;
  co_background : option string;
  co_preserveAspectRatio : option string
}.

Section Create.
(** [parseViewBox] of [utils/svg-parser.ts]: the four numbers of a
    [viewBox] attribute, or [null]. *)
Variable parseViewBox : string → option ViewBox.

(** [create(width, height, options = {})]

    {[
      const viewBox = options.viewBox
        ? parseViewBox(options.viewBox)
        : { minX: 0, minY: 0, width, height };
      this.document = this.createEmptyDocument({
        width, height, viewBox: viewBox || undefined,
        background: options.background,
        preserveAspectRatio: options.preserveAspectRatio });
      this.filePath = null;
      this.isDirty = false;
      this.emit({ type: 'canvas-changed' });
    ]} *)
Definition create (w h : Q) (options : CreateOptions) (m : SVGDocumentManager)
    : Gen SVGDocumentManager :=
  let vb :=
    match co_viewBox options with
    | Some s => if decide (s = "") then Some (mkViewBox 0 0 w h) else parseViewBox s
    | None => Some (mkViewBox 0 0 w h)
    end in
  d ← createEmptyDocument
        (mkPartialConfig (Some w) (Some h) (Some vb)
                         (Some (co_background options))
                         (Some (co_preserveAspectRatio options)));
  mret (emit (mkEvent canvas_changed None)
          (mkManager d None false (rawDefs m) (rawElements m) (emitted m))).
End Create.

(** [addElement(element)] *)
Definition addElement (element : SVGElement) (m : SVGDocumentManager)
    : string * SVGDocumentManager :=
  let d := document m in
  (el_id element,
   emit (mkEvent element_added (Some (el_id element)))
     (mkManager (mkDocument (config d) (defs d) (elements d ++ [element]))
                (filePath m) true (rawDefs m) (rawElements m) (emitted m))).

(** One iteration of the loop of [findElement]: the element itself, or
    the first hit among the children of a group. *)
Fixpoint findIn (id : string) (el : SVGElement) : option SVGElement :=
  if decide (el_id el = id) then Some el
  else if decide (el_type el = t_g) then firstSome (findIn id) (el_children el)
  else None.

(** [findElement(elements, id)] *)
Definition findElement (els : list SVGElement) (id : string) : option SVGElement :=
  firstSome (findIn id) els.

(** [getElementById(id)] *)
Definition getElementById (id : string) (m : SVGDocumentManager) : option SVGElement :=
  findElement (elements (document m)) id.

(** [Object.assign(element, updates)] *)
Definition assign (element : SVGElement) (updates : PartialElement) : SVGElement :=
  mkElement (default (el_type element) (u_type updates))
            (default (el_id element) (u_id updates))
            (spreadProps (el_props element) (u_props updates))
            (default (el_children element) (u_children updates)).

(** The tree in which the object that [findIn id] returns has been
    mutated by [Object.assign(_, updates)]. *)
Fixpoint assignIn (id : string) (updates : PartialElement) (el : SVGElement)
    : option SVGElement :=
  if decide (el_id el = id) then Some (assign el updates)
  else if decide (el_type el = t_g) then
    ch ← replaceFirst (assignIn id updates) (el_children el);
    Some (mkElement (el_type el) (el_id el) (el_props el) ch)
  else None.

(** [updateElement(id, updates)] *)
Definition updateElement (id : string) (updates : PartialElement)
    (m : SVGDocumentManager) : bool * SVGDocumentManager :=
  match getElementById id m with
  | None => (false, m)
  | Some _ =>
      let d := document m in
      let els := default (elements d) (replaceFirst (assignIn id updates) (elements d)) in
      (true,
       emit (mkEvent element_updated (Some id))
         (mkManager (mkDocument (config d) (defs d) els)
                    (filePath m) true (rawDefs m) (rawElements m) (emitted m)))
  end.

(** [toJSON()] *)
Definition toJSON (m : SVGDocumentManager) : SVGDocument := deepCopy (document m).

(** What [Object.assign] with [updates] does to the search for [id] in one
    tree. *)
Definition assignSpec (id : string) (u : PartialElement) (e : SVGElement) : Prop :=
  match findIn id e with
  | Some found =>
      el_id found = id ∧
      ∃ e', assignIn id u e = Some e' ∧
            (u_id u = None → findIn id e' = Some (assign found u))
  | None => assignIn id u e = None
  end.

(** ** Further methods of the document manager *)

(** [collectAllIds(elements)] *)
Definition collectAllIds (els : list SVGElement) : list string := flat_map ids els.

(** The body of [removeFromArray(elements, id)], with [removeIn] for the
    recursive call on one element of the second loop:

    {[
      const index = elements.findIndex(el => el.id === id);
      if (index !== -1) { elements.splice(index, 1); return true; }
      for (const el of elements) {
        if (el.type === 'g') {
          if (this.removeFromArray(el.children, id)) return true;
        }
      }
      return false;
    ]}

    The result is the array after the call when the call returns [true],
    and [None] when it returns [false] (the array is then untouched). *)
Definition removeFromList (removeIn : SVGElement → option SVGElement)
    (id : string) (els : list SVGElement) : option (list SVGElement) :=
  match list_find (λ el, el_id el = id) els with
  | Some (index, _) => Some (delete index els)
  | None => replaceFirst removeIn els
  end.

(** One element of the second loop: a group in whose children the
    removal succeeds. *)
Fixpoint removeIn (id : string) (el : SVGElement) : option SVGElement :=
  if decide (el_type el = t_g) then
    ch ← removeFromList (removeIn id) id (el_children el);
    Some (mkElement (el_type el) (el_id el) (el_props el) ch)
  else None.

(** [removeFromArray(elements, id)] *)
Definition removeFromArray (els : list SVGElement) (id : string)
    : option (list SVGElement) :=
  removeFromList (removeIn id) id els.

(** [removeElement(id)] *)
Definition removeElement (id : string) (m : SVGDocumentManager)
    : bool * SVGDocumentManager :=
  match removeFromArray (elements (document m)) id with
  | Some els =>
      let d := document m in
      (true,
       emit (mkEvent element_removed (Some id))
         (mkManager (mkDocument (config d) (defs d) els)
                    (filePath m) true (rawDefs m) (rawElements m) (emitted m)))
  | None => (false, m)
  end.

(** [if (k in clone && typeof clone[k] === 'number') clone[k] += d];
    the sum is the exact one of the rationals. *)
Definition shiftProp (k : string) (d : Q) (ps : Props) : Props :=
  match ps !! k with
  | Some (PNum q) => <[k := PNum (q + d)]> ps
  | _ => ps
  end.

(** [duplicateElement(id, offset = { x: 10, y: 10 })]; the result is the
    identifier of the copy, or [null]. *)
Definition duplicateElement (id : string) (offset : Q * Q) (m : SVGDocumentManager)
    : Gen (option string * SVGDocumentManager) :=
  match getElementById id m with
  | None => mret (None, m)
  | Some element =>
      clone ← cloneElement element None;
      let ps := shiftProp "cy" offset.2 (shiftProp "cx" offset.1
                  (shiftProp "y" offset.2 (shiftProp "x" offset.1 (el_props clone)))) in
      let r := addElement (mkElement (el_type clone) (el_id clone) ps (el_children clone)) m in
      mret (Some r.1, r.2)
  end.

(** The [direction] of [reorderElement]. *)
Inductive Direction := front | back | forward | backward.

(** [reorderElement(id, direction)] *)
Definition reorderElement (id : string) (direction : Direction) (m : SVGDocumentManager)
    : bool * SVGDocumentManager :=
  match list_find (λ el, el_id el = id) (elements (document m)) with
  | None => (false, m)
  | Some (index, element) =>
      let d := document m in
      let rest := delete index (elements d) in
      let els :=
        match direction with
        | front => rest ++ [element]
        | back => element :: rest
        | forward => spliceInsert ((index + 1) `min` length rest) element rest
        | backward => spliceInsert ((index - 1) `max` 0) element rest
        end in
      (true,
       emit (mkEvent element_updated (Some id))
         (mkManager (mkDocument (config d) (defs d) els)
                    (filePath m) true (rawDefs m) (rawElements m) (emitted m)))
  end.

(** [fromJSON(data)] *)
Definition fromJSON (data : SVGDocument) (m : SVGDocumentManager)
    : Gen SVGDocumentManager :=
  λ cs,
    let d := deepCopy data in
    (emit (mkEvent canvas_changed None)
       (mkManager d (filePath m) true (rawDefs m) (rawElements m) (emitted m)),
     syncCountersFromIds (collectAllIds (elements d)) cs).

(** The identifiers of the document are pairwise distinct and the
    counters are not behind any of them. *)
Definition idsInSync (m : SVGDocumentManager) (cs : Counters) : Prop :=
  NoDup (collectAllIds (elements (document m))) ∧
  ∀ p n, (counter cs p < n)%N → shortId p n ∉ collectAllIds (elements (document m)).

(** The identifiers below an element: those of the children of a group. *)
Definition idsBelow (e : SVGElement) : list string :=
  if decide (el_type e = t_g) then collectAllIds (el_children e) else [].

(** What [removeIn] and [removeFromArray] do to the listed identifiers. *)
Definition removeInSpec (id : string) (e : SVGElement) : Prop :=
  match removeIn id e with
  | None => id ∉ idsBelow e
  | Some e' =>
      el_id e' = el_id e ∧ id ∈ idsBelow e ∧
      idsBelow e' `sublist_of` idsBelow e ∧
      (NoDup (idsBelow e) → id ∉ idsBelow e')
  end.

Definition removeFromArraySpec (id : string) (els : list SVGElement) : Prop :=
  match removeFromArray els id with
  | None => id ∉ collectAllIds els
  | Some els' =>
      id ∈ collectAllIds els ∧
      collectAllIds els' `sublist_of` collectAllIds els ∧
      (NoDup (collectAllIds els) → id ∉ collectAllIds els')
  end.

End Document.

(* ================================================================== *)
(** * History manager *)
(* ================================================================== *)
Module History.
Import Document.

(** [interface HistoryEntry]; the field [data] is always [null]. *)
Record HistoryEntry := mkEntry {
  h_id : string;
  h_action : string;
  h_timestamp : Z;
  h_description : string
}.

(** [interface DocumentSnapshot] *)
Record DocumentSnapshot := mkSnapshot {
  snap_document : SVGDocument;
  snap_timestamp : Z
}.

(** [class HistoryManager] *)
Record HistoryManager := mkHistory {
  entries : list HistoryEntry;
  snapshots : gmap string DocumentSnapshot;
  currentIndex : Z;
  maxEntries : Z;
  isRecording : bool
}.

(** [new HistoryManager(maxEntries = 100)] *)
Definition new (maxEntries : Z) : HistoryManager :=
  mkHistory [] ∅ (-1) maxEntries true.

Definition setIndex (i : Z) (h : HistoryManager) : HistoryManager :=
  mkHistory (entries h) (snapshots h) i (maxEntries h) (isRecording h).

(** [canUndo()] *)
Definition canUndo (h : HistoryManager) : bool :=
  bool_decide (0 ≤ currentIndex h)%Z.

(** [canRedo()] *)
Definition canRedo (h : HistoryManager) : bool :=
  bool_decide (currentIndex h < length (entries h) - 1)%Z.

(** The position at which [array.splice(start)] starts to cut. *)
Definition spliceStart (start : Z) (len : nat) : nat :=
  if bool_decide (start < 0)%Z then Z.to_nat (Z.max (len + start) 0)
  else Z.to_nat (Z.min start len).

(** [array[i]] for an integer [i]; [None] is [undefined]. *)
Definition at_index {A} (xs : list A) (i : Z) : option A :=
  if bool_decide (i < 0)%Z then None else xs !! Z.to_nat i.

(** [for (const entry of removed) snapshots.delete(entry.id)] *)
Definition dropSnapshots (removed : list HistoryEntry)
    (sn : gmap string DocumentSnapshot) : gmap string DocumentSnapshot :=
  foldl (λ acc e, delete (h_id e) acc) sn removed.

(** The eviction loop

    {[
      while (this.entries.length > this.maxEntries) {
        const removed = this.entries.shift();
        if (removed) this.snapshots.delete(removed.id);
        this.currentIndex--;
      }
    ]}

    [None] when the loop never ends: with a negative bound the test
    still holds once the array is empty. *)
Fixpoint evict (es : list HistoryEntry) (sn : gmap string DocumentSnapshot)
    (idx : Z) (bound : Z)
    : option (list HistoryEntry * gmap string DocumentSnapshot * Z) :=
  match es with
  | [] => if bool_decide (bound < 0)%Z then None else Some ([], sn, idx)
  | removed :: rest =>
      if bool_decide (bound < length es)%Z
      then evict rest (delete (h_id removed) sn) (idx - 1) bound
      else Some (es, sn, idx)
  end.

(** [record(action, description, documentState)]; [uuid] and [now] are
    the values of [uuidv4()] and [new Date()].  [None]: no return. *)
Definition record (uuid : string) (now : Z) (action description : string)
    (documentState : SVGDocument) (h : HistoryManager) : option HistoryManager :=
  if negb (isRecording h) then Some h
  else
    let '(es1, sn1) :=
      if bool_decide (currentIndex h < length (entries h) - 1)%Z then
        let k := spliceStart (currentIndex h + 1) (length (entries h)) in
        (take k (entries h), dropSnapshots (drop k (entries h)) (snapshots h))
      else (entries h, snapshots h) in
    let entry :=
      mkEntry (IdGenerator.generateUUID uuid (Some "history")) action now description in
    let sn2 := <[h_id entry := mkSnapshot (deepCopy documentState) now]> sn1 in
    let es2 := es1 ++ [entry] in
    '(es3, sn3, idx) ← evict es2 sn2 (length es2 - 1) (maxEntries h);
    Some (mkHistory es3 sn3 idx (maxEntries h) (isRecording h)).

(** [snapshot ? JSON.parse(JSON.stringify(snapshot.document)) : null]
    for the snapshot of [entry]. *)
Definition snapshotOf (h : HistoryManager) (entry : HistoryEntry) : option SVGDocument :=
  (λ s, deepCopy (snap_document s)) <$> snapshots h !! h_id entry.

(** [undo(steps = 1)].  The outer [None] is the [TypeError] of reading
    [.id] of an entry that does not exist. *)
Definition undo (steps : Z) (h : HistoryManager)
    : option (option SVGDocument * HistoryManager) :=
  if negb (canUndo h) then Some (None, h)
  else
    let targetIndex := Z.max 0 (currentIndex h - steps) in
    if bool_decide (0 < targetIndex)%Z then
      let h' := setIndex (targetIndex - 1) h in
      entry ← at_index (entries h') (currentIndex h');
      Some (snapshotOf h' entry, h')
    else
      let h' := setIndex (-1) h in
      firstEntry ← at_index (entries h') 0;
      Some (snapshotOf h' firstEntry, h').

(** [redo(steps = 1)] *)
Definition redo (steps : Z) (h : HistoryManager)
    : option (option SVGDocument * HistoryManager) :=
  if negb (canRedo h) then Some (None, h)
  else
    let targetIndex := Z.min (length (entries h) - 1) (currentIndex h + steps) in
    let h' := setIndex targetIndex h in
    entry ← at_index (entries h') (currentIndex h');
    Some (snapshotOf h' entry, h').

(** [goto(historyIndex)] *)
Definition goto (historyIndex : Z) (h : HistoryManager)
    : option (option SVGDocument * HistoryManager) :=
  if bool_decide (historyIndex < 0 ∨ length (entries h) ≤ historyIndex)%Z
  then Some (None, h)
  else
    let h' := setIndex historyIndex h in
    entry ← at_index (entries h') (currentIndex h');
    Some (snapshotOf h' entry, h').

Definition pauseRecording (h : HistoryManager) : HistoryManager :=
  mkHistory (entries h) (snapshots h) (currentIndex h) (maxEntries h) false.

Definition resumeRecording (h : HistoryManager) : HistoryManager :=
  mkHistory (entries h) (snapshots h) (currentIndex h) (maxEntries h) true.

(** [clear()] *)
Definition clear (h : HistoryManager) : HistoryManager :=
  mkHistory [] ∅ (-1) (maxEntries h) (isRecording h).

(** One call of [record] with everything it consumes. *)
Record Recording := mkRecording {
  r_uuid : string;
  r_now : Z;
  r_action : string;
  r_description : string;
  r_document : SVGDocument
}.

Definition recordCall (r : Recording) (h : HistoryManager) : option HistoryManager :=
  record (r_uuid r) (r_now r) (r_action r) (r_description r) (r_document r) h.

(** The entry that [record] pushes for a call. *)
Definition entryOf (r : Recording) : HistoryEntry :=
  mkEntry (IdGenerator.generateUUID (r_uuid r) (Some "history"))
          (r_action r) (r_now r) (r_description r).

(** A sequence of [record] calls, first to last. *)
Fixpoint recordAll (rs : list Recording) (h : HistoryManager) : option HistoryManager :=
  match rs with
  | [] => Some h
  | r :: rest => h' ← recordCall r h; recordAll rest h'
  end.

(** A sequence of [redo] calls with the given step counts; the results
    of the calls in order. *)
Fixpoint redoAll (steps : list Z) (h : HistoryManager)
    : option (list (option SVGDocument) * HistoryManager) :=
  match steps with
  | [] => Some ([], h)
  | n :: rest =>
      '(d, h') ← redo n h;
      '(ds, h'') ← redoAll rest h';
      Some (d :: ds, h'')
  end.

(** The last [k] elements of a list. *)
Definition lastn {A} (k : nat) (xs : list A) : list A := drop (length xs - k) xs.

(** A history that records and whose cursor is on its last entry. *)
Definition atTail (h : HistoryManager) : Prop :=
  isRecording h = true ∧ currentIndex h = (length (entries h) - 1)%Z.

(** The range of the cursor: [-1] or the position of an entry. *)
Definition cursorInRange (h : HistoryManager) : Prop :=
  (-1 ≤ currentIndex h < length (entries h))%Z.

(** ** Grouping, and what the snapshot store holds *)

(** [beginGroup()] *)
Definition beginGroup (h : HistoryManager) : HistoryManager := pauseRecording h.

(** [endGroup(action, description, documentState)] *)
Definition endGroup (uuid : string) (now : Z) (action description : string)
    (documentState : SVGDocument) (h : HistoryManager) : option HistoryManager :=
  record uuid now action description documentState (resumeRecording h).

Definition endGroupCall (r : Recording) (h : HistoryManager) : option HistoryManager :=
  endGroup (r_uuid r) (r_now r) (r_action r) (r_description r) (r_document r) h.

(** Every key of the snapshot map is the identifier of an entry. *)
Definition snapshotsOwned (h : HistoryManager) : Prop :=
  ∀ k, is_Some (snapshots h !! k) → k ∈ h_id <$> entries h.

End History.

(* ================================================================== *)
(** * Layer manager *)
(* ================================================================== *)
Module Layers.
Import IdGenerator.

(** [type BlendMode] *)
Inductive BlendMode :=
| normal | multiply | screen | overlay | darken | lighten | color_dodge
| color_burn | hard_light | soft_light | difference | exclusion | hue
| saturation | color | luminosity.

Definition blend_str (b : BlendMode) : string :=
  match b with
  | normal => "normal" | multiply => "multiply" | screen => "screen"
  | overlay => "overlay" | darken => "darken" | lighten => "lighten"
  | color_dodge => "color-dodge" | color_burn => "color-burn"
  | hard_light => "hard-light" | soft_light => "soft-light"
  | difference => "difference" | exclusion => "exclusion" | hue => "hue"
  | saturation => "saturation" | color => "color" | luminosity => "luminosity"
  end.

(** [interface Layer] *)
Record Layer := mkLayer {
  id : string;
  name : string;
  visible : bool;
  locked : bool;
  opacity : Q;
  blendMode : option BlendMode;
  elements : list string;
  parentId : option string
}.

(** [interface LayerOperationResult] *)
Record LayerOperationResult := mkResult {
  success : bool;
  layerId : option string;
  message : option string
}.

Definition ok (layerId : option string) (msg : string) : LayerOperationResult :=
  mkResult true layerId (Some msg).
Definition failure (msg : string) : LayerOperationResult :=
  mkResult false None (Some msg).

Definition notFound : LayerOperationResult := failure "레이어를 찾을 수 없습니다.".

(** [class LayerManager] *)
Record LayerManager := mkLayers {
  layers : list Layer;
  activeLayerId : option string
}.

Definition setElements (es : list string) (l : Layer) : Layer :=
  mkLayer (id l) (name l) (visible l) (locked l) (opacity l) (blendMode l) es (parentId l).

(** [this.layers.findIndex(l => l.id === layerId)] *)
Definition findIndex (layerId : string) (ls : list Layer) : option nat :=
  fst <$> list_find (λ l, id l = layerId) ls.

(** [getLayer(layerId)] *)
Definition getLayer (layerId : string) (s : LayerManager) : option Layer :=
  snd <$> list_find (λ l, id l = layerId) (layers s).

(** The layer list after a mutation [f] of the object that
    [getLayer(layerId)] returns. *)
Definition mutateLayer (layerId : string) (f : Layer → Layer) (ls : list Layer)
    : list Layer :=
  match findIndex layerId ls with
  | Some i => alter f i ls
  | None => ls
  end.

(** [array.splice(i, 0, x)] for [0 <= i <= array.length] *)
Definition insertAt {A} (i : nat) (x : A) (xs : list A) : list A :=
  take i xs ++ x :: drop i xs.

(** [createLayer(name?, insertAt?)] *)
Definition createLayer (name : option string) (at_ : option Z) (s : LayerManager)
    : Gen (LayerOperationResult * LayerManager) :=
  i ← generateId p_layer;
  let layer :=
    mkLayer i (orElse name ("Layer " +:+ pretty (length (layers s) + 1)%nat))
            true false 1 None [] None in
  let ls :=
    match at_ with
    | Some n =>
        if bool_decide (0 ≤ n ∧ n ≤ length (layers s))%Z
        then insertAt (Z.to_nat n) layer (layers s)
        else layers s ++ [layer]
    | None => layers s ++ [layer]
    end in
  let active := if decide (length ls = 1%nat) then Some i else activeLayerId s in
  mret (ok (Some i) ("레이어 '" +:+ Layers.name layer +:+ "' 생성됨"),
        mkLayers ls active).

(** [new LayerManager()] *)
Definition new : Gen LayerManager :=
  r ← createLayer (Some "Layer 1") None (mkLayers [] None);
  mret r.2.

(** [x?.id || null] *)
Definition idOrNull (l : option Layer) : option string :=
  match l with
  | Some x => if decide (id x = "") then None else Some (id x)
  | None => None
  end.

(** [deleteLayer(layerId)] *)
Definition deleteLayer (layerId : string) (s : LayerManager)
    : LayerOperationResult * LayerManager :=
  match findIndex layerId (layers s) with
  | None => (notFound, s)
  | Some index =>
      if decide (length (layers s) = 1%nat) then
        (failure "마지막 레이어는 삭제할 수 없습니다.", s)
      else
        let layer := layers s !! index in
        let ls := delete index (layers s) in
        let active :=
          if decide (activeLayerId s = Some layerId)
          then idOrNull (ls !! (index `min` (length ls - 1))%nat)
          else activeLayerId s in
        (ok None ("레이어 '" +:+ from_option name "" layer +:+ "' 삭제됨"),
         mkLayers ls active)
  end.

(** The methods that look a layer up, change one field of it and report. *)
Definition updateLayer (layerId : string) (f : Layer → Layer)
    (msg : Layer → string) (s : LayerManager) : LayerOperationResult * LayerManager :=
  match getLayer layerId s with
  | None => (notFound, s)
  | Some layer =>
      (ok (Some layerId) (msg layer),
       mkLayers (mutateLayer layerId f (layers s)) (activeLayerId s))
  end.

(** [renameLayer(layerId, newName)] *)
Definition renameLayer (layerId newName : string) :=
  updateLayer layerId
    (λ l, mkLayer (id l) newName (visible l) (locked l) (opacity l) (blendMode l)
                  (elements l) (parentId l))
    (λ l, "레이어 이름 변경: '" +:+ name l +:+ "' → '" +:+ newName +:+ "'").

(** [reorderLayer(layerId, newIndex)] *)
Definition reorderLayer (layerId : string) (newIndex : Z) (s : LayerManager)
    : LayerOperationResult * LayerManager :=
  match list_find (λ l, id l = layerId) (layers s) with
  | None => (notFound, s)
  | Some (currentIndex, layer) =>
      if bool_decide (newIndex < 0 ∨ length (layers s) ≤ newIndex)%Z then
        (failure "유효하지 않은 인덱스입니다.", s)
      else
        (ok (Some layerId) ("레이어 '" +:+ name layer +:+ "' 순서 변경됨"),
         mkLayers (insertAt (Z.to_nat newIndex) layer (delete currentIndex (layers s)))
                  (activeLayerId s))
  end.

(** [setLayerVisibility(layerId, visible)] *)
Definition setLayerVisibility (layerId : string) (v : bool) :=
  updateLayer layerId
    (λ l, mkLayer (id l) (name l) v (locked l) (opacity l) (blendMode l)
                  (elements l) (parentId l))
    (λ l, "레이어 '" +:+ name l +:+ "' " +:+ (if v then "표시" else "숨김")).

(** [setLayerLock(layerId, locked)] *)
Definition setLayerLock (layerId : string) (b : bool) :=
  updateLayer layerId
    (λ l, mkLayer (id l) (name l) (visible l) b (opacity l) (blendMode l)
                  (elements l) (parentId l))
    (λ l, "레이어 '" +:+ name l +:+ "' " +:+ (if b then "잠금" else "잠금 해제")).

(** [x < y] on numbers *)
Definition Qltb (x y : Q) : bool := negb (Qle_bool y x).

(** [Math.round(x)], of the exact rational [x]; it is used for the
    percentage in the message of [setLayerOpacity] only. *)
Definition round (x : Q) : Z := Qfloor (x + (1 # 2))%Q.

(** [setLayerOpacity(layerId, opacity)] *)
Definition setLayerOpacity (layerId : string) (o : Q) (s : LayerManager)
    : LayerOperationResult * LayerManager :=
  match getLayer layerId s with
  | None => (notFound, s)
  | Some layer =>
      if Qltb o 0 || Qltb 1 o then
        (failure "불투명도는 0~1 사이여야 합니다.", s)
      else
        (ok (Some layerId)
            ("레이어 '" +:+ name layer +:+ "' 불투명도: " +:+ pretty (round (o * 100)%Q) +:+ "%"),
         mkLayers
           (mutateLayer layerId
              (λ l, mkLayer (id l) (name l) (visible l) (locked l) o (blendMode l)
                            (elements l) (parentId l))
              (layers s))
           (activeLayerId s))
  end.

(** [setLayerBlendMode(layerId, blendMode)] *)
Definition setLayerBlendMode (layerId : string) (b : BlendMode) :=
  updateLayer layerId
    (λ l, mkLayer (id l) (name l) (visible l) (locked l) (opacity l) (Some b)
                  (elements l) (parentId l))
    (λ l, "레이어 '" +:+ name l +:+ "' 블렌드 모드: " +:+ blend_str b).

(** [getActiveLayer()] *)
Definition getActiveLayer (s : LayerManager) : option Layer :=
  match activeLayerId s with
  | Some a => if decide (a = "") then None else getLayer a s
  | None => None
  end.

(** [setActiveLayer(layerId)] *)
Definition setActiveLayer (layerId : string) (s : LayerManager)
    : LayerOperationResult * LayerManager :=
  match getLayer layerId s with
  | None => (notFound, s)
  | Some layer =>
      (ok (Some layerId) ("활성 레이어: '" +:+ name layer +:+ "'"),
       mkLayers (layers s) (Some layerId))
  end.

(** [array.indexOf(x)] *)
Definition indexOf (x : string) (xs : list string) : option nat :=
  fst <$> list_find (λ y, y = x) xs.

(** [const index = xs.indexOf(x); if (index !== -1) xs.splice(index, 1)] *)
Definition removeId (x : string) (xs : list string) : list string :=
  match indexOf x xs with
  | Some index => delete index xs
  | None => xs
  end.

(** [addElementToLayer(layerId, elementId)] *)
Definition addElementToLayer (layerId elementId : string) (s : LayerManager)
    : LayerOperationResult * LayerManager :=
  match getLayer layerId s with
  | None => (notFound, s)
  | Some layer =>
      if locked layer then
        (failure "잠긴 레이어에는 요소를 추가할 수 없습니다.", s)
      else
        let cleared := (λ l, setElements (removeId elementId (elements l)) l) <$> layers s in
        (ok (Some layerId) ("요소가 레이어 '" +:+ name layer +:+ "'에 추가됨"),
         mkLayers
           (mutateLayer layerId (λ l, setElements (elements l ++ [elementId]) l) cleared)
           (activeLayerId s))
  end.

(** [addElementToActiveLayer(elementId)] *)
Definition addElementToActiveLayer (elementId : string) (s : LayerManager)
    : Gen (LayerOperationResult * LayerManager) :=
  match getActiveLayer s with
  | None =>
      r ← createLayer None None s;
      match layerId r.1 with
      | Some i =>
          if negb (success r.1) || bool_decide (i = "") then mret r
          else mret (addElementToLayer i elementId r.2)
      | None => mret r
      end
  | Some activeLayer => mret (addElementToLayer (id activeLayer) elementId s)
  end.

(** [findLayerByElement(elementId)] *)
Definition findLayerByElement (elementId : string) (s : LayerManager) : option Layer :=
  snd <$> list_find (λ l, elementId ∈ elements l) (layers s).

(** [removeElementFromLayer(elementId)] *)
Definition removeElementFromLayer (elementId : string) (s : LayerManager)
    : LayerOperationResult * LayerManager :=
  match list_find (λ l, elementId ∈ elements l) (layers s) with
  | Some (i, layer) =>
      (ok None ("요소가 레이어 '" +:+ name layer +:+ "'에서 제거됨"),
       mkLayers (alter (λ l, setElements (removeId elementId (elements l)) l) i (layers s))
                (activeLayerId s))
  | None => (failure "요소를 찾을 수 없습니다.", s)
  end.

(** [mergeLayers(sourceLayerId, targetLayerId)] *)
Definition mergeLayers (sourceLayerId targetLayerId : string) (s : LayerManager)
    : LayerOperationResult * LayerManager :=
  match getLayer sourceLayerId s, getLayer targetLayerId s with
  | Some sourceLayer, Some targetLayer =>
      if decide (sourceLayerId = targetLayerId) then
        (failure "같은 레이어끼리 병합할 수 없습니다.", s)
      else
        deleteLayer sourceLayerId
          (mkLayers
             (mutateLayer targetLayerId
                (λ l, setElements (elements l ++ elements sourceLayer) l) (layers s))
             (activeLayerId s))
  | _, _ => (notFound, s)
  end.

(** [duplicateLayer(layerId)] *)
Definition duplicateLayer (layerId : string) (s : LayerManager)
    : Gen (LayerOperationResult * LayerManager) :=
  match list_find (λ l, id l = layerId) (layers s) with
  | None => mret (notFound, s)
  | Some (index, layer) =>
      i ← generateId p_layer;
      let newLayer :=
        mkLayer i (name layer +:+ " (복사본)") (visible layer) false (opacity layer)
                (blendMode layer) (elements layer) None in
      mret (ok (Some i) ("레이어 '" +:+ name newLayer +:+ "' 복제됨"),
            mkLayers (insertAt (index + 1) newLayer (layers s)) (activeLayerId s))
  end.

(** [reset()] *)
Definition reset (s : LayerManager) : Gen LayerManager :=
  r ← createLayer (Some "Layer 1") None (mkLayers [] None);
  mret r.2.

(** [toJSON()] *)
Definition toJSON (s : LayerManager) : list Layer * option string :=
  (deepCopy (layers s), activeLayerId s).

(** [fromJSON(data)] *)
Definition fromJSON (data : list Layer * option string) (s : LayerManager)
    : Gen LayerManager :=
  let s' := mkLayers (deepCopy data.1) data.2 in
  if decide (length (layers s') = 0%nat) then
    r ← createLayer (Some "Layer 1") None s';
    mret r.2
  else mret s'.

(** ** Calls as data *)

(** The state-changing methods of the class. *)
Inductive Call :=
| CreateLayer (name : option string) (at_ : option Z)
| DeleteLayer (layerId : string)
| RenameLayer (layerId newName : string)
| ReorderLayer (layerId : string) (newIndex : Z)
| SetLayerVisibility (layerId : string) (v : bool)
| SetLayerLock (layerId : string) (b : bool)
| SetLayerOpacity (layerId : string) (o : Q)
| SetLayerBlendMode (layerId : string) (b : BlendMode)
| SetActiveLayer (layerId : string)
| AddElementToLayer (layerId elementId : string)
| AddElementToActiveLayer (elementId : string)
| RemoveElementFromLayer (elementId : string)
| MergeLayers (sourceLayerId targetLayerId : string)
| DuplicateLayer (layerId : string)
| Reset
| FromJSON (data : list Layer * option string).

(** The manager after a call. *)
Definition perform (c : Call) (s : LayerManager) : Gen LayerManager :=
  match c with
  | CreateLayer n a => r ← createLayer n a s; mret r.2
  | DeleteLayer i => mret (deleteLayer i s).2
  | RenameLayer i n => mret (renameLayer i n s).2
  | ReorderLayer i n => mret (reorderLayer i n s).2
  | SetLayerVisibility i v => mret (setLayerVisibility i v s).2
  | SetLayerLock i b => mret (setLayerLock i b s).2
  | SetLayerOpacity i o => mret (setLayerOpacity i o s).2
  | SetLayerBlendMode i b => mret (setLayerBlendMode i b s).2
  | SetActiveLayer i => mret (setActiveLayer i s).2
  | AddElementToLayer i e => mret (addElementToLayer i e s).2
  | AddElementToActiveLayer e => r ← addElementToActiveLayer e s; mret r.2
  | RemoveElementFromLayer e => mret (removeElementFromLayer e s).2
  | MergeLayers a b => mret (mergeLayers a b s).2
  | DuplicateLayer i => r ← duplicateLayer i s; mret r.2
  | Reset => reset s
  | FromJSON d => fromJSON d s
  end.

(** The managers that a program can hold: a fresh one, or one obtained
    from another by a method call.  The counters are shared with the
    rest of the process, so every call may find them in any state. *)
Inductive reachable : LayerManager → Prop :=
| reach_new cs : reachable (new cs).1
| reach_call s c cs : reachable s → reachable (perform c s cs).1.

(** A sequence of [addElementToLayer] calls, given as pairs
    [(layerId, elementId)]. *)
Definition addAll (calls : list (string * string)) (s : LayerManager) : LayerManager :=
  foldl (λ acc c, (addElementToLayer c.1 c.2 acc).2) s calls.

(** Every element identifier occurs at most once in all the membership
    lists taken together. *)
Definition singleMembership (s : LayerManager) : Prop :=
  NoDup (concat (elements <$> layers s)).

(** The managers built without [fromJSON]: a fresh one, or one obtained
    from another by any other method call. *)
Inductive built : LayerManager → Prop :=
| built_new cs : built (new cs).1
| built_call s c cs : built s → (∀ d, c ≠ FromJSON d) → built (perform c s cs).1.

(** No layer has the empty identifier, and [activeLayerId] names a layer
    of the manager. *)
Definition activeLayerPresent (s : LayerManager) : Prop :=
  (∀ l, l ∈ layers s → id l ≠ "") ∧
  ∃ a, activeLayerId s = Some a ∧ is_Some (getLayer a s).

End Layers.

(* ================================================================== *)
(** * The draw-and-undo scenario *)
(* ================================================================== *)
Module Scenario.
Import Element Document.

(** An 800x600 canvas; a red rectangle at (10,10) of size 100x50; a
    circle at (200,200) of radius 30.  The three managers are the states
    after each step. *)
Definition drawing
    : Gen (SVGDocumentManager * SVGDocumentManager * SVGDocumentManager) :=
  m0 ← Document.new noConfig;
  m1 ← Document.create (λ _, None) 800 600 (mkCreateOptions None None None) m0;
  r ← createRect 10 10 100 50 None None
        (mkOptions None None (Some "#ff0000") None None None None None);
  let m2 := (addElement r m1).2 in
  c ← createCircle 200 200 30 noOptions;
  let m3 := (addElement c m2).2 in
  mret (m1, m2, m3).

Definition blankCanvas : SVGDocumentManager := (drawing ∅).1.1.1.
Definition rectCanvas : SVGDocumentManager := (drawing ∅).1.1.2.
Definition bothCanvas : SVGDocumentManager := (drawing ∅).1.2.

(** The exports [toJSON()] after each step. *)
Definition emptyDoc : SVGDocument := toJSON blankCanvas.
Definition rectDoc : SVGDocument := toJSON rectCanvas.
Definition bothDoc : SVGDocument := toJSON bothCanvas.

(** The rectangle of the scenario, [rect-1]. *)
Definition theRect : SVGElement :=
  (createRect 10 10 100 50 None None
     (mkOptions None None (Some "#ff0000") None None None None None) ∅).1.

(** [{ id: 'renamed' }] *)
Definition renaming : PartialElement := mkPartial None (Some "renamed") ∅ None.

(** [{ fill: '#00ff00', opacity: undefined }] *)
Definition restyling : PartialElement :=
  mkPartial None None (<["fill" := Some (PStr "#00ff00")]> (<["opacity" := None]> ∅)) None.

Definition withId (i : string) : ElementOptions :=
  mkOptions (Some i) None None None None None None None.

(** A group made with identifiers chosen by the caller, as the grouping
    tool does with its [groupId] argument, in a process whose counters
    are still empty. *)
Definition buildCustomGroup : Gen SVGElement :=
  r ← createRect 0 0 10 10 None None (withId "rect-1");
  c ← createCircle 5 5 2 (withId "circle-1");
  createGroup [r; c] (withId "group-1").
Definition customGroup : SVGElement := (buildCustomGroup ∅).1.

(** The same group made with generated identifiers, and the counters
    after it has been made. *)
Definition buildGeneratedGroup : Gen SVGElement :=
  r ← createRect 0 0 10 10 None None noOptions;
  c ← createCircle 5 5 2 noOptions;
  inner ← createGroup [c] noOptions;
  createGroup [r; inner] noOptions.
Definition generatedGroup : SVGElement := (buildGeneratedGroup ∅).1.
Definition generatedCounters : IdGenerator.Counters := (buildGeneratedGroup ∅).2.

(** The two [record] calls of the scenario. *)
Definition drawRect : History.Recording :=
  History.mkRecording "0001" 1 "draw_rect" "rectangle" rectDoc.
Definition drawCircle : History.Recording :=
  History.mkRecording "0002" 2 "draw_circle" "circle" bothDoc.

(** Further calls, for histories with more entries. *)
Definition wipe : History.Recording :=
  History.mkRecording "0003" 3 "clear" "everything removed" emptyDoc.
Definition redraw (n : nat) : History.Recording :=
  History.mkRecording ("1" +:+ pretty n) (4 + n) "draw_rect" "rectangle again" rectDoc.

Definition twoEntries : History.HistoryManager :=
  default (History.new 100)
    (History.recordAll [drawRect; drawCircle] (History.new 100)).
Definition threeEntries : History.HistoryManager :=
  default (History.new 100)
    (History.recordAll [drawRect; drawCircle; wipe] (History.new 100)).

(** A fresh layer manager: the single layer [layer-1]. *)
Definition oneLayer : Layers.LayerManager := (Layers.new ∅).1.

(** Two layers, [layer-1] and a locked [layer-2]. *)
Definition buildLockedSecond : Gen Layers.LayerManager :=
  s ← Layers.new;
  r ← Layers.createLayer (Some "L2") None s;
  mret (Layers.setLayerLock "layer-2" true r.2).2.
Definition lockedSecond : Layers.LayerManager := (buildLockedSecond ∅).1.

(** Two layers: [layer-1], locked, and [layer-2] holding [rect-1] and
    [circle-1]. *)
Definition buildLockedFirst : Gen Layers.LayerManager :=
  s ← Layers.new;
  r ← Layers.createLayer (Some "L2") None s;
  let s1 := (Layers.addElementToLayer "layer-2" "rect-1" r.2).2 in
  let s2 := (Layers.addElementToLayer "layer-2" "circle-1" s1).2 in
  mret (Layers.setLayerLock "layer-1" true s2).2.
Definition lockedFirst : Layers.LayerManager := (buildLockedFirst ∅).1.

End Scenario.

(* ================================================================== *)
(** * Properties of the element model *)
(* ================================================================== *)
Section ElementFacts.
Import IdGenerator Element.

Lemma run_bind_ret {A B} (m : Gen A) (f : A → B) cs :
  ((m ≫= λ r, mret (f r)) cs).1 = f (m cs).1.
Proof. unfold mbind, gen_bind, mret, gen_ret. by destruct (m cs). Qed.

Lemma append_hyphen_inj a b s t :
  hyphenFree a = true → hyphenFree b = true →
  a +:+ "-" +:+ s = b +:+ "-" +:+ t → a = b ∧ s = t.
Proof.
  revert b. induction a as [|c a IH]; intros [|d b] Ha Hb Heq; simpl in *.
  - by simplify_eq.
  - case_decide; [done|]. simplify_eq.
  - case_decide; [done|]. simplify_eq.
  - repeat case_decide; try done. simplify_eq.
    destruct (IH b Ha Hb) as [-> ->]; done.
Qed.

Lemma prefix_str_hyphenFree p : hyphenFree (prefix_str p) = true.
Proof. by destruct p. Qed.

Lemma prefix_str_inj p q : prefix_str p = prefix_str q → p = q.
Proof. destruct p, q; (done || discriminate). Qed.

Lemma shortId_inj p q n m : shortId p n = shortId q m → p = q ∧ n = m.
Proof.
  unfold shortId. intros H.
  apply append_hyphen_inj in H as [Hp Hn]; try apply prefix_str_hyphenFree.
  split; [by apply prefix_str_inj|by apply (inj pretty)].
Qed.

(** ** The counters below [2^53] *)

Lemma maxExact_lt_infinity : (maxExact < infinity)%N.
Proof. by vm_compute. Qed.

Lemma roundToDouble_exact n : (n ≤ maxExact)%N → roundToDouble n = n.
Proof.
  intros Hn. unfold roundToDouble. destruct (n <? maxExact)%N eqn:E; [done|].
  apply N.ltb_ge in E. assert (n = maxExact) as -> by lia. by vm_compute.
Qed.

(** Rounding does not bring an integer from [2^53] on below [2^53]. *)
Lemma roundToDouble_ge n : (maxExact ≤ n)%N → (maxExact ≤ roundToDouble n)%N.
Proof.
  intros Hn. unfold roundToDouble. rewrite (proj2 (N.ltb_ge _ _) Hn). cbv zeta.
  destruct (infinity <=? _)%N; [apply N.lt_le_incl, maxExact_lt_infinity|].
  assert (Hlog : (53 ≤ N.log2 n)%N).
  { change 53%N with (N.log2 maxExact). by apply N.log2_le_mono. }
  set (sh := (N.log2 n - 52)%N).
  assert (Hsh : (1 ≤ sh)%N) by (unfold sh; lia).
  assert (Hpow : (2 ^ sh * 2 ^ 52 ≤ n)%N).
  { rewrite <- N.pow_add_r. replace (sh + 52)%N with (N.log2 n) by (unfold sh; lia).
    apply N.log2_spec. unfold maxExact in Hn. lia. }
  assert (Hq : (2 ^ 52 ≤ N.shiftr n sh)%N).
  { rewrite N.shiftr_div_pow2. apply N.div_le_lower_bound; [|done].
    apply N.pow_nonzero. done. }
  set (q := N.shiftr n sh) in *.
  assert (Hq' : (2 ^ 52 ≤ (if (N.shiftl 1 (sh - 1) <? n - N.shiftl q sh)%N
                              || ((n - N.shiftl q sh =? N.shiftl 1 (sh - 1))%N && N.odd q)
                           then q + 1 else q))%N).
  { destruct (_ || _); lia. }
  rewrite N.shiftl_mul_pow2.
  change maxExact with (2 ^ 52 * 2 ^ 1)%N.
  apply N.mul_le_mono; [done|]. apply N.pow_le_mono_r; [done|lia].
Qed.

Lemma roundToDouble_below n : (roundToDouble n < maxExact)%N → roundToDouble n = n.
Proof.
  intros Hr. destruct (decide (n ≤ maxExact)%N) as [Hn|Hn].
  - by apply roundToDouble_exact.
  - pose proof (roundToDouble_ge n). lia.
Qed.

Lemma increment_exact c : (c < maxExact)%N → increment c = (c + 1)%N.
Proof. intros Hc. apply roundToDouble_exact. lia. Qed.

Lemma numberToString_exact c : (c ≤ maxExact)%N → numberToString c = pretty c.
Proof.
  intros Hc. unfold numberToString. pose proof maxExact_lt_infinity.
  rewrite (proj2 (N.leb_gt _ _)) by lia.
  by rewrite (proj2 (N.leb_le _ _)) by lia.
Qed.

(** Below [2^53] a call hands out the next integer. *)
Lemma generateId_exact p cs :
  (counter cs p < maxExact)%N →
  generateId p cs
  = (shortId p (counter cs p + 1), <[prefix_str p := (counter cs p + 1)%N]> cs).
Proof.
  intros Hc. unfold generateId, shortId. cbv zeta.
  rewrite increment_exact by done. by rewrite numberToString_exact by lia.
Qed.

(** At [2^53] the counter no longer advances. *)
Lemma generateId_stuck p cs :
  counter cs p = maxExact →
  generateId p cs = (shortId p maxExact, <[prefix_str p := maxExact]> cs).
Proof.
  intros Hc. unfold generateId, shortId. cbv zeta. rewrite Hc.
  assert (increment maxExact = maxExact) as -> by (by vm_compute).
  by rewrite numberToString_exact.
Qed.

Lemma generateId_nonempty p cs : (generateId p cs).1 ≠ "".
Proof. unfold generateId. cbn. by destruct p. Qed.

Lemma counter_generateId_eq p cs :
  (counter cs p < maxExact)%N → counter (generateId p cs).2 p = (counter cs p + 1)%N.
Proof.
  intros Hc. rewrite generateId_exact by done. unfold counter. cbn.
  by rewrite lookup_insert_eq.
Qed.

Lemma counter_generateId_ne p q cs : p ≠ q → counter (generateId p cs).2 q = counter cs q.
Proof.
  intros Hne. unfold generateId, counter. cbn.
  rewrite lookup_insert_ne; [done|]. intros H. by apply prefix_str_inj in H.
Qed.

Lemma counter_generateId_le p q cs :
  (counter cs p < maxExact)%N →
  (counter cs q ≤ counter (generateId p cs).2 q ≤ counter cs q + 1)%N.
Proof.
  intros Hc. destruct (decide (p = q)) as [<-|Hne].
  - rewrite counter_generateId_eq by done. lia.
  - rewrite counter_generateId_ne by done. lia.
Qed.

Lemma generateId_between p cs :
  (counter cs p < maxExact)%N → between cs (generateId p cs).2 (generateId p cs).1.
Proof.
  intros Hc. exists p, (counter cs p + 1)%N. split.
  - by rewrite generateId_exact.
  - rewrite counter_generateId_eq by done. lia.
Qed.

Lemma between_weaken cs0 cs1 cs2 cs3 i :
  (∀ p, (counter cs0 p ≤ counter cs1 p)%N) → (∀ p, (counter cs2 p ≤ counter cs3 p)%N) →
  between cs1 cs2 i → between cs0 cs3 i.
Proof.
  intros H01 H23 (p & n & -> & Hn). exists p, n. split; [done|].
  specialize (H01 p). specialize (H23 p). lia.
Qed.

Lemma between_disjoint cs0 cs1 cs2 i :
  between cs0 cs1 i → between cs1 cs2 i → False.
Proof.
  intros (p & n & -> & Hn) (q & m & Heq & Hm).
  apply shortId_inj in Heq as [-> ->]. lia.
Qed.

Lemma run_bind {A B} (m : Gen A) (f : A → Gen B) cs :
  (m ≫= f) cs = f (m cs).1 (m cs).2.
Proof. unfold mbind, gen_bind. by destruct (m cs). Qed.

Lemma run_ret {A} (a : A) cs : (mret a : Gen A) cs = (a, cs).
Proof. done. Qed.

Lemma gmapM_cons {A B} (f : A → Gen B) x xs cs :
  gmapM f (x :: xs) cs
  = ((f x cs).1 :: (gmapM f xs (f x cs).2).1, (gmapM f xs (f x cs).2).2).
Proof.
  cbn [gmapM]. rewrite run_bind, run_bind, run_ret. done.
Qed.

Lemma cloneElement_unfold e cs :
  cloneElement e None cs
  = let r := generateId (idPrefixOf (el_type e)) cs in
    if decide (el_type e = t_g) then
      let ch := gmapM (λ child, cloneElement child None) (el_children e) r.2 in
      (mkElement (el_type e) r.1 (el_props e) ch.1, ch.2)
    else (mkElement (el_type e) r.1 (el_props e) (el_children e), r.2).
Proof.
  destruct e as [t i ps ch]. cbn [cloneElement deepCopy el_type el_children el_props idOrFresh].
  rewrite run_bind. case_decide; [|done].
  rewrite run_bind, run_ret. done.
Qed.

Lemma cloneAll_spec ch :
  Forall cloneSpec ch →
  ∀ cs, roomFor (length (flat_map ids ch)) cs →
    let r := gmapM (λ child, cloneElement child None) ch cs in
    (∀ p, (counter cs p ≤ counter r.2 p
           ≤ counter cs p + N.of_nat (length (flat_map ids ch)))%N) ∧
    Forall (between cs r.2) (flat_map ids r.1) ∧
    NoDup (flat_map ids r.1).
Proof.
  induction 1 as [|x ch Hx _ IH]; intros cs Hroom.
  - cbn. split_and!; [intros p; lia|constructor|apply NoDup_nil_2].
  - cbv zeta. rewrite gmapM_cons. cbn [fst snd flat_map].
    cbn [flat_map] in Hroom. rewrite length_app in Hroom.
    destruct (Hx cs) as (Hx1 & Hx2 & Hx3).
    { intros p. specialize (Hroom p). lia. }
    destruct (IH (cloneElement x None cs).2) as (IH1 & IH2 & IH3).
    { intros p. specialize (Hroom p). specialize (Hx1 p). lia. }
    split_and!.
    + intros p. specialize (Hx1 p). specialize (IH1 p). rewrite length_app. lia.
    + apply Forall_app. split.
      * eapply Forall_impl; [exact Hx2|]. intros i.
        apply between_weaken; [done|intros p; apply IH1].
      * eapply Forall_impl; [exact IH2|]. intros i.
        apply between_weaken; [intros p; apply Hx1|done].
    + apply NoDup_app. split_and!; [done| |done].
      intros i Hi Hi'. rewrite Forall_forall in Hx2, IH2.
      exact (between_disjoint _ _ _ i (Hx2 i Hi) (IH2 i Hi')).
Qed.

Lemma cloneElement_spec e : cloneSpec e.
Proof.
  induction e as [t i ps ch IH] using SVGElement_tree_ind. intros cs Hroom. cbv zeta.
  rewrite cloneElement_unfold. cbn [el_type el_props el_children]. cbv zeta.
  set (p0 := idPrefixOf t).
  assert (Hlen : 1 ≤ length (ids (mkElement t i ps ch))) by (cbn; lia).
  assert (Hc : (counter cs p0 < maxExact)%N) by (specialize (Hroom p0); lia).
  pose proof (generateId_between p0 cs Hc) as Hown.
  pose proof (λ q, counter_generateId_le p0 q cs Hc) as Hgen.
  revert Hroom. cbn [ids el_id el_type el_children]. intros Hroom.
  case_decide as Ht.
  - cbn [length] in Hroom.
    destruct (cloneAll_spec ch IH (generateId p0 cs).2) as (H1 & H2 & H3).
    { intros p. specialize (Hroom p). specialize (Hgen p). lia. }
    cbn [fst snd ids el_id el_type el_children length]. rewrite decide_True by done.
    split_and!.
    + intros p. specialize (Hgen p). specialize (H1 p). lia.
    + constructor.
      * eapply between_weaken; [..|exact Hown]; [done|intros p; apply H1].
      * eapply Forall_impl; [exact H2|]. intros j.
        apply between_weaken; [intros q; apply Hgen|done].
    + apply NoDup_cons. split; [|done].
      intros Hin. rewrite Forall_forall in H2.
      exact (between_disjoint _ _ _ _ Hown (H2 _ Hin)).
  - cbn [fst snd ids el_id el_type el_children length]. rewrite decide_False by done.
    split_and!.
    + intros q. specialize (Hgen q). lia.
    + by constructor.
    + apply NoDup_singleton.
Qed.

(** Claim C9, amended.  When the counters are not behind the element,
    that is, no identifier [{kind}-{n}] with [n] above the current counter
    of [kind] occurs in [g], and every counter is at least as many steps
    below [2^53] as [g] has identifiers, the identifiers of [clone(g)], its
    own and those of its descendants at every depth, are pairwise distinct
    and none of them occurs in [g].  (From [2^53] on a counter, being a
    double, no longer advances by one: see [generateId_stuck].) *)
Theorem clone_ids_fresh (g : SVGElement) (cs : Counters) :
  (∀ p n, (counter cs p < n)%N → shortId p n ∉ ids g) →
  roomFor (length (ids g)) cs →
  let c := (cloneElement g None cs).1 in
  NoDup (ids c) ∧ ∀ i, i ∈ ids c → i ∉ ids g.
Proof.
  intros Hsync Hroom c. destruct (cloneElement_spec g cs Hroom) as (_ & Hbetween & Hnd).
  split; [done|]. intros i Hi. rewrite Forall_forall in Hbetween.
  destruct (Hbetween i Hi) as (p & n & -> & Hn). apply Hsync. lia.
Qed.

(** Claim C9 fails as stated.  A group whose identifiers were chosen by
    the caller as [group-1], [rect-1], [circle-1], cloned while the
    counters are empty, yields a clone that carries the very same three
    identifiers. *)
Lemma clone_shares_ids_counterexample :
  let g := Scenario.customGroup in
  let c := (cloneElement g None ∅).1 in
  el_type g = t_g ∧
  ids g = ["group-1"; "rect-1"; "circle-1"] ∧
  ids c = ["group-1"; "rect-1"; "circle-1"].
Proof. vm_compute. repeat split. Qed.

Lemma clone_ids_fresh_witness :
  let c := (cloneElement Scenario.generatedGroup None Scenario.generatedCounters).1 in
  NoDup (ids c) ∧ ∀ i, i ∈ ids c → i ∉ ids Scenario.generatedGroup.
Proof.
  apply (clone_ids_fresh Scenario.generatedGroup Scenario.generatedCounters).
  - intros p n Hn Hin.
    assert (Hids : ids Scenario.generatedGroup
                   = [shortId p_group 2; shortId p_rect 1; shortId p_group 1;
                      shortId p_circle 1]) by (vm_compute; reflexivity).
    rewrite Hids in Hin. clear Hids.
    rewrite !elem_of_cons, elem_of_nil in Hin.
    destruct Hin as [H|[H|[H|[H|[]]]]]; apply shortId_inj in H as [-> ->];
      vm_compute in Hn; discriminate.
  - intros p. destruct p; vm_compute; discriminate.
Defined.
End ElementFacts.

(* ================================================================== *)
(** * Properties of the document manager *)
(* ================================================================== *)
Section DocumentFacts.
Import IdGenerator Element Document.

Lemma findIn_unfold id e :
  findIn id e
  = if decide (el_id e = id) then Some e
    else if decide (el_type e = t_g) then firstSome (findIn id) (el_children e)
    else None.
Proof. by destruct e. Qed.

Lemma assignIn_unfold id u e :
  assignIn id u e
  = if decide (el_id e = id) then Some (assign e u)
    else if decide (el_type e = t_g) then
      ch ← replaceFirst (assignIn id u) (el_children e);
      Some (mkElement (el_type e) (el_id e) (el_props e) ch)
    else None.
Proof. by destruct e. Qed.

Lemma assignSpec_list id u els :
  Forall (assignSpec id u) els →
  match firstSome (findIn id) els with
  | Some found =>
      el_id found = id ∧
      ∃ els', replaceFirst (assignIn id u) els = Some els' ∧
              (u_id u = None → firstSome (findIn id) els' = Some (assign found u))
  | None => replaceFirst (assignIn id u) els = None
  end.
Proof.
  induction 1 as [|e els He _ IH]; [done|].
  cbn [firstSome replaceFirst]. unfold assignSpec in He.
  destruct (findIn id e) as [found|] eqn:Hfind.
  - destruct He as (Hid & e' & -> & Hfound). split; [done|].
    eexists. split; [done|]. intros Hu. cbn [firstSome]. by rewrite Hfound.
  - rewrite He.
    destruct (firstSome (findIn id) els) as [found|].
    + destruct IH as (Hid & els' & -> & Hfound). split; [done|].
      eexists. split; [done|]. intros Hu. cbn [firstSome]. rewrite Hfind. by apply Hfound.
    + by rewrite IH.
Qed.

Lemma assignIn_spec id u e : assignSpec id u e.
Proof.
  induction e as [t i ps ch IH] using SVGElement_tree_ind.
  unfold assignSpec. rewrite findIn_unfold, assignIn_unfold.
  cbn [el_id el_type el_children el_props].
  case_decide as Hi.
  - split; [done|]. eexists. split; [done|]. intros Hu.
    rewrite findIn_unfold. rewrite decide_True; [done|].
    unfold assign. cbn [el_id]. by rewrite Hu.
  - case_decide as Ht; [|done].
    pose proof (assignSpec_list id u ch IH) as Hch.
    destruct (firstSome (findIn id) ch) as [found|].
    + destruct Hch as (Hid & ch' & -> & Hfound). split; [done|].
      eexists. split; [done|]. intros Hu.
      rewrite findIn_unfold. cbn [el_id el_type el_children].
      rewrite decide_False, decide_True by done. by apply Hfound.
    + by rewrite Hch.
Qed.


Lemma getElementById_found id m e : getElementById id m = Some e → el_id e = id.
Proof.
  unfold getElementById, findElement. intros H.
  pose proof (assignSpec_list id (mkPartial None None ∅ None) (elements (document m))) as Hs.
  rewrite H in Hs. apply Hs.
  apply Forall_forall. intros x _. apply assignIn_spec.
Qed.

(** Claim C8 fails as stated.  With the changes [{ id: 'renamed' }] the
    element model returns an element called [renamed], and after the
    document manager's [updateElement('rect-1', ...)] nothing is stored
    under [rect-1] any more: the rectangle is now called [renamed]. *)
Lemma update_overwrites_id_counterexample :
  (el_id Scenario.theRect = "rect-1" ∧
   el_id (Element.updateElement Scenario.theRect Scenario.renaming) = "renamed") ∧
  (let r := Document.updateElement "rect-1" Scenario.renaming Scenario.rectCanvas in
   (el_id <$> getElementById "rect-1" Scenario.rectCanvas) = Some "rect-1" ∧
   r.1 = true ∧
   getElementById "rect-1" r.2 = None ∧
   (el_id <$> getElementById "renamed" r.2) = Some "renamed").
Proof. vm_compute. repeat split. Qed.

(** Claim C8, amended.  When the changes carry no [id] field the element
    model's [update] returns an element with the identifier of its
    argument, and the document manager's [updateElement(id, p)] succeeds
    on a stored element and leaves it stored, updated, under [id].  When
    the changes carry an [id] field the result takes that identifier. *)
Theorem update_keeps_id_without_id_field (e : SVGElement) (p : PartialElement) :
  (u_id p = None → el_id (Element.updateElement e p) = el_id e) ∧
  (∀ j, u_id p = Some j → el_id (Element.updateElement e p) = j) ∧
  (∀ m id, u_id p = None → getElementById id m = Some e →
     let r := Document.updateElement id p m in
     r.1 = true ∧ getElementById id r.2 = Some (assign e p) ∧ el_id (assign e p) = id).
Proof.
  split_and!.
  - intros Hp. unfold Element.updateElement. cbn [el_id]. by rewrite Hp.
  - intros j Hp. unfold Element.updateElement. cbn [el_id]. by rewrite Hp.
  - intros m id Hp Hget r.
    pose proof (getElementById_found id m e Hget) as Hid.
    assert (Hspec := assignSpec_list id p (elements (document m))).
    unfold getElementById, findElement in Hget. rewrite Hget in Hspec.
    destruct Hspec as (_ & els' & Hrepl & Hfound).
    { apply Forall_forall. intros x _. apply assignIn_spec. }
    subst r. unfold Document.updateElement, getElementById, findElement.
    rewrite Hget, Hrepl. cbn [fst snd default emit document elements].
    split_and!; [done|by apply Hfound|].
    unfold assign. cbn [el_id]. by rewrite Hp.
Qed.

Lemma update_keeps_id_without_id_field_witness :
  el_id (Element.updateElement Scenario.theRect Scenario.restyling) = "rect-1" ∧
  (let r := Document.updateElement "rect-1" Scenario.restyling Scenario.rectCanvas in
   r.1 = true ∧
   getElementById "rect-1" r.2 = Some (assign Scenario.theRect Scenario.restyling) ∧
   el_id (assign Scenario.theRect Scenario.restyling) = "rect-1").
Proof.
  destruct (update_keeps_id_without_id_field Scenario.theRect Scenario.restyling)
    as (H1 & _ & H3).
  split.
  - apply H1. reflexivity.
  - apply H3; [reflexivity|]. vm_compute. reflexivity.
Defined.


End DocumentFacts.

(* ================================================================== *)
(** * Properties of the history manager *)
(* ================================================================== *)
Section HistoryFacts.
Import Document History.

Lemma at_index_nat {A} (xs : list A) (i : nat) : at_index xs i = xs !! i.
Proof.
  unfold at_index. rewrite bool_decide_eq_false_2 by lia.
  by rewrite Nat2Z.id.
Qed.

Lemma at_index_Z {A} (xs : list A) (i : Z) :
  (0 ≤ i)%Z → at_index xs i = xs !! Z.to_nat i.
Proof. intros Hi. unfold at_index. by rewrite bool_decide_eq_false_2 by lia. Qed.

Lemma dropSnapshots_lookup_None removed sn k :
  sn !! k = None → dropSnapshots removed sn !! k = None.
Proof.
  unfold dropSnapshots. revert sn.
  induction removed as [|e removed IH]; intros sn Hk; simpl; [done|].
  apply IH. rewrite lookup_delete. by case_decide.
Qed.

Lemma dropSnapshots_lookup_elem removed sn e :
  e ∈ removed → dropSnapshots removed sn !! h_id e = None.
Proof.
  unfold dropSnapshots. revert sn.
  induction removed as [|x removed IH]; intros sn He; simpl.
  - by apply elem_of_nil in He.
  - apply elem_of_cons in He as [->|He].
    + apply (dropSnapshots_lookup_None removed). apply lookup_delete_eq.
    + by apply IH.
Qed.

Lemma dropSnapshots_lookup_other removed sn k :
  k ∉ h_id <$> removed → dropSnapshots removed sn !! k = sn !! k.
Proof.
  unfold dropSnapshots. revert sn.
  induction removed as [|x removed IH]; intros sn Hk; simpl; [done|].
  rewrite fmap_cons, not_elem_of_cons in Hk. destruct Hk as [Hx Hk].
  rewrite IH by done. by rewrite lookup_delete_ne.
Qed.

(** With a bound that is not negative the eviction loop ends, having
    shifted out exactly the entries in excess. *)
Lemma evict_spec es sn idx bound :
  (0 ≤ bound)%Z →
  let j := (length es - Z.to_nat bound)%nat in
  evict es sn idx bound
  = Some (drop j es, dropSnapshots (take j es) sn, (idx - j)%Z).
Proof.
  intros Hb. revert sn idx.
  induction es as [|e es IH]; intros sn idx; cbn [evict length].
  - rewrite bool_decide_eq_false_2 by lia.
    simpl. do 2 f_equal. lia.
  - case_bool_decide as Hlen.
    + rewrite IH.
      replace (S (length es) - Z.to_nat bound)%nat
        with (S (length es - Z.to_nat bound)) by lia.
      cbn [drop take dropSnapshots foldl]. do 2 f_equal. lia.
    + replace (S (length es) - Z.to_nat bound)%nat with 0%nat by lia.
      simpl. do 2 f_equal. lia.
Qed.

(** [record] at the tail of a recording history. *)
Lemma record_at_tail r h :
  isRecording h = true →
  currentIndex h = (length (entries h) - 1)%Z →
  (0 ≤ maxEntries h)%Z →
  let es := entries h ++ [entryOf r] in
  let j := (length es - Z.to_nat (maxEntries h))%nat in
  recordCall r h
  = Some (mkHistory (drop j es)
            (dropSnapshots (take j es)
               (<[h_id (entryOf r) := mkSnapshot (r_document r) (r_now r)]> (snapshots h)))
            (length es - 1 - j)%Z (maxEntries h) true).
Proof.
  intros Hrec Hidx Hmax es j.
  unfold recordCall, record. rewrite Hrec. simpl.
  rewrite bool_decide_eq_false_2 by lia.
  rewrite evict_spec by done. done.
Qed.

Lemma lastn_app_lastn {A} k (xs ys : list A) :
  lastn k (lastn k xs ++ ys) = lastn k (xs ++ ys).
Proof.
  unfold lastn. rewrite !length_app, length_drop.
  destruct (decide (length xs ≤ k)) as [Hle|Hgt].
  - replace (length xs - k) with 0 by lia. simpl.
    by replace (length xs - 0 + length ys - k) with (length xs + length ys - k) by lia.
  - replace (length xs - (length xs - k) + length ys - k) with (length ys) by lia.
    replace (length xs + length ys - k) with ((length xs - k) + length ys) by lia.
    rewrite <- drop_drop.
    rewrite (drop_app_le xs ys (length xs - k)) by lia.
    done.
Qed.



Lemma recordCall_atTail r h :
  atTail h → (0 ≤ maxEntries h)%Z →
  ∃ h', recordCall r h = Some h' ∧ atTail h' ∧ maxEntries h' = maxEntries h ∧
        entries h' = lastn (Z.to_nat (maxEntries h)) (entries h ++ [entryOf r]).
Proof.
  intros [Hrec Hidx] Hmax. eexists. split; [by apply record_at_tail|].
  unfold atTail. cbn [isRecording currentIndex entries maxEntries].
  repeat split. rewrite length_drop. lia.
Qed.

Lemma recordAll_atTail rs : ∀ h,
  atTail h → (0 ≤ maxEntries h)%Z →
  ∃ h', recordAll rs h = Some h' ∧ atTail h' ∧ maxEntries h' = maxEntries h ∧
        lastn (Z.to_nat (maxEntries h)) (entries h')
        = lastn (Z.to_nat (maxEntries h)) (entries h ++ (entryOf <$> rs))
        ∧ (rs ≠ [] → entries h' = lastn (Z.to_nat (maxEntries h)) (entries h ++ (entryOf <$> rs))).
Proof.
  induction rs as [|r rs IH]; intros h Htail Hmax.
  - exists h. simpl. rewrite app_nil_r. done.
  - destruct (recordCall_atTail r h Htail Hmax) as (h1 & Hr & Htail1 & Hmax1 & Hes1).
    destruct (IH h1 Htail1) as (h2 & Hrs & Htail2 & Hmax2 & Hes2 & Hne); [lia|].
    exists h2. cbn [recordAll]. rewrite Hr. cbn [mbind option_bind].
    rewrite Hmax1 in *.
    assert (Heq : lastn (Z.to_nat (maxEntries h)) (entries h1 ++ (entryOf <$> rs))
                  = lastn (Z.to_nat (maxEntries h)) (entries h ++ (entryOf <$> r :: rs))).
    { rewrite Hes1, lastn_app_lastn, <- app_assoc. done. }
    split_and!; try done.
    + by rewrite Hes2.
    + intros _. destruct rs as [|r' rs].
      * simpl in Hrs. injection Hrs as <-. rewrite Hes1. simpl. done.
      * rewrite Hne by done. done.
Qed.

(** Claim C5 (bounded retention).  With [maxEntries = k], [k >= 1],
    recording [k + 5] actions from an empty history leaves exactly [k]
    entries, the [k] most recent ones (the five oldest are gone from the
    head), and the cursor is [k - 1], on the entry of the last call. *)
Theorem history_bound_keeps_most_recent (k : nat) (rs : list Recording) :
  1 ≤ k → length rs = k + 5 →
  ∃ h, recordAll rs (History.new k) = Some h ∧
       entries h = entryOf <$> drop 5 rs ∧
       length (entries h) = k ∧
       currentIndex h = (k - 1)%Z ∧
       at_index (entries h) (currentIndex h) = entryOf <$> last rs.
Proof.
  intros Hk Hlen.
  destruct (recordAll_atTail rs (History.new k)) as (h & Hrs & [_ Hidx] & _ & _ & Hes).
  { done. }
  { simpl. lia. }
  exists h. split; [done|].
  assert (Hne : rs ≠ []) by (intros ->; simpl in Hlen; lia).
  specialize (Hes Hne). simpl in Hes. unfold lastn in Hes.
  rewrite length_fmap, Nat2Z.id, Hlen in Hes.
  replace (k + 5 - k) with 5 in Hes by lia.
  rewrite <- fmap_drop in Hes.
  assert (Hl : length (entries h) = k).
  { rewrite Hes, length_fmap, length_drop. lia. }
  split_and!; try done.
  - lia.
  - rewrite Hidx, Hl. replace (k - 1)%Z with (Z.of_nat (k - 1)) by lia.
    rewrite at_index_nat, Hes, list_lookup_fmap, lookup_drop, last_lookup, Hlen.
    do 2 f_equal. lia.
Qed.

Lemma evict_cursor es : ∀ sn idx bound es' sn' idx',
  evict es sn idx bound = Some (es', sn', idx') →
  (idx' - length es' = idx - length es)%Z.
Proof.
  induction es as [|e es IH]; intros sn idx bound es' sn' idx'; cbn [evict length].
  - case_bool_decide; [done|]. intros [= <- <- <-]. done.
  - case_bool_decide.
    + intros Hev. apply IH in Hev. lia.
    + intros [= <- <- <-]. done.
Qed.

(** The cursor of the class never leaves [-1 .. length - 1]. *)
Lemma cursorInRange_new k : cursorInRange (History.new k).
Proof. unfold cursorInRange. simpl. lia. Qed.

Lemma cursorInRange_record r h h' :
  cursorInRange h → recordCall r h = Some h' → cursorInRange h'.
Proof.
  unfold cursorInRange, recordCall, record. intros Hh.
  destruct (isRecording h); cbn [negb]; [|by intros [= <-]].
  destruct (if bool_decide _ then _ else _) as [es1 sn1].
  destruct (evict _ _ _ _) as [[[es3 sn3] idx]|] eqn:Hev; [|done].
  cbn. intros [= <-]. cbn. apply evict_cursor in Hev.
  rewrite length_app in Hev. cbn in Hev. lia.
Qed.

Lemma cursorInRange_undo steps h d h' :
  cursorInRange h → (1 ≤ steps)%Z → undo steps h = Some (d, h') → cursorInRange h'.
Proof.
  unfold cursorInRange, undo, canUndo. intros Hh Hsteps.
  case_bool_decide; cbn [negb]; [|by intros [= _ <-]].
  case_bool_decide.
  - destruct (at_index _ _); [|done]. cbn. intros [= _ <-]. cbn. lia.
  - destruct (at_index _ _); [|done]. cbn. intros [= _ <-]. cbn. lia.
Qed.

Lemma cursorInRange_redo steps h d h' :
  cursorInRange h → (1 ≤ steps)%Z → redo steps h = Some (d, h') → cursorInRange h'.
Proof.
  unfold cursorInRange, redo, canRedo. intros Hh Hsteps.
  case_bool_decide; cbn [negb]; [|by intros [= _ <-]].
  destruct (at_index _ _); [|done]. cbn. intros [= _ <-]. cbn. lia.
Qed.
Lemma undo_before_first steps h :
  (currentIndex h < 0)%Z → undo steps h = Some (None, h).
Proof.
  intros Hneg. unfold undo, canUndo.
  by rewrite bool_decide_eq_false_2 by lia.
Qed.

Lemma undo_inside steps h :
  (0 ≤ currentIndex h < length (entries h))%Z → (1 ≤ steps)%Z →
  let target := Z.max 0 (currentIndex h - steps) in
  (0 < target)%Z →
  ∃ entry, entries h !! Z.to_nat (target - 1) = Some entry ∧
           undo steps h
           = Some (snap_document <$> snapshots h !! h_id entry, setIndex (target - 1) h).
Proof.
  intros Hidx Hsteps target Hpos. unfold undo, canUndo.
  rewrite bool_decide_eq_true_2 by lia. cbn [negb]. fold target.
  rewrite bool_decide_eq_true_2 by done.
  cbn [setIndex entries currentIndex].
  destruct (lookup_lt_is_Some_2 (entries h) (Z.to_nat (target - 1))) as [entry He];
    [lia|].
  exists entry. split; [done|].
  rewrite at_index_Z by lia. rewrite He. done.
Qed.

Lemma undo_to_first steps h :
  (0 ≤ currentIndex h < length (entries h))%Z → (1 ≤ steps)%Z →
  Z.max 0 (currentIndex h - steps) = 0%Z →
  ∃ first, entries h !! 0 = Some first ∧
           undo steps h
           = Some (snap_document <$> snapshots h !! h_id first, setIndex (-1) h).
Proof.
  intros Hidx Hsteps Hzero. unfold undo, canUndo.
  rewrite bool_decide_eq_true_2 by lia. cbn [negb].
  rewrite bool_decide_eq_false_2 by lia.
  cbn [setIndex entries currentIndex].
  destruct (lookup_lt_is_Some_2 (entries h) 0) as [first He]; [lia|].
  exists first. split; [done|].
  rewrite at_index_Z by lia. change (Z.to_nat 0) with 0%nat. rewrite He. done.
Qed.

(** Claim C3 (the algorithm of [undo]).  With a negative cursor [undo]
    returns nothing and changes nothing.  With a cursor on an entry and
    [steps >= 1], for [target = max(0, currentIndex - steps)]: when
    [target > 0] the cursor becomes [target - 1] and the result is the
    snapshot stored for the entry at that position; when [target = 0] the
    cursor becomes [-1] and the result is the snapshot of entry 0. *)
Theorem undo_follows_algorithm (h : HistoryManager) (steps : Z) :
  ((currentIndex h < 0)%Z → undo steps h = Some (None, h)) ∧
  ((0 ≤ currentIndex h < length (entries h))%Z → (1 ≤ steps)%Z →
     let target := Z.max 0 (currentIndex h - steps) in
     ((0 < target)%Z →
        ∃ entry, entries h !! Z.to_nat (target - 1) = Some entry ∧
                 undo steps h
                 = Some (snap_document <$> snapshots h !! h_id entry,
                         setIndex (target - 1) h)) ∧
     (target = 0%Z →
        ∃ first, entries h !! 0 = Some first ∧
                 undo steps h
                 = Some (snap_document <$> snapshots h !! h_id first,
                         setIndex (-1) h))).
Proof.
  split; [apply undo_before_first|].
  intros Hidx Hsteps target. split.
  - by apply undo_inside.
  - by apply undo_to_first.
Qed.

Lemma redoAll_at_tail steps h :
  canRedo h = false → redoAll steps h = Some (replicate (length steps) None, h).
Proof.
  intros Hno. induction steps as [|n steps IH]; [done|].
  cbn [redoAll]. unfold redo at 1. rewrite Hno. cbn. rewrite IH. done.
Qed.

(** Claim C4 (recording after an undo discards the redo branch).  A
    recording history whose last three entries are [e0], [e1], [e2], with
    the cursor on [e2], entries of distinct identifiers and a new
    identifier for the next entry: after one [undo] and one [record],
    [canRedo()] is false, every [redo] of every sequence returns nothing
    and leaves the history as it is, and neither the entry [e2] nor a
    snapshot under its identifier is left. *)
Theorem redo_branch_discarded (h : HistoryManager) (pre : list HistoryEntry)
    (e0 e1 e2 : HistoryEntry) (r : Recording) :
  entries h = pre ++ [e0; e1; e2] →
  currentIndex h = (length (entries h) - 1)%Z →
  isRecording h = true →
  (0 ≤ maxEntries h)%Z →
  NoDup (h_id <$> entries h) →
  h_id (entryOf r) ∉ h_id <$> entries h →
  ∃ d h1 h2,
    undo 1 h = Some (d, h1) ∧
    recordCall r h1 = Some h2 ∧
    canRedo h2 = false ∧
    (∀ steps, redoAll steps h2 = Some (replicate (length steps) None, h2)) ∧
    (e2 ∉ entries h2) ∧
    snapshots h2 !! h_id e2 = None.
Proof.
  intros Hes Hidx Hrec Hmax Hnodup Hfresh.
  assert (Hlen : length (entries h) = length pre + 3).
  { rewrite Hes, length_app. simpl. lia. }
  destruct (undo_inside 1 h) as (e & He & Hundo); [lia|lia|lia|].
  replace (Z.max 0 (currentIndex h - 1) - 1)%Z with (Z.of_nat (length pre)) in * by lia.
  set (h1 := setIndex (length pre) h) in *.
  eexists _, h1.
  assert (Hr : ∃ h2, recordCall r h1 = Some h2 ∧ canRedo h2 = false ∧
                     entries h2 ⊆ pre ++ [e0; entryOf r] ∧
                     snapshots h2 !! h_id e2 = None).
  { unfold recordCall, record. cbn [h1 setIndex isRecording entries currentIndex snapshots maxEntries].
    rewrite Hrec. cbn [negb].
    rewrite bool_decide_eq_true_2 by lia.
    assert (Hk : spliceStart (length pre + 1) (length (entries h)) = S (length pre)).
    { unfold spliceStart. rewrite bool_decide_eq_false_2 by lia. lia. }
    rewrite Hk, Hes.
    change (mkEntry (IdGenerator.generateUUID (r_uuid r) (Some "history"))
              (r_action r) (r_now r) (r_description r)) with (entryOf r).
    replace (pre ++ [e0; e1; e2]) with ((pre ++ [e0]) ++ [e1; e2])
      by (by rewrite <- app_assoc).
    rewrite take_app_length', drop_app_length' by (rewrite length_app; simpl; lia).
    rewrite evict_spec by done. cbn [mbind option_bind].
    eexists. split; [done|].
    unfold canRedo. cbn [entries currentIndex snapshots].
    split_and!.
    - rewrite bool_decide_eq_false_2; [done|]. rewrite length_drop. lia.
    - etrans; [apply subseteq_drop|]. by rewrite <- app_assoc.
    - apply dropSnapshots_lookup_None. rewrite lookup_insert_ne.
      + apply dropSnapshots_lookup_elem. set_solver.
      + intros Heq. apply Hfresh. rewrite Heq, Hes. set_solver. }
  destruct Hr as (h2 & Hr & Hcan & Hsub & Hsnap).
  exists h2. split_and!; try done.
  - intros steps. by apply redoAll_at_tail.
  - intros Hin. apply Hsub in Hin.
    rewrite Hes in Hnodup, Hfresh.
    rewrite fmap_app in Hnodup. apply NoDup_app in Hnodup as (_ & Hdisj & Hnd).
    apply elem_of_app in Hin as [Hin|Hin].
    + apply (Hdisj (h_id e2)); [by apply list_elem_of_fmap_2|]. set_solver.
    + apply elem_of_cons in Hin as [->|Hin].
      * simpl in Hnd. apply NoDup_cons in Hnd as [Hnd _]. set_solver.
      * apply list_elem_of_singleton in Hin. subst e2.
        apply Hfresh. rewrite fmap_app, elem_of_app. right.
        simpl. rewrite !elem_of_cons. auto.
Qed.


Import Scenario.

Lemma entryOf_id_inj r1 r2 : h_id (entryOf r1) = h_id (entryOf r2) → r_uuid r1 = r_uuid r2.
Proof. simpl. unfold IdGenerator.generateUUID. simpl. intros H. by simplify_eq. Qed.

(** Claim C1 fails as stated.  From an empty history, after the rectangle
    has been recorded, [undo()] returns the rectangle document, not the
    empty one it was drawn on.  After the rectangle and the circle have
    been recorded, [undo()] returns the rectangle document and the
    [redo()] that follows returns the rectangle document again, not the
    one with both shapes. *)
Lemma undo_redo_inverse_counterexample :
  ((h ← recordCall drawRect (History.new 100); u ← undo 1 h; Some u.1)
     = Some (Some rectDoc)
   ∧ rectDoc ≠ emptyDoc)
  ∧ ((h ← recordAll [drawRect; drawCircle] (History.new 100);
      u ← undo 1 h; r ← redo 1 u.2; Some (u.1, r.1))
     = Some (Some rectDoc, Some rectDoc)
     ∧ rectDoc ≠ bothDoc).
Proof.
  split; split.
  - vm_compute. reflexivity.
  - intros H. apply (f_equal elements) in H. vm_compute in H. discriminate.
  - vm_compute. reflexivity.
  - intros H. apply (f_equal (λ d, length (elements d))) in H. vm_compute in H. discriminate.
Qed.

(** Claim C1, amended.  The history stores the snapshots handed to
    [record] and nothing else.  From an empty history with a bound of at
    least 1, after one recording with post-state [D1], [undo()] returns
    [D1] (the snapshot of entry 0) and moves the cursor to [-1]; the
    [redo()] right after returns [D1] and restores the cursor.  After two
    recordings (bound at least 2, distinct entry identifiers), [undo()]
    returns the post-state of the first. *)
Theorem undo_redo_first_entry (k : Z) (r1 r2 : Recording) :
  (1 ≤ k)%Z →
  (∃ h1, recordCall r1 (History.new k) = Some h1 ∧
         undo 1 h1 = Some (Some (r_document r1), setIndex (-1) h1) ∧
         redo 1 (setIndex (-1) h1) = Some (Some (r_document r1), h1)) ∧
  ((2 ≤ k)%Z → r_uuid r1 ≠ r_uuid r2 →
   ∃ h2, recordAll [r1; r2] (History.new k) = Some h2 ∧
         undo 1 h2 = Some (Some (r_document r1), setIndex (-1) h2)).
Proof.
  intros Hk.
  assert (H1 : recordCall r1 (History.new k)
               = Some (mkHistory [entryOf r1]
                         (<[h_id (entryOf r1) := mkSnapshot (r_document r1) (r_now r1)]> ∅)
                         0 k true)).
  { rewrite record_at_tail by (simpl; first [done | lia]).
    cbn [History.new entries snapshots maxEntries app length].
    replace (1 - Z.to_nat k) with 0 by lia. done. }
  split.
  - eexists. split; [exact H1|]. split.
    + unfold undo, canUndo, snapshotOf. simpl. rewrite lookup_insert_eq. done.
    + unfold redo, canRedo, snapshotOf. simpl. rewrite lookup_insert_eq. done.
  - intros Hk2 Hne. cbn [recordAll]. rewrite H1. cbn [mbind option_bind].
    rewrite record_at_tail by (simpl; first [done | lia]).
    cbn [entries snapshots maxEntries app length].
    replace (2 - Z.to_nat k) with 0 by lia.
    eexists. split; [done|].
    unfold undo, canUndo, snapshotOf. simpl.
    rewrite lookup_insert_ne, lookup_insert_eq; [done|].
    intros Heq. apply Hne. symmetry. by apply entryOf_id_inj.
Qed.

(** ** Instances on the draw-and-undo scenario *)

Lemma undo_redo_first_entry_witness :
  (∃ h1, recordCall drawRect (History.new 100) = Some h1 ∧
         undo 1 h1 = Some (Some rectDoc, setIndex (-1) h1) ∧
         redo 1 (setIndex (-1) h1) = Some (Some rectDoc, h1)) ∧
  (∃ h2, recordAll [drawRect; drawCircle] (History.new 100) = Some h2 ∧
         undo 1 h2 = Some (Some rectDoc, setIndex (-1) h2)).
Proof.
  destruct (undo_redo_first_entry 100 drawRect drawCircle) as [H1 H2]; [lia|].
  split; [exact H1|]. apply H2; [lia|]. vm_compute. discriminate.
Defined.

Lemma undo_follows_algorithm_witness :
  (∃ entry, entries threeEntries !! 0 = Some entry ∧
            undo 1 threeEntries
            = Some (snap_document <$> snapshots threeEntries !! h_id entry,
                    setIndex 0 threeEntries)) ∧
  (∃ first, entries twoEntries !! 0 = Some first ∧
            undo 1 twoEntries
            = Some (snap_document <$> snapshots twoEntries !! h_id first,
                    setIndex (-1) twoEntries)).
Proof.
  split.
  - destruct (undo_follows_algorithm threeEntries 1) as [_ H].
    destruct H as [H _]; [vm_compute; split; [discriminate|reflexivity] | lia |].
    apply H. vm_compute. reflexivity.
  - destruct (undo_follows_algorithm twoEntries 1) as [_ H].
    destruct H as [_ H]; [vm_compute; split; [discriminate|reflexivity] | lia |].
    apply H. vm_compute. reflexivity.
Defined.

Lemma redo_branch_discarded_witness :
  ∃ d h1 h2,
    undo 1 threeEntries = Some (d, h1) ∧
    recordCall (redraw 0) h1 = Some h2 ∧
    canRedo h2 = false ∧
    (∀ steps, redoAll steps h2 = Some (replicate (length steps) None, h2)) ∧
    (entryOf wipe ∉ entries h2) ∧
    snapshots h2 !! h_id (entryOf wipe) = None.
Proof.
  apply (redo_branch_discarded threeEntries [] (entryOf drawRect) (entryOf drawCircle)
           (entryOf wipe) (redraw 0)).
  - vm_compute. reflexivity.
  - vm_compute. reflexivity.
  - vm_compute. reflexivity.
  - vm_compute. discriminate.
  - apply (bool_decide_unpack _). vm_compute. exact I.
  - apply (bool_decide_unpack _). vm_compute. exact I.
Defined.

Lemma history_bound_keeps_most_recent_witness :
  ∃ h, recordAll [drawRect; drawCircle; wipe; redraw 0; redraw 1; redraw 2; redraw 3]
         (History.new 2%nat) = Some h ∧
       entries h = entryOf <$> [redraw 2; redraw 3] ∧
       length (entries h) = 2 ∧
       currentIndex h = 1%Z ∧
       at_index (entries h) (currentIndex h) = Some (entryOf (redraw 3)).
Proof.
  apply (history_bound_keeps_most_recent 2
           [drawRect; drawCircle; wipe; redraw 0; redraw 1; redraw 2; redraw 3]).
  - lia.
  - reflexivity.
Defined.

End HistoryFacts.

(* ================================================================== *)
(** * Properties of the layer manager *)
(* ================================================================== *)
Section LayerFacts.
Import Layers.

Lemma findIndex_Some layerId ls i :
  findIndex layerId ls = Some i → ∃ l, ls !! i = Some l ∧ id l = layerId.
Proof.
  unfold findIndex. intros H. apply fmap_Some in H as ([j l] & Hfind & ->).
  apply list_find_Some in Hfind as (Hl & Hid & _). eauto.
Qed.

Lemma getLayer_findIndex layerId s l :
  getLayer layerId s = Some l →
  ∃ i, findIndex layerId (layers s) = Some i ∧ layers s !! i = Some l ∧ id l = layerId.
Proof.
  unfold getLayer, findIndex. intros H. apply fmap_Some in H as ([j x] & Hfind & ->).
  rewrite Hfind. exists j. apply list_find_Some in Hfind as (Hl & Hid & _). eauto.
Qed.

Lemma findIndex_None_getLayer layerId s :
  findIndex layerId (layers s) = None ↔ getLayer layerId s = None.
Proof. unfold findIndex, getLayer. by rewrite !fmap_None. Qed.

Lemma length_insertAt {A} i (x : A) xs : length (insertAt i x xs) = S (length xs).
Proof.
  unfold insertAt. rewrite length_app. cbn [length]. rewrite length_take, length_drop. lia.
Qed.

Lemma length_mutateLayer layerId f ls : length (mutateLayer layerId f ls) = length ls.
Proof. unfold mutateLayer. destruct (findIndex layerId ls); [apply length_alter|done]. Qed.

(** Deleting the only layer is refused. *)
Lemma deleteLayer_sole layerId s :
  length (layers s) = 1 →
  success (deleteLayer layerId s).1 = false ∧ (deleteLayer layerId s).2 = s.
Proof.
  intros Hone. unfold deleteLayer.
  destruct (findIndex layerId (layers s)); [|done].
  by rewrite decide_True.
Qed.

Lemma deleteLayer_length layerId s :
  1 ≤ length (layers s) → 1 ≤ length (layers (deleteLayer layerId s).2).
Proof.
  intros Hlen. unfold deleteLayer.
  destruct (findIndex layerId (layers s)) as [i|] eqn:Hi; [|done].
  case_decide; [done|]. cbn [snd layers].
  apply findIndex_Some in Hi as (l & Hl & _).
  rewrite length_delete by eauto. lia.
Qed.

Lemma updateLayer_length layerId f msg s :
  length (layers (updateLayer layerId f msg s).2) = length (layers s).
Proof.
  unfold updateLayer. destruct (getLayer layerId s); [|done].
  apply length_mutateLayer.
Qed.

Lemma createLayer_length n a s cs :
  length (layers (createLayer n a s cs).1.2) = S (length (layers s)).
Proof.
  unfold createLayer, mbind, gen_bind, mret, gen_ret, IdGenerator.generateId.
  cbn [fst snd layers]. destruct a as [z|]; [case_bool_decide|].
  - apply length_insertAt.
  - rewrite length_app. simpl. lia.
  - rewrite length_app. simpl. lia.
Qed.

Lemma addElementToLayer_length layerId e s :
  length (layers (addElementToLayer layerId e s).2) = length (layers s).
Proof.
  unfold addElementToLayer. destruct (getLayer layerId s) as [l|]; [|done].
  destruct (locked l); [done|]. cbn [snd layers].
  by rewrite length_mutateLayer, length_fmap.
Qed.

Lemma addElementToActiveLayer_length e s cs :
  1 ≤ length (layers s) → 1 ≤ length (layers (addElementToActiveLayer e s cs).1.2).
Proof.
  intros Hlen. unfold addElementToActiveLayer.
  destruct (getActiveLayer s) as [l|].
  - cbn. by rewrite addElementToLayer_length.
  - unfold mbind, gen_bind.
    pose proof (createLayer_length None None s cs) as Hc.
    destruct (createLayer None None s cs) as [r cs'] eqn:Hr. cbn [fst] in Hc.
    destruct (layerId r.1) as [i|]; [|cbn; lia].
    destruct (negb (success r.1) || bool_decide (i = "")); cbn; [lia|].
    rewrite addElementToLayer_length. lia.
Qed.

Lemma perform_keeps_a_layer c s cs :
  1 ≤ length (layers s) → 1 ≤ length (layers (perform c s cs).1).
Proof.
  intros Hlen. destruct c; cbn [perform].
  - rewrite run_bind_ret, createLayer_length. lia.
  - by apply deleteLayer_length.
  - cbn. unfold renameLayer. by rewrite updateLayer_length.
  - cbn. unfold reorderLayer.
    destruct (list_find _ _) as [[i l]|] eqn:Hfind; [|done].
    case_bool_decide; [done|]. cbn. rewrite length_insertAt. lia.
  - cbn. unfold setLayerVisibility. by rewrite updateLayer_length.
  - cbn. unfold setLayerLock. by rewrite updateLayer_length.
  - cbn. unfold setLayerOpacity. destruct (getLayer _ _); [|done].
    destruct (_ || _); [done|]. cbn. by rewrite length_mutateLayer.
  - cbn. unfold setLayerBlendMode. by rewrite updateLayer_length.
  - cbn. unfold setActiveLayer. by destruct (getLayer _ _).
  - cbn. by rewrite addElementToLayer_length.
  - rewrite run_bind_ret. by apply addElementToActiveLayer_length.
  - cbn. unfold removeElementFromLayer.
    destruct (list_find _ _) as [[i l]|]; [|done]. cbn. by rewrite length_alter.
  - cbn. unfold mergeLayers.
    destruct (getLayer sourceLayerId s); [|done].
    destruct (getLayer targetLayerId s); [|done].
    case_decide; [done|]. apply deleteLayer_length. cbn. by rewrite length_mutateLayer.
  - rewrite run_bind_ret. unfold duplicateLayer.
    destruct (list_find _ _) as [[i l]|]; [|done].
    unfold mbind, gen_bind, mret, gen_ret, IdGenerator.generateId.
    cbn [fst snd layers]. rewrite length_insertAt. lia.
  - unfold reset. rewrite run_bind_ret, createLayer_length. lia.
  - unfold fromJSON. cbn [layers]. case_decide.
    + rewrite run_bind_ret, createLayer_length. lia.
    + cbn. unfold deepCopy in *. lia.
Qed.

Lemma reachable_keeps_a_layer s : reachable s → 1 ≤ length (layers s).
Proof.
  induction 1 as [cs|s c cs _ IH].
  - unfold new. rewrite run_bind_ret, createLayer_length. lia.
  - by apply perform_keeps_a_layer.
Qed.

(** Claim C6 (last-layer protection).  When the manager holds exactly
    one layer, [deleteLayer] returns a failure and leaves the manager as it
    is, whatever identifier it is given; and every manager obtained from a
    fresh one by any sequence of method calls holds at least one layer. *)
Theorem last_layer_protected :
  (∀ s layerId, length (layers s) = 1 →
     success (deleteLayer layerId s).1 = false ∧ (deleteLayer layerId s).2 = s) ∧
  (∀ s, reachable s → 1 ≤ length (layers s)).
Proof. split; [intros; by apply deleteLayer_sole | apply reachable_keeps_a_layer]. Qed.


Lemma list_find_alter (f : Layer → Layer) x ls : ∀ i,
  (∀ l, id (f l) = id l) →
  list_find (λ l, id l = x) (alter f i ls)
  = (λ p, (p.1, if decide (p.1 = i) then f p.2 else p.2))
      <$> list_find (λ l, id l = x) ls.
Proof.
  intros i Hf. revert i.
  induction ls as [|l ls IH]; intros i; [done|].
  destruct i as [|i]; cbn [alter list_alter list_find].
  - rewrite Hf. case_decide; [done|].
    destruct (list_find _ ls) as [[j y]|]; [|done]. done.
  - case_decide; [done|].
    change (list_alter f i ls) with (alter f i ls). rewrite IH.
    destruct (list_find _ ls) as [[j y]|]; [|done]. cbn.
    f_equal. f_equal. repeat case_decide; done || lia.
Qed.

Lemma getLayer_mutateLayer f x ls act :
  (∀ l, id (f l) = id l) →
  getLayer x (mkLayers (mutateLayer x f ls) act) = f <$> getLayer x (mkLayers ls act).
Proof.
  intros Hf. unfold getLayer, mutateLayer, findIndex. cbn [layers].
  destruct (list_find _ ls) as [[i l]|] eqn:Hfind; cbn [fmap option_fmap option_map fst].
  - rewrite list_find_alter by done. rewrite Hfind. cbn. by rewrite decide_True.
  - by rewrite Hfind.
Qed.

Lemma findIndex_mutateLayer f x y ls :
  (∀ l, id (f l) = id l) → findIndex x (mutateLayer y f ls) = findIndex x ls.
Proof.
  intros Hf. unfold mutateLayer. destruct (findIndex y ls) as [i|]; [|done].
  unfold findIndex. rewrite list_find_alter by done.
  by destruct (list_find _ ls) as [[j l]|].
Qed.

Lemma getLayer_mutateLayer_ne f x y ls act :
  (∀ l, id (f l) = id l) → x ≠ y →
  getLayer x (mkLayers (mutateLayer y f ls) act) = getLayer x (mkLayers ls act).
Proof.
  intros Hf Hne. unfold getLayer, mutateLayer. cbn [layers].
  destruct (findIndex y ls) as [i|] eqn:Hi; [|done].
  rewrite list_find_alter by done.
  destruct (list_find _ ls) as [[j l]|] eqn:Hfind; [|done]. cbn.
  case_decide as Hij; [|done]. subst j.
  apply list_find_Some in Hfind as (Hl & Hid & _).
  apply findIndex_Some in Hi as (l' & Hl' & Hid'). congruence.
Qed.

Lemma list_find_delete x ls : ∀ i l,
  ls !! i = Some l → id l ≠ x →
  snd <$> list_find (λ l, id l = x) (delete i ls)
  = snd <$> list_find (λ l, id l = x) ls.
Proof.
  induction ls as [|y ls IH]; intros i l Hl Hne; [done|].
  destruct i as [|i]; cbn [delete list_delete list_find].
  - injection Hl as ->. rewrite decide_False by done.
    by destruct (list_find _ ls) as [[j z]|].
  - case_decide; [done|].
    change (list_delete i ls) with (delete i ls).
    specialize (IH i l Hl Hne).
    destruct (list_find _ (delete i ls)) as [[j z]|], (list_find _ ls) as [[j' z']|];
      cbn in *; congruence.
Qed.

(** Claim C10 (merging bypasses the lock of the target).  For two
    existing layers with different identifiers, the target being locked,
    [mergeLayers] succeeds, the target's membership list becomes its old
    list followed by the source's, and one layer is gone; yet
    [addElementToLayer] on the same locked target fails and changes
    nothing, before the merge and after it. *)
Theorem merge_bypasses_lock (s : LayerManager) (sourceId targetId e : string)
    (source target : Layer) :
  getLayer sourceId s = Some source →
  getLayer targetId s = Some target →
  sourceId ≠ targetId →
  locked target = true →
  let r := mergeLayers sourceId targetId s in
  success r.1 = true ∧
  getLayer targetId r.2 = Some (setElements (elements target ++ elements source) target) ∧
  length (layers r.2) = length (layers s) - 1 ∧
  success (addElementToLayer targetId e s).1 = false ∧
  (addElementToLayer targetId e s).2 = s ∧
  success (addElementToLayer targetId e r.2).1 = false.
Proof.
  intros Hsrc Htgt Hne Hlocked r.
  set (f := λ l, setElements (elements l ++ elements source) l).
  assert (Hf : ∀ l, id (f l) = id l) by done.
  set (s1 := mkLayers (mutateLayer targetId f (layers s)) (activeLayerId s)).
  assert (Hr : r = deleteLayer sourceId s1).
  { unfold r, mergeLayers. rewrite Hsrc, Htgt. by rewrite decide_False. }
  destruct (getLayer_findIndex _ _ _ Hsrc) as (i & Hi & Hli & Hids).
  destruct (getLayer_findIndex _ _ _ Htgt) as (j & Hj & Hlj & Hidt).
  assert (Hij : i ≠ j) by (intros ->; congruence).
  assert (Hlen : 2 ≤ length (layers s)).
  { apply lookup_lt_Some in Hli, Hlj. lia. }
  assert (Hi1 : findIndex sourceId (layers s1) = Some i).
  { unfold s1. cbn [layers]. by rewrite findIndex_mutateLayer. }
  assert (Hsrc1 : layers s1 !! i = Some source).
  { unfold s1, mutateLayer. cbn [layers]. rewrite Hj.
    by rewrite list_lookup_alter_ne. }
  assert (Htgt1 : getLayer targetId s1 = Some (f target)).
  { unfold s1. rewrite getLayer_mutateLayer by done.
    destruct s. cbn in *. by rewrite Htgt. }
  assert (Hdel : r = (ok None ("레이어 '" +:+ name source +:+ "' 삭제됨"),
                      mkLayers (delete i (layers s1))
                        (if decide (activeLayerId s1 = Some sourceId)
                         then idOrNull (delete i (layers s1)
                                 !! (i `min` (length (delete i (layers s1)) - 1)))
                         else activeLayerId s1))).
  { rewrite Hr. unfold deleteLayer. rewrite Hi1.
    rewrite decide_False.
    - by rewrite Hsrc1.
    - unfold s1. cbn [layers]. rewrite length_mutateLayer. lia. }
  assert (Htgt2 : getLayer targetId r.2 = Some (f target)).
  { rewrite Hdel. unfold getLayer. cbn [snd layers].
    rewrite (list_find_delete targetId (layers s1) i source) by (done || congruence).
    exact Htgt1. }
  split_and!.
  - by rewrite Hdel.
  - exact Htgt2.
  - rewrite Hdel. cbn [snd layers]. rewrite length_delete by eauto.
    unfold s1. cbn [layers]. by rewrite length_mutateLayer.
  - unfold addElementToLayer. by rewrite Htgt, Hlocked.
  - unfold addElementToLayer. by rewrite Htgt, Hlocked.
  - unfold addElementToLayer. rewrite Htgt2. cbn. by rewrite Hlocked.
Qed.


Lemma removeId_cons x y xs :
  removeId x (y :: xs) = if decide (y = x) then xs else y :: removeId x xs.
Proof.
  unfold removeId, indexOf. cbn [list_find]. case_decide; [done|].
  by destruct (list_find _ xs) as [[i z]|].
Qed.

Lemma removeId_sublist x xs : removeId x xs `sublist_of` xs.
Proof.
  unfold removeId. destruct (indexOf x xs); [apply sublist_delete|done].
Qed.

Lemma removeId_not_elem x xs : NoDup xs → x ∉ removeId x xs.
Proof.
  induction 1 as [|y xs Hy Hnd IH]; [apply not_elem_of_nil|].
  rewrite removeId_cons. case_decide as Hyx; [by subst|].
  rewrite not_elem_of_cons. split; [done|apply IH].
Qed.

Lemma elem_of_concat_lookup {A} (x : A) (ls : list (list A)) :
  x ∈ concat ls ↔ ∃ i l, ls !! i = Some l ∧ x ∈ l.
Proof.
  induction ls as [|l ls IH]; simpl.
  - rewrite elem_of_nil. split; [done|]. by intros (i & l & ? & _).
  - rewrite elem_of_app, IH. split.
    + intros [Hx|(i & l' & Hl & Hx)]; [by exists 0, l|by exists (S i), l'].
    + intros ([|i] & l' & Hl & Hx); simplify_eq/=; eauto.
Qed.

(** When no identifier repeats in the concatenated lists, an identifier
    is found in one list only. *)
Lemma NoDup_concat_unique {A} (x : A) (ls : list (list A)) : ∀ i j li lj,
  NoDup (concat ls) →
  ls !! i = Some li → ls !! j = Some lj → x ∈ li → x ∈ lj → i = j.
Proof.
  induction ls as [|l ls IH]; intros i j li lj Hnd Hi Hj Hxi Hxj; [done|].
  simpl in Hnd. apply NoDup_app in Hnd as (_ & Hdisj & Hnd).
  destruct i as [|i], j as [|j]; simplify_eq/=; [done| | |f_equal; eauto].
  - exfalso. apply (Hdisj x Hxi). apply elem_of_concat_lookup. eauto.
  - exfalso. apply (Hdisj x Hxj). apply elem_of_concat_lookup. eauto.
Qed.

Lemma concat_removeId x (ls : list (list string)) :
  NoDup (concat ls) →
  NoDup (concat (removeId x <$> ls)) ∧ (x ∉ concat (removeId x <$> ls)) ∧
  concat (removeId x <$> ls) ⊆ concat ls.
Proof.
  induction ls as [|l ls IH]; simpl; intros Hnd.
  - split_and!; [apply NoDup_nil_2|apply not_elem_of_nil|done].
  - apply NoDup_app in Hnd as (Hl & Hdisj & Hnd).
    destruct (IH Hnd) as (IH1 & IH2 & IH3).
    pose proof (removeId_sublist x l) as Hsub.
    split_and!.
    + apply NoDup_app. split_and!; [by apply (sublist_NoDup _ l)|..|done].
      intros y Hy Hy'. apply (Hdisj y); [by apply (elem_of_sublist _ _ _ Hy)|by apply IH3].
    + rewrite elem_of_app. intros [H|H]; [by apply (removeId_not_elem x l)|done].
    + intros y. rewrite !elem_of_app. intros [H|H]; [left|right; by apply IH3].
      by apply (elem_of_sublist _ _ _ H).
Qed.

Lemma concat_alter_snoc (x : string) (ls : list Layer) : ∀ i l,
  ls !! i = Some l →
  concat (elements <$> alter (λ l, setElements (elements l ++ [x]) l) i ls)
  ≡ₚ x :: concat (elements <$> ls).
Proof.
  induction ls as [|y ls IH]; intros i l Hl; [done|].
  destruct i as [|i]; cbn [alter list_alter fmap list_fmap concat].
  - cbn [setElements elements]. rewrite <- app_assoc. cbn [app].
    by rewrite <- Permutation_middle.
  - change (list_alter ?f i ls) with (alter f i ls).
    change (list_fmap _ _ elements ?l) with (elements <$> l).
    rewrite (IH i l Hl). by rewrite <- Permutation_middle.
Qed.

Lemma addElementToLayer_membership layerId e s :
  singleMembership s → singleMembership (addElementToLayer layerId e s).2.
Proof.
  unfold singleMembership. intros Hnd. unfold addElementToLayer.
  destruct (getLayer layerId s) as [l|] eqn:Hget; [|done].
  destruct (locked l); [done|]. cbn [snd layers].
  set (g := λ l, setElements (removeId e (elements l)) l).
  assert (Hels : elements <$> (g <$> layers s) = removeId e <$> (elements <$> layers s)).
  { rewrite <- !list_fmap_compose. done. }
  destruct (concat_removeId e _ Hnd) as (H1 & H2 & _). rewrite <- Hels in H1, H2.
  unfold mutateLayer.
  destruct (findIndex layerId (g <$> layers s)) as [i|] eqn:Hi; [|done].
  apply findIndex_Some in Hi as (l' & Hl' & _).
  rewrite (concat_alter_snoc e _ i l' Hl').
  by apply NoDup_cons.
Qed.

Lemma addAll_membership calls : ∀ s,
  singleMembership s → singleMembership (addAll calls s).
Proof.
  induction calls as [|[layerId e] calls IH]; intros s Hs; [done|].
  apply IH. by apply addElementToLayer_membership.
Qed.


(** Managers in which the membership lists are disjoint: a fresh one, and
    what the calls that do not touch the lists make of such a manager. *)
Lemma singleMembership_createLayer n a s cs :
  singleMembership s → singleMembership (createLayer n a s cs).1.2.
Proof.
  unfold singleMembership, createLayer, mbind, gen_bind, mret, gen_ret,
    IdGenerator.generateId.
  cbn [fst snd layers]. intros Hs.
  assert (Hend : ∀ l : Layer, elements l = [] →
            concat (elements <$> (layers s ++ [l])) = concat (elements <$> layers s)).
  { intros l Hl. rewrite fmap_app, concat_app. cbn. rewrite Hl. by rewrite !app_nil_r. }
  destruct a as [z|]; [case_bool_decide|]; [|by rewrite Hend..].
  unfold insertAt. rewrite fmap_app, fmap_cons, concat_app. cbn [concat elements app].
  rewrite <- concat_app, <- fmap_app, take_drop. done.
Qed.

Lemma singleMembership_new cs : singleMembership (new cs).1.
Proof.
  unfold new. rewrite run_bind_ret. apply singleMembership_createLayer.
  apply NoDup_nil_2.
Qed.

Lemma singleMembership_updateLayer layerId f msg s :
  (∀ l, elements (f l) = elements l) →
  singleMembership s → singleMembership (updateLayer layerId f msg s).2.
Proof.
  unfold singleMembership, updateLayer. intros Hf Hs.
  destruct (getLayer layerId s); [|done]. cbn [snd layers].
  unfold mutateLayer. destruct (findIndex layerId (layers s)) as [i|]; [|done].
  rewrite (list_fmap_alter elements f (λ es, es))
    by (apply Forall_forall; intros; apply Hf).
  by rewrite list_alter_id.
Qed.
Lemma singleMembership_setLayerLock layerId b s :
  singleMembership s → singleMembership (setLayerLock layerId b s).2.
Proof. by apply singleMembership_updateLayer. Qed.

Lemma findIndex_fmap (g : Layer → Layer) x ls :
  (∀ l, id (g l) = id l) → findIndex x (g <$> ls) = findIndex x ls.
Proof.
  intros Hg. unfold findIndex. rewrite list_find_fmap.
  rewrite (list_find_ext _ (λ l, id l = x)) by (intros l; cbn; by rewrite Hg).
  by destruct (list_find _ ls) as [[i l]|].
Qed.

Lemma addElementToLayer_member layerId e s :
  success (addElementToLayer layerId e s).1 = true →
  ∃ i l, findIndex layerId (layers (addElementToLayer layerId e s).2) = Some i ∧
         layers (addElementToLayer layerId e s).2 !! i = Some l ∧
         e ∈ elements l.
Proof.
  unfold addElementToLayer.
  destruct (getLayer layerId s) as [layer|] eqn:Hget; [|done].
  destruct (locked layer); [done|]. intros _. cbn [snd layers].
  set (g := λ l, setElements (removeId e (elements l)) l).
  set (f := λ l, setElements (elements l ++ [e]) l).
  destruct (getLayer_findIndex _ _ _ Hget) as (i & Hi & _).
  assert (Hi' : findIndex layerId (g <$> layers s) = Some i)
    by (by rewrite findIndex_fmap).
  destruct (findIndex_Some _ _ _ Hi') as (l & Hl & _).
  exists i, (f l). split_and!.
  - by rewrite findIndex_mutateLayer.
  - unfold mutateLayer. rewrite Hi'. by rewrite list_lookup_alter_eq, Hl.
  - cbn. rewrite elem_of_app, list_elem_of_singleton. by right.
Qed.

(** Claim C7 (single layer membership).  From a manager in which no
    element identifier is listed twice, after any number [n] of the calls
    of any sequence of [addElementToLayer] calls, successful or not, an
    element identifier is in the membership list of at most one layer; and
    a further successful call leaves the element in the target layer and
    in no other. *)
Theorem single_layer_membership (s0 : LayerManager) (calls : list (string * string))
    (n : nat) :
  singleMembership s0 →
  let s := addAll (take n calls) s0 in
  (∀ e i j li lj,
     layers s !! i = Some li → layers s !! j = Some lj →
     e ∈ elements li → e ∈ elements lj → i = j) ∧
  (∀ layerId e,
     success (addElementToLayer layerId e s).1 = true →
     let s' := (addElementToLayer layerId e s).2 in
     ∃ i l, findIndex layerId (layers s') = Some i ∧
            layers s' !! i = Some l ∧ e ∈ elements l ∧
            ∀ j lj, layers s' !! j = Some lj → e ∈ elements lj → j = i).
Proof.
  intros Hs0 s.
  assert (Hs : singleMembership s) by (by apply addAll_membership).
  assert (Huniq : ∀ t, singleMembership t → ∀ (e : string) i j li lj,
            layers t !! i = Some li → layers t !! j = Some lj →
            e ∈ elements li → e ∈ elements lj → i = j).
  { intros t Ht e i j li lj Hi Hj Hei Hej.
    apply (NoDup_concat_unique e (elements <$> layers t) i j (elements li) (elements lj));
      [done|by rewrite list_lookup_fmap, Hi|by rewrite list_lookup_fmap, Hj|done|done]. }
  split; [by apply Huniq|].
  intros layerId e Hok s'.
  destruct (addElementToLayer_member layerId e s Hok) as (i & l & Hi & Hl & He).
  exists i, l. split_and!; try done.
  intros j lj Hj Hej.
  apply (Huniq s' (addElementToLayer_membership layerId e s Hs) e j i lj l); done.
Qed.

(** ** Instances *)

Lemma last_layer_protected_witness :
  (success (deleteLayer "layer-1" Scenario.oneLayer).1 = false ∧
   (deleteLayer "layer-1" Scenario.oneLayer).2 = Scenario.oneLayer) ∧
  1 ≤ length (layers (perform (DeleteLayer "layer-1") Scenario.oneLayer ∅).1).
Proof.
  destruct last_layer_protected as [H1 H2]. split.
  - apply H1. vm_compute. reflexivity.
  - apply H2. apply reach_call. apply reach_new.
Defined.

Lemma single_layer_membership_witness :
  let s := addAll (take 2 [("layer-1", "rect-1"); ("layer-2", "rect-1"); ("layer-1", "circle-1")])
             Scenario.lockedSecond in
  (∀ e i j li lj,
     layers s !! i = Some li → layers s !! j = Some lj →
     e ∈ elements li → e ∈ elements lj → i = j) ∧
  (∀ layerId e,
     success (addElementToLayer layerId e s).1 = true →
     let s' := (addElementToLayer layerId e s).2 in
     ∃ i l, findIndex layerId (layers s') = Some i ∧
            layers s' !! i = Some l ∧ e ∈ elements l ∧
            ∀ j lj, layers s' !! j = Some lj → e ∈ elements lj → j = i).
Proof.
  apply (single_layer_membership Scenario.lockedSecond
           [("layer-1", "rect-1"); ("layer-2", "rect-1"); ("layer-1", "circle-1")] 2).
  vm_compute. apply NoDup_nil_2.
Defined.

Lemma merge_bypasses_lock_witness :
  let r := mergeLayers "layer-2" "layer-1" Scenario.lockedFirst in
  success r.1 = true ∧
  (elements <$> getLayer "layer-1" r.2) = Some ["rect-1"; "circle-1"] ∧
  length (layers r.2) = 1 ∧
  success (addElementToLayer "layer-1" "text-1" Scenario.lockedFirst).1 = false.
Proof.
  destruct (merge_bypasses_lock Scenario.lockedFirst "layer-2" "layer-1" "text-1"
              (mkLayer "layer-2" "L2" true false 1 None ["rect-1"; "circle-1"] None)
              (mkLayer "layer-1" "Layer 1" true true 1 None [] None))
    as (H1 & H2 & H3 & H4 & _).
  - vm_compute. reflexivity.
  - vm_compute. reflexivity.
  - discriminate.
  - reflexivity.
  - cbv zeta. rewrite H2. split_and!; [exact H1|reflexivity|exact H3|exact H4].
Defined.

End LayerFacts.

(* ================================================================== *)
(** * Further properties of the identifier generator *)
(* ================================================================== *)
Section IdFacts.
Import IdGenerator.

Lemma digit_of_pretty_N_char d :
  (d < 10)%N →
  isDigit (pretty_N_char d) = true ∧ (N_of_ascii (pretty_N_char d) - 48)%N = d.
Proof.
  intros Hd.
  assert (d = 0 ∨ d = 1 ∨ d = 2 ∨ d = 3 ∨ d = 4 ∨ d = 5 ∨ d = 6 ∨ d = 7 ∨ d = 8 ∨ d = 9)%N
    as Hcases by lia.
  repeat (destruct Hcases as [->|Hcases]; [by vm_compute|]). subst. by vm_compute.
Qed.

(** Printing digits in front of [s] and reading them back. *)
Lemma parse_pretty_N_go x : ∀ s acc,
  allDigits s = true →
  allDigits (pretty_N_go x s) = true ∧
  (pretty_N_go x s = EmptyString → s = EmptyString) ∧
  ∃ k, parseDigits acc (pretty_N_go x s) = parseDigits (acc * 10 ^ k + x)%N s.
Proof.
  induction (N.lt_wf_0 x) as [x _ IH]. intros s acc Hs.
  destruct (decide (x = 0)%N) as [->|Hx].
  - rewrite pretty_N_go_0. split_and!; [done|done|].
    exists 0%N. f_equal. lia.
  - rewrite pretty_N_go_step by lia.
    destruct (digit_of_pretty_N_char (x `mod` 10)%N) as [Hd Hv].
    { apply N.mod_lt. lia. }
    destruct (IH (x `div` 10)%N) with (s := String (pretty_N_char (x `mod` 10)) s)
      (acc := acc) as (H1 & H2 & k & H3).
    { apply N.div_lt; lia. }
    { cbn [allDigits]. by rewrite Hd, Hs. }
    split_and!; [done|by intros ?%H2|].
    exists (k + 1)%N. rewrite H3. cbn [parseDigits]. rewrite Hv. f_equal.
    rewrite N.pow_add_r, N.pow_1_r.
    pose proof (N.div_mod x 10). lia.
Qed.

Lemma parse_pretty_N (n : N) :
  allDigits (pretty n) = true ∧ pretty n ≠ EmptyString ∧
  parseDigits 0 (pretty n) = n.
Proof.
  unfold pretty, pretty_N. case_decide as Hn.
  - subst n. split_and!; done.
  - destruct (parse_pretty_N_go n EmptyString 0%N) as (H1 & H2 & k & H3); [done|].
    split_and!; [done| |].
    + intros Hempty. apply Hn.
      rewrite (pretty_N_go_step n) in Hempty by lia.
      destruct (parse_pretty_N_go (n `div` 10)%N
                  (String (pretty_N_char (n `mod` 10)) EmptyString) 0%N)
        as (_ & Hne & _).
      { cbn [allDigits]. rewrite andb_true_r.
        apply digit_of_pretty_N_char, N.mod_lt. lia. }
      by apply Hne in Hempty.
    + rewrite H3. cbn. lia.
Qed.

Lemma spanLower_prefix p s :
  spanLower (prefix_str p +:+ "-" +:+ s) = (prefix_str p, "-" +:+ s).
Proof. by destruct p. Qed.

(** The pattern of [syncCounterFromId] reads an identifier [prefix-n]
    back, as the double nearest to [n]. *)
Lemma matchShortId_shortId p n :
  matchShortId (shortId p n) = Some (prefix_str p, roundToDouble n).
Proof.
  unfold matchShortId, shortId, parseInt. rewrite spanLower_prefix.
  destruct (parse_pretty_N n) as (Hd & Hne & Hv).
  change ("-" +:+ pretty n) with (String "-" (pretty n)).
  destruct (prefix_str p) as [|c pre] eqn:Hp; [by destruct p|].
  rewrite Hd, Hv, (bool_decide_eq_false_2 _ Hne). done.
Qed.

Lemma syncCounterFromId_mono id cs k :
  (default 0 (cs !! k) ≤ default 0 (syncCounterFromId id cs !! k))%N.
Proof.
  unfold syncCounterFromId. destruct (matchShortId id) as [[pre num]|]; [|done].
  destruct (cs !! pre) as [c|] eqn:Hc.
  - destruct (bool_decide (c = 0%N) || bool_decide (c < num)%N) eqn:Hb; [|done].
    destruct (decide (pre = k)) as [->|Hne].
    + rewrite lookup_insert_eq, Hc. cbn.
      apply orb_true_iff in Hb as [Hb|Hb]; apply bool_decide_eq_true in Hb; lia.
    + by rewrite lookup_insert_ne.
  - destruct (decide (pre = k)) as [->|Hne].
    + rewrite lookup_insert_eq, Hc. cbn. lia.
    + by rewrite lookup_insert_ne.
Qed.

Lemma syncCounterFromId_raises id cs pre num :
  matchShortId id = Some (pre, num) →
  (num ≤ default 0 (syncCounterFromId id cs !! pre))%N.
Proof.
  intros Hm. unfold syncCounterFromId. rewrite Hm.
  destruct (cs !! pre) as [c|] eqn:Hc.
  - destruct (bool_decide (c = 0%N) || bool_decide (c < num)%N) eqn:Hb.
    + by rewrite lookup_insert_eq.
    + rewrite Hc. cbn. apply orb_false_iff in Hb as [_ Hb].
      apply bool_decide_eq_false in Hb. lia.
  - by rewrite lookup_insert_eq.
Qed.

Lemma syncCountersFromIds_mono ids : ∀ cs k,
  (default 0 (cs !! k) ≤ default 0 (syncCountersFromIds ids cs !! k))%N.
Proof.
  unfold syncCountersFromIds.
  induction ids as [|id ids IH]; intros cs k; [done|]. cbn [foldl].
  etrans; [apply (syncCounterFromId_mono id)|apply IH].
Qed.

Lemma syncCountersFromIds_raises ids : ∀ cs id pre num,
  id ∈ ids → matchShortId id = Some (pre, num) →
  (num ≤ default 0 (syncCountersFromIds ids cs !! pre))%N.
Proof.
  unfold syncCountersFromIds.
  induction ids as [|x ids IH]; intros cs id pre num Hin Hm.
  - by apply elem_of_nil in Hin.
  - cbn [foldl]. apply elem_of_cons in Hin as [->|Hin].
    + etrans; [exact (syncCounterFromId_raises x cs pre num Hm)|].
      apply (syncCountersFromIds_mono ids).
    + by apply (IH _ id).
Qed.

(** While the counter of a kind is below [2^53] after the
    resynchronisation, none of the identifiers given carries a larger
    number of that kind. *)
Lemma syncCountersFromIds_fresh (ids : list string) (cs : Counters) p n :
  (counter (syncCountersFromIds ids cs) p < maxExact)%N →
  (counter (syncCountersFromIds ids cs) p < n)%N → shortId p n ∉ ids.
Proof.
  intros Hmax Hn Hin.
  pose proof (syncCountersFromIds_raises ids cs _ _ _ Hin (matchShortId_shortId p n)) as Hr.
  unfold counter in Hn, Hmax.
  rewrite roundToDouble_below in Hr by lia. lia.
Qed.

Lemma syncCountersFromIds_next (ids : list string) (cs : Counters) p :
  (counter (syncCountersFromIds ids cs) p < maxExact)%N →
  (generateId p (syncCountersFromIds ids cs)).1 ∉ ids.
Proof.
  intros Hmax. rewrite generateId_exact by done. cbn [fst].
  apply (syncCountersFromIds_fresh ids cs); [done|lia].
Qed.

(** Property X2 (resynchronisation).  [syncCountersFromIds] never lowers
    a counter.  For a kind whose counter is below [2^53] afterwards, none
    of the identifiers given has the form [kind-n] with [n] above the
    counter, and the next [generateId] of that kind returns an identifier
    that is not among them. *)
Theorem resync_prevents_collisions (ids : list string) (cs : Counters) :
  let cs' := syncCountersFromIds ids cs in
  (∀ p, (counter cs p ≤ counter cs' p)%N) ∧
  (∀ p, (counter cs' p < maxExact)%N →
     (∀ n, (counter cs' p < n)%N → shortId p n ∉ ids) ∧
     (generateId p cs').1 ∉ ids).
Proof.
  intros cs'. split.
  - intros p. apply syncCountersFromIds_mono.
  - intros p Hmax. split.
    + intros n. by apply (syncCountersFromIds_fresh ids cs).
    + by apply syncCountersFromIds_next.
Qed.

Lemma generateAll_from ps : ∀ acc cs,
  roomFor (length ps) cs →
  ∃ L cs',
    foldl (λ acc p, let r := generateId p acc.2 in (acc.1 ++ [r.1], r.2)) (acc, cs) ps
    = (acc ++ L, cs') ∧
    (∀ q, (counter cs q ≤ counter cs' q ≤ counter cs q + N.of_nat (length ps))%N) ∧
    Forall (Element.between cs cs') L ∧ NoDup L.
Proof.
  induction ps as [|p ps IH]; intros acc cs Hroom.
  - exists [], cs. rewrite app_nil_r.
    split_and!; [done|intros q; cbn; lia|constructor|apply NoDup_nil_2].
  - cbn [length] in Hroom.
    assert (Hc : (counter cs p < maxExact)%N) by (specialize (Hroom p); lia).
    pose proof (λ q, counter_generateId_le p q cs Hc) as Hgen.
    destruct (IH (acc ++ [(generateId p cs).1]) (generateId p cs).2)
      as (L & cs' & Heq & Hmono & Hbetween & Hnd).
    { intros q. specialize (Hroom q). specialize (Hgen q). lia. }
    pose proof (generateId_between p cs Hc) as Hown.
    exists ((generateId p cs).1 :: L), cs'. split_and!.
    + replace (acc ++ (generateId p cs).1 :: L)
        with ((acc ++ [(generateId p cs).1]) ++ L) by (by rewrite <- app_assoc).
      exact Heq.
    + intros q. specialize (Hgen q). specialize (Hmono q). cbn [length]. lia.
    + constructor.
      * eapply between_weaken; [..|exact Hown]; [done|intros q; apply Hmono].
      * eapply Forall_impl; [exact Hbetween|]. intros i.
        apply between_weaken; [intros q; apply Hgen|done].
    + apply NoDup_cons. split; [|done]. intros Hin.
      rewrite Forall_forall in Hbetween.
      exact (between_disjoint _ _ _ _ Hown (Hbetween _ Hin)).
Qed.

Lemma generateAll_same p n : ∀ acc cs,
  (counter cs p + N.of_nat n ≤ maxExact)%N →
  (foldl (λ acc p, let r := generateId p acc.2 in (acc.1 ++ [r.1], r.2))
         (acc, cs) (replicate n p)).1
  = acc ++ ((λ k, shortId p (counter cs p + N.of_nat k)) <$> seq 1 n).
Proof.
  induction n as [|n IH]; intros acc cs Hroom.
  - cbn. by rewrite app_nil_r.
  - change (replicate (S n) p) with (p :: replicate n p). cbn [foldl fst snd].
    rewrite IH by (rewrite counter_generateId_eq by lia; lia).
    rewrite counter_generateId_eq by lia. rewrite generateId_exact by lia.
    cbn [fst seq fmap list_fmap]. rewrite <- app_assoc. cbn [app].
    do 2 f_equal.
    rewrite <- (fmap_S_seq 1), <- list_fmap_compose.
    apply list_fmap_ext. intros _ k _. cbn. f_equal. lia.
Qed.

(** Property X1 (identifier uniqueness, and its limit).  While every
    counter stays within [2^53], the identifiers returned by a run of
    [generateId] calls are pairwise distinct, whatever the prefixes, and
    [n] calls with one prefix return the suffixes [c + 1], ..., [c + n]
    in this order, [c] being the counter of the prefix at the start.  At
    [2^53] the counter, a double, no longer advances: two calls return
    the same identifier. *)
Theorem generated_ids_distinct (ps : list IdPrefix) (cs : Counters) :
  (roomFor (length ps) cs →
   NoDup (generateAll ps cs).1 ∧
   ∀ p n, n ≤ length ps →
     (generateAll (replicate n p) cs).1
     = (λ k, shortId p (counter cs p + N.of_nat k)) <$> seq 1 n) ∧
  (∀ p, counter cs p = maxExact →
     (generateAll [p; p] cs).1 = [shortId p maxExact; shortId p maxExact]).
Proof.
  split.
  - intros Hroom. split.
    + destruct (generateAll_from ps [] cs Hroom) as (L & cs' & Heq & _ & _ & Hnd).
      assert (Hrun : generateAll ps cs = (L, cs')) by exact Heq.
      by rewrite Hrun.
    + intros p n Hn. apply (generateAll_same p n [] cs).
      specialize (Hroom p). lia.
  - intros p Hp. unfold generateAll. cbn [foldl fst snd app].
    rewrite (generateId_stuck p cs Hp). cbn [fst snd].
    rewrite generateId_stuck; [done|].
    unfold counter. by rewrite lookup_insert_eq.
Qed.

Lemma isLetter_not_digit c : isLetter c = true → isDigit c = false.
Proof.
  unfold isLetter, isLower, isUpper, isDigit. intros H.
  apply orb_true_iff in H as [H|H]; apply bool_decide_eq_true in H;
    apply bool_decide_eq_false; lia.
Qed.

Lemma isLetter_isIdChar c : isLetter c = true → isIdChar c = true.
Proof. unfold isIdChar. by intros ->. Qed.

Lemma isDigit_isIdChar c : isDigit c = true → isIdChar c = true.
Proof. unfold isIdChar. intros ->. by rewrite orb_true_r. Qed.

Lemma replaceForeign_allIdChars s : allIdChars (replaceForeign s) = true.
Proof.
  induction s as [|c s IH]; [done|]. cbn [replaceForeign allIdChars].
  rewrite IH, andb_true_r. by destruct (isIdChar c) eqn:Hc.
Qed.

Lemma replaceForeign_id s : allIdChars s = true → replaceForeign s = s.
Proof.
  induction s as [|c s IH]; [done|]. cbn [replaceForeign allIdChars].
  intros [Hc Hs]%andb_true_iff. by rewrite Hc, IH.
Qed.

(** Property X3 ([sanitizeId] and [isValidId]).  Every character of a
    sanitized identifier is a letter, a digit, [_] or [-]; an identifier
    that [isValidId] accepts is left as it is; sanitizing twice is
    sanitizing once; and the sanitized identifier is accepted by
    [isValidId] exactly when the given one starts with a letter: [_],
    [-], a leading digit (it gets [_] in front) or the empty string stay
    rejected. *)
Theorem sanitizeId_properties (id : string) :
  allIdChars (sanitizeId id) = true ∧
  (isValidId id = true → sanitizeId id = id) ∧
  sanitizeId (sanitizeId id) = sanitizeId id ∧
  (isValidId (sanitizeId id) = true ↔
   ∃ c r, id = String c r ∧ isLetter c = true).
Proof.
  assert (Hus : isIdChar "_" = true ∧ isDigit "_" = false ∧ isLetter "_" = false)
    by (by vm_compute).
  assert (Hhy : isIdChar "-" = true ∧ isDigit "-" = false ∧ isLetter "-" = false)
    by (by vm_compute).
  destruct Hus as (Hus1 & Hus2 & Hus3), Hhy as (Hhy1 & Hhy2 & Hhy3).
  destruct id as [|c r].
  { split_and!; [done|done|done|]. split; [done|]. by intros (c & r & ? & _). }
  unfold sanitizeId. cbn [replaceForeign].
  pose proof (replaceForeign_allIdChars r) as Hr.
  set (c' := if isIdChar c then c else "-"%char).
  assert (Hc' : isIdChar c' = true) by (unfold c'; by destruct (isIdChar c) eqn:Hc).
  assert (Hdig : isDigit c' = isDigit c).
  { unfold c'. destruct (isIdChar c) eqn:Hc; [done|]. rewrite Hhy2.
    symmetry. apply not_true_is_false. intros Hd. apply isDigit_isIdChar in Hd. congruence. }
  assert (Hlet : isLetter c' = isLetter c).
  { unfold c'. destruct (isIdChar c) eqn:Hc; [done|]. rewrite Hhy3.
    symmetry. apply not_true_is_false. intros Hd. apply isLetter_isIdChar in Hd. congruence. }
  split_and!.
  - destruct (isDigit c'); cbn [allIdChars]; by rewrite ?Hus1, Hc', Hr.
  - cbn [isValidId]. intros [Hc Hs]%andb_true_iff.
    rewrite Hdig, (isLetter_not_digit c Hc).
    unfold c'. by rewrite (isLetter_isIdChar c Hc), (replaceForeign_id r Hs).
  - destruct (isDigit c') eqn:Hd.
    + cbn [replaceForeign]. rewrite Hus1, Hus2, Hc'.
      by rewrite (replaceForeign_id _ Hr).
    + cbn [replaceForeign]. rewrite Hc', Hd. by rewrite (replaceForeign_id _ Hr).
  - split.
    + intros Hv. exists c, r. split; [done|].
      destruct (isDigit c') eqn:Hd; cbn [isValidId] in Hv.
      * by rewrite Hus3 in Hv.
      * apply andb_true_iff in Hv as [Hv _]. by rewrite <- Hlet.
    + intros (c0 & r0 & [= <- <-] & Hc).
      rewrite Hdig, (isLetter_not_digit c Hc). cbn [isValidId].
      by rewrite Hlet, Hc, Hr.
Qed.
End IdFacts.

(* ================================================================== *)
(** * Further properties of the document manager *)
(* ================================================================== *)
Section MoreDocumentFacts.
Import IdGenerator Element Document.

Lemma ids_unfold e :
  ids e = el_id e :: (if decide (el_type e = t_g) then collectAllIds (el_children e) else []).
Proof. by destruct e. Qed.

Lemma firstSome_app {A B} (f : A → option B) xs ys :
  firstSome f (xs ++ ys)
  = match firstSome f xs with Some y => Some y | None => firstSome f ys end.
Proof.
  induction xs as [|x xs IH]; [done|]. cbn [app firstSome].
  by destruct (f x).
Qed.

Lemma firstSome_None {A B} (f : A → option B) xs :
  firstSome f xs = None ↔ Forall (λ x, f x = None) xs.
Proof.
  induction xs as [|x xs IH]; cbn [firstSome].
  - split; [constructor|done].
  - rewrite Forall_cons. destruct (f x) eqn:Hfx; [|rewrite IH; split; [by split|by intros [_ ?]]].
    split; [done|by intros [? _]].
Qed.

Lemma collectAllIds_cons e els : collectAllIds (e :: els) = ids e ++ collectAllIds els.
Proof. done. Qed.

Lemma collectAllIds_app xs ys : collectAllIds (xs ++ ys) = collectAllIds xs ++ collectAllIds ys.
Proof. unfold collectAllIds. apply flat_map_app. Qed.

Lemma elem_of_collectAllIds id els :
  id ∈ collectAllIds els ↔ ∃ e, e ∈ els ∧ id ∈ ids e.
Proof.
  induction els as [|x els IH].
  - cbn. split; [by intros ?%elem_of_nil|]. by intros (e & ?%elem_of_nil & _).
  - rewrite collectAllIds_cons, elem_of_app, IH. split.
    + intros [H|(e & He & H)]; [exists x|exists e]; split; try done; [left|by right].
    + intros (e & [->|He]%elem_of_cons & H); [by left|right; eauto].
Qed.

(** The search of [findElement] misses exactly the identifiers that
    [collectAllIds] does not list. *)
Lemma findIn_None id e : findIn id e = None ↔ id ∉ ids e.
Proof.
  induction e as [t i ps ch IH] using SVGElement_tree_ind.
  rewrite findIn_unfold, ids_unfold. cbn [el_id el_type el_children].
  rewrite not_elem_of_cons. case_decide as Hi.
  - split; [done|]. by intros [? _].
  - case_decide as Ht.
    + rewrite firstSome_None. split.
      * intros Hall. split; [done|]. rewrite elem_of_collectAllIds.
        intros (e & He & Hin). rewrite Forall_forall in IH, Hall.
        by apply (IH e He) in Hin; [|apply Hall].
      * intros [_ Hnot]. apply Forall_forall. intros e He.
        rewrite Forall_forall in IH. apply (IH e He). intros Hin.
        apply Hnot, elem_of_collectAllIds. eauto.
    + split; [|done]. intros _. split; [done|]. apply not_elem_of_nil.
Qed.

Lemma findElement_None id els : findElement els id = None ↔ id ∉ collectAllIds els.
Proof.
  unfold findElement. rewrite firstSome_None, elem_of_collectAllIds, Forall_forall.
  split.
  - intros Hall (e & He & Hin). by apply (findIn_None id e) in Hin; [|apply Hall].
  - intros Hnot e He. apply findIn_None. intros Hin. apply Hnot. eauto.
Qed.

(** Property X4 ([getElementById] and [collectAllIds]).  The recursive
    search finds an element exactly for the identifiers that
    [collectAllIds] lists, nested ones included, and the element it finds
    carries the identifier asked for. *)
Theorem getElementById_finds_listed_ids (id : string) (m : SVGDocumentManager) :
  (is_Some (getElementById id m) ↔ id ∈ collectAllIds (elements (document m))) ∧
  (∀ e, getElementById id m = Some e → el_id e = id).
Proof.
  split.
  - unfold getElementById. rewrite <- not_eq_None_Some, findElement_None.
    split; [apply dec_stable|]. by intros ? ?.
  - intros e. apply getElementById_found.
Qed.

Lemma addElement_lookups (e : SVGElement) (m : SVGDocumentManager) :
  let m' := (addElement e m).2 in
  (addElement e m).1 = el_id e ∧
  collectAllIds (elements (document m'))
  = collectAllIds (elements (document m)) ++ ids e ∧
  (∀ id x, getElementById id m = Some x → getElementById id m' = Some x).
Proof.
  cbv zeta. unfold addElement, getElementById, findElement.
  cbn [fst snd emit document elements]. split_and!.
  - done.
  - rewrite collectAllIds_app. cbn. by rewrite app_nil_r.
  - intros id x Hx. by rewrite firstSome_app, Hx.
Qed.

(** Property X5 ([addElement]).  [addElement] returns the identifier of
    the element, lists its identifiers after those of the document, leaves
    every identifier that resolved before resolving to the same element,
    and makes the new element the one found under its identifier when the
    document did not list that identifier before. *)
Theorem addElement_keeps_lookups (e : SVGElement) (m : SVGDocumentManager) :
  let m' := (addElement e m).2 in
  (addElement e m).1 = el_id e ∧
  collectAllIds (elements (document m'))
  = collectAllIds (elements (document m)) ++ ids e ∧
  (∀ id x, getElementById id m = Some x → getElementById id m' = Some x) ∧
  (el_id e ∉ collectAllIds (elements (document m)) →
   getElementById (el_id e) m' = Some e).
Proof.
  cbv zeta. unfold addElement, getElementById, findElement.
  cbn [fst snd emit document elements]. split_and!.
  - done.
  - rewrite collectAllIds_app. cbn. by rewrite app_nil_r.
  - intros id x Hx. by rewrite firstSome_app, Hx.
  - intros Hfresh. apply findElement_None in Hfresh. unfold findElement in Hfresh.
    rewrite firstSome_app, Hfresh. cbn [firstSome].
    rewrite findIn_unfold. by rewrite decide_True.
Qed.

Lemma removeIn_unfold id e :
  removeIn id e
  = if decide (el_type e = t_g) then
      ch ← removeFromArray (el_children e) id;
      Some (mkElement (el_type e) (el_id e) (el_props e) ch)
    else None.
Proof. by destruct e. Qed.

Lemma ids_idsBelow e : ids e = el_id e :: idsBelow e.
Proof. apply ids_unfold. Qed.

Lemma collectAllIds_delete els : ∀ i x,
  els !! i = Some x →
  collectAllIds (delete i els) `sublist_of` collectAllIds els ∧
  (NoDup (collectAllIds els) → el_id x ∉ collectAllIds (delete i els)).
Proof.
  induction els as [|y els IH]; intros i x Hx; [done|].
  destruct i as [|i]; cbn [delete list_delete].
  - injection Hx as ->. rewrite collectAllIds_cons. split.
    + by apply sublist_inserts_l.
    + rewrite ids_idsBelow. intros Hnd. apply NoDup_app in Hnd as (_ & Hdisj & _).
      apply Hdisj. by left.
  - change (list_delete i els) with (delete i els).
    destruct (IH i x Hx) as [IH1 IH2]. rewrite !collectAllIds_cons. split.
    + by apply sublist_app.
    + intros Hnd. apply NoDup_app in Hnd as (_ & Hdisj & Hnd).
      rewrite elem_of_app. intros [Hin|Hin]; [|by apply IH2].
      apply (Hdisj _ Hin). apply elem_of_collectAllIds. exists x. split.
      * by eapply list_elem_of_lookup_2.
      * rewrite ids_idsBelow. by left.
Qed.

Lemma removeFromArray_spec id els :
  Forall (removeInSpec id) els → removeFromArraySpec id els.
Proof.
  intros Hall. unfold removeFromArraySpec, removeFromArray, removeFromList.
  destruct (list_find _ els) as [[i x]|] eqn:Hfind.
  - apply list_find_Some in Hfind as (Hx & Hid & _).
    destruct (collectAllIds_delete els i x Hx) as [H1 H2]. split_and!.
    + apply elem_of_collectAllIds. exists x. split; [by eapply list_elem_of_lookup_2|].
      rewrite ids_idsBelow, <- Hid. by left.
    + done.
    + rewrite <- Hid. done.
  - apply list_find_None in Hfind. revert Hfind.
    induction Hall as [|e els He _ IH]; intros Hfind; [apply not_elem_of_nil|].
    apply Forall_cons in Hfind as [Hne Hfind]. specialize (IH Hfind).
    cbn [replaceFirst]. unfold removeInSpec in He.
    rewrite collectAllIds_cons, ids_idsBelow.
    destruct (removeIn id e) as [e'|].
    + destruct He as (Hid & Hin & Hsub & Hfresh). cbv beta iota.
      rewrite collectAllIds_cons, ids_idsBelow, Hid. split_and!.
      * rewrite elem_of_app, elem_of_cons. auto.
      * apply sublist_app; [by apply sublist_skip|done].
      * intros Hnd. apply NoDup_app in Hnd as (Hnd1 & Hdisj & _).
        apply NoDup_cons in Hnd1 as [_ Hnd1].
        rewrite elem_of_app, elem_of_cons. intros [[?|Hin']|Hin']; [done|by apply Hfresh|].
        apply (Hdisj id); [by right|done].
    + destruct (replaceFirst (removeIn id) els) as [els'|]; cbn [fmap option_fmap option_map].
      * destruct IH as (Hin & Hsub & Hfresh).
        rewrite collectAllIds_cons, ids_idsBelow. split_and!.
        -- rewrite elem_of_app. auto.
        -- by apply sublist_app.
        -- intros Hnd. apply NoDup_app in Hnd as (_ & _ & Hnd).
           rewrite elem_of_app, elem_of_cons. intros [[?|Hin']|Hin']; [done|done|].
           by apply Hfresh.
      * rewrite elem_of_app, elem_of_cons. intros [[?|?]|?]; done.
Qed.

Lemma removeIn_spec id e : removeInSpec id e.
Proof.
  induction e as [t i ps ch IH] using SVGElement_tree_ind.
  unfold removeInSpec, idsBelow. rewrite removeIn_unfold.
  cbn [el_id el_type el_children el_props].
  case_decide as Ht; [|apply not_elem_of_nil].
  pose proof (removeFromArray_spec id ch IH) as Hch. unfold removeFromArraySpec in Hch.
  destruct (removeFromArray ch id) as [ch'|]; cbn; [|done].
  rewrite decide_True by done. done.
Qed.

(** Property X6 ([removeElement]).  [removeElement] returns [true]
    exactly when the identifier is listed in the document, at any depth;
    when it returns [false] nothing has changed; it only ever removes
    identifiers; and in a document whose identifiers are pairwise
    distinct the identifier is gone afterwards and can no longer be
    found. *)
Theorem removeElement_removes_listed_id (id : string) (m : SVGDocumentManager) :
  let r := removeElement id m in
  (r.1 = true ↔ id ∈ collectAllIds (elements (document m))) ∧
  (r.1 = false → r.2 = m) ∧
  (collectAllIds (elements (document r.2))
     `sublist_of` collectAllIds (elements (document m))) ∧
  (NoDup (collectAllIds (elements (document m))) →
   (id ∉ collectAllIds (elements (document r.2))) ∧ getElementById id r.2 = None).
Proof.
  cbv zeta. unfold removeElement.
  pose proof (removeFromArray_spec id (elements (document m))) as Hspec.
  unfold removeFromArraySpec in Hspec.
  destruct (removeFromArray (elements (document m)) id) as [els|];
    cbn [fst snd emit document elements].
  - destruct Hspec as (Hin & Hsub & Hfresh).
    { apply Forall_forall. intros x _. apply removeIn_spec. }
    split_and!; [done|done|done|].
    intros Hnd. split; [by apply Hfresh|].
    unfold getElementById. cbn [document elements]. by apply findElement_None, Hfresh.
  - assert (Hnot : id ∉ collectAllIds (elements (document m))).
    { apply Hspec, Forall_forall. intros x _. apply removeIn_spec. }
    split_and!; [done|done|done|].
    intros _. split; [done|]. by apply findElement_None.
Qed.

Lemma spliceInsert_lookup {A} k (x : A) xs :
  k ≤ length xs → spliceInsert k x xs !! k = Some x.
Proof.
  intros Hk. unfold spliceInsert.
  rewrite lookup_app_r by (rewrite length_take; lia).
  rewrite length_take. by replace (k - k `min` length xs) with 0 by lia.
Qed.

Lemma delete_spliceInsert {A} k (x : A) xs :
  k ≤ length xs → delete k (spliceInsert k x xs) = xs.
Proof.
  intros Hk. unfold spliceInsert.
  rewrite <- (take_drop k xs) at 3.
  assert (Hlen : length (take k xs) = k) by (rewrite length_take; lia).
  rewrite <- Hlen at 1. by rewrite delete_middle.
Qed.

(** Property X7 ([reorderElement]).  When no top-level element has the
    identifier (a nested one does not count) the call returns [false] and
    changes nothing.  Otherwise the first top-level element with the
    identifier, found at [index], ends at the last position ([front]), at
    position 0 ([back]), one position later if there is one ([forward])
    or one position earlier if there is one ([backward]); the other
    elements keep their order, so the sequence is a permutation of the
    old one. *)
Theorem reorderElement_moves_one (id : string) (direction : Direction)
    (m : SVGDocumentManager) :
  let els := elements (document m) in
  let r := reorderElement id direction m in
  (Forall (λ el, el_id el ≠ id) els → r = (false, m)) ∧
  (∀ index element,
     list_find (λ el, el_id el = id) els = Some (index, element) →
     let pos := match direction with
                | front => length els - 1
                | back => 0
                | forward => (index + 1) `min` (length els - 1)
                | backward => index - 1
                end in
     r.1 = true ∧
     elements (document r.2) !! pos = Some element ∧
     delete pos (elements (document r.2)) = delete index els ∧
     elements (document r.2) ≡ₚ els).
Proof.
  cbv zeta. unfold reorderElement. split.
  - intros Hall. by rewrite (proj2 (list_find_None _ _) Hall).
  - intros index element Hfind. rewrite Hfind.
    cbn [fst snd emit document elements].
    apply list_find_Some in Hfind as (Hx & _ & _).
    pose proof (lookup_lt_Some _ _ _ Hx) as Hlt.
    set (els := elements (document m)) in *.
    set (rest := delete index els).
    assert (Hrest : length rest = length els - 1).
    { unfold rest. rewrite length_delete by eauto. done. }
    assert (Hgen : ∀ pos els',
      els' !! pos = Some element → delete pos els' = rest →
      els' !! pos = Some element ∧ delete pos els' = rest ∧ els' ≡ₚ els).
    { intros pos els' H1 H2. split_and!; [done|done|].
      rewrite (delete_Permutation els' pos element H1), H2.
      unfold rest. by rewrite <- (delete_Permutation els index element Hx). }
    split; [done|]. destruct direction.
    + apply Hgen.
      * rewrite lookup_app_r by lia. by replace (length els - 1 - length rest) with 0 by lia.
      * rewrite <- Hrest. by rewrite delete_middle, app_nil_r.
    + by apply Hgen.
    + rewrite Hrest.
      apply Hgen; [apply spliceInsert_lookup|apply delete_spliceInsert]; lia.
    + replace ((index - 1) `max` 0) with (index - 1) by lia.
      apply Hgen; [apply spliceInsert_lookup|apply delete_spliceInsert]; lia.
Qed.

Lemma fromJSON_document data m cs :
  document (fromJSON data m cs).1 = data.
Proof. done. Qed.

Lemma fromJSON_idsInSync (data : SVGDocument) (m : SVGDocumentManager) (cs : Counters) :
  NoDup (collectAllIds (elements data)) →
  (∀ p, (counter (fromJSON data m cs).2 p < maxExact)%N) →
  idsInSync (fromJSON data m cs).1 (fromJSON data m cs).2.
Proof.
  intros Hnd Hmax. split; [done|].
  intros p n. apply (syncCountersFromIds_fresh _ cs). apply Hmax.
Qed.

(** Property X8 ([fromJSON] resynchronises with the element tree).
    [fromJSON] raises the counters from the identifiers of the element
    tree, those that [collectAllIds] lists; the identifiers kept in
    [defs] are not looked at.  When the identifiers of the tree are
    pairwise distinct and every counter is below [2^53] after the call,
    the counters are not behind any identifier of the tree: whatever the
    counters were before, the next [generateId] of every kind returns an
    identifier that no element of the tree carries. *)
Theorem fromJSON_puts_ids_in_sync (data : SVGDocument) (m : SVGDocumentManager)
    (cs : Counters) :
  NoDup (collectAllIds (elements data)) →
  (∀ p, (counter (fromJSON data m cs).2 p < maxExact)%N) →
  (fromJSON data m cs).2 = syncCountersFromIds (collectAllIds (elements data)) cs ∧
  idsInSync (fromJSON data m cs).1 (fromJSON data m cs).2 ∧
  ∀ p, (generateId p (fromJSON data m cs).2).1 ∉ collectAllIds (elements data).
Proof.
  intros Hnd Hmax. split_and!; [done|by apply fromJSON_idsInSync|].
  intros p. apply (syncCountersFromIds_next _ cs). apply Hmax.
Qed.

Lemma idsInSync_add (e : SVGElement) (m : SVGDocumentManager) (cs cs' : Counters) :
  idsInSync m cs →
  (∀ p, (counter cs p ≤ counter cs' p)%N) →
  Forall (between cs cs') (ids e) → NoDup (ids e) →
  idsInSync (addElement e m).2 cs'.
Proof.
  intros [Hnd Hsync] Hmono Hbetween Hnde. unfold idsInSync.
  destruct (addElement_lookups e m) as (_ & -> & _).
  rewrite Forall_forall in Hbetween. split.
  - apply NoDup_app. split_and!; [done| |done].
    intros i Hi Hi'. destruct (Hbetween i Hi') as (p & n & -> & Hn).
    apply (Hsync p n); [lia|done].
  - intros p n Hn. rewrite elem_of_app. intros [Hin|Hin].
    + apply (Hsync p n); [|done]. specialize (Hmono p). lia.
    + destruct (Hbetween _ Hin) as (q & k & Heq & Hk).
      apply shortId_inj in Heq as [-> ->]. lia.
Qed.

(** Property X9 ([duplicateElement]).  In a document whose identifiers
    are distinct and not ahead of the counters, and while the counters
    are at least as many steps below [2^53] as the element to copy has
    identifiers, [duplicateElement] keeps the identifiers distinct and
    not ahead of the counters.  For an unknown identifier it returns
    [null] and changes nothing; otherwise the copy has the type of the
    original, an identifier the document did not list, is the element
    found under that identifier, and the original is still found under
    its own. *)
Theorem duplicateElement_keeps_ids_in_sync (id : string) (offset : Q * Q)
    (m : SVGDocumentManager) (cs : Counters) :
  idsInSync m cs →
  (∀ e, getElementById id m = Some e → roomFor (length (ids e)) cs) →
  let r := duplicateElement id offset m cs in
  idsInSync r.1.2 r.2 ∧
  (getElementById id m = None → r = (None, m, cs)) ∧
  (∀ e, getElementById id m = Some e →
     ∃ copy, r.1.1 = Some (el_id copy) ∧
             getElementById (el_id copy) r.1.2 = Some copy ∧
             el_type copy = el_type e ∧
             (el_id copy ∉ collectAllIds (elements (document m))) ∧
             getElementById id r.1.2 = Some e).
Proof.
  intros Hsync Hroom. cbv zeta. unfold duplicateElement.
  destruct (getElementById id m) as [e|] eqn:Hget; [|by split_and!].
  rewrite run_bind. cbn [mret gen_ret fst snd].
  destruct (cloneElement_spec e cs (Hroom e eq_refl)) as (Hmono & Hbetween & Hnd).
  set (c := (cloneElement e None cs).1) in *.
  set (cs' := (cloneElement e None cs).2) in *.
  set (copy := mkElement (el_type c) (el_id c) _ (el_children c)).
  assert (Hids : ids copy = ids c) by (by rewrite !ids_unfold).
  assert (Hfresh : el_id copy ∉ collectAllIds (elements (document m))).
  { rewrite Forall_forall in Hbetween.
    destruct (Hbetween (el_id c)) as (p & n & Heq & Hn).
    { rewrite ids_unfold. by left. }
    cbn [copy el_id]. rewrite Heq. apply (proj2 Hsync). lia. }
  split_and!.
  - apply (idsInSync_add copy m cs cs'); [done|intros p; apply Hmono|by rewrite Hids..].
  - done.
  - intros e0 [= <-]. exists copy.
    destruct (addElement_lookups copy m) as (Hid & _ & Hkeep).
    split_and!.
    + by rewrite Hid.
    + unfold addElement, getElementById, findElement.
      cbn [fst snd emit document elements].
      apply findElement_None in Hfresh. unfold findElement in Hfresh.
      rewrite firstSome_app, Hfresh. cbn [firstSome].
      rewrite findIn_unfold. by rewrite decide_True.
    + cbn [copy el_type]. unfold c. rewrite cloneElement_unfold. cbv zeta.
      by case_decide.
    + done.
    + by apply Hkeep.
Qed.

(** Property X10 (factories with generated identifiers).  In a document
    whose identifiers are distinct and not ahead of the counters, a
    rectangle or a circle created without an [id] option while the
    counter of its kind is below [2^53] gets the next identifier of its
    kind, and adding it keeps the identifiers of the document distinct
    and not ahead of the counters. *)
Theorem created_shapes_keep_ids_in_sync (m : SVGDocumentManager) (cs : Counters)
    (o : ElementOptions) :
  idsInSync m cs → o_id o = None →
  (∀ x y w h rx ry,
     (counter cs p_rect < maxExact)%N →
     let r := createRect x y w h rx ry o cs in
     el_id r.1 = shortId p_rect (counter cs p_rect + 1) ∧
     idsInSync (addElement r.1 m).2 r.2) ∧
  (∀ cx cy rad,
     (counter cs p_circle < maxExact)%N →
     let r := createCircle cx cy rad o cs in
     el_id r.1 = shortId p_circle (counter cs p_circle + 1) ∧
     idsInSync (addElement r.1 m).2 r.2).
Proof.
  intros Hsync Ho.
  assert (Hgen : ∀ p (e : SVGElement),
            (counter cs p < maxExact)%N →
            ids e = [(generateId p cs).1] →
            idsInSync (addElement e m).2 (generateId p cs).2).
  { intros p e Hc He. apply (idsInSync_add e m cs); [done|..].
    - intros q. by apply counter_generateId_le.
    - rewrite He. constructor; [|constructor]. by apply generateId_between.
    - rewrite He. apply NoDup_singleton. }
  split.
  - intros x y w h rx ry Hc. cbv zeta. unfold createRect, idOrFresh. rewrite Ho.
    rewrite run_bind. cbn [mret gen_ret fst snd el_id]. split.
    + by rewrite generateId_exact.
    + by apply Hgen.
  - intros cx cy rad Hc. cbv zeta. unfold createCircle, idOrFresh. rewrite Ho.
    rewrite run_bind. cbn [mret gen_ret fst snd el_id]. split.
    + by rewrite generateId_exact.
    + by apply Hgen.
Qed.



(** ** Instances *)

Lemma generated_ids_distinct_witness :
  NoDup (generateAll [p_rect; p_circle; p_rect] ∅).1 ∧
  (generateAll [p_rect; p_rect] ∅).1 = ["rect-1"; "rect-2"] ∧
  (generateAll [p_rect; p_rect] {[ "rect" := maxExact ]}).1
  = ["rect-9007199254740992"; "rect-9007199254740992"].
Proof.
  destruct (generated_ids_distinct [p_rect; p_circle; p_rect] ∅) as [H _].
  destruct H as [H1 H2]; [intros p; destruct p; vm_compute; discriminate|].
  destruct (generated_ids_distinct [] {[ "rect" := maxExact ]}) as [_ H3].
  split_and!.
  - exact H1.
  - etrans; [apply (H2 p_rect 2); cbn; lia|]. vm_compute. reflexivity.
  - etrans; [apply (H3 p_rect); vm_compute; reflexivity|]. vm_compute. reflexivity.
Defined.

Lemma resync_prevents_collisions_witness :
  let cs' := syncCountersFromIds ["rect-7"; "circle-2"; "rect-3"] ∅ in
  counter cs' p_rect = 7%N ∧
  (generateId p_rect cs').1 = "rect-8" ∧
  (generateId p_rect cs').1 ∉ ["rect-7"; "circle-2"; "rect-3"].
Proof.
  cbv zeta.
  destruct (resync_prevents_collisions ["rect-7"; "circle-2"; "rect-3"] ∅) as [_ H].
  destruct (H p_rect) as [_ H2]; [vm_compute; reflexivity|].
  split_and!; [vm_compute; reflexivity|vm_compute; reflexivity|exact H2].
Defined.

Lemma fromJSON_puts_ids_in_sync_witness :
  (fromJSON Scenario.bothDoc Scenario.blankCanvas ∅).2
  = syncCountersFromIds (collectAllIds (elements Scenario.bothDoc)) ∅ ∧
  idsInSync (fromJSON Scenario.bothDoc Scenario.blankCanvas ∅).1
            (fromJSON Scenario.bothDoc Scenario.blankCanvas ∅).2 ∧
  ∀ p, (generateId p (fromJSON Scenario.bothDoc Scenario.blankCanvas ∅).2).1
       ∉ collectAllIds (elements Scenario.bothDoc).
Proof.
  apply (fromJSON_puts_ids_in_sync Scenario.bothDoc Scenario.blankCanvas ∅).
  - apply (bool_decide_unpack _). vm_compute. exact I.
  - intros p. destruct p; vm_compute; reflexivity.
Defined.

Lemma duplicateElement_keeps_ids_in_sync_witness :
  let m := (fromJSON Scenario.bothDoc Scenario.blankCanvas ∅).1 in
  let cs := (fromJSON Scenario.bothDoc Scenario.blankCanvas ∅).2 in
  let r := duplicateElement "rect-1" (10, 10)%Q m cs in
  idsInSync r.1.2 r.2 ∧ r.1.1 = Some "rect-2".
Proof.
  cbv zeta.
  destruct (duplicateElement_keeps_ids_in_sync "rect-1" (10, 10)%Q
              (fromJSON Scenario.bothDoc Scenario.blankCanvas ∅).1
              (fromJSON Scenario.bothDoc Scenario.blankCanvas ∅).2) as (H1 & _).
  - apply fromJSON_idsInSync.
    + apply (bool_decide_unpack _). vm_compute. exact I.
    + intros p. destruct p; vm_compute; reflexivity.
  - intros e He p. vm_compute in He. injection He as <-.
    destruct p; vm_compute; discriminate.
  - split; [exact H1|]. vm_compute. reflexivity.
Defined.

Lemma created_shapes_keep_ids_in_sync_witness :
  let m := (fromJSON Scenario.bothDoc Scenario.blankCanvas ∅).1 in
  let cs := (fromJSON Scenario.bothDoc Scenario.blankCanvas ∅).2 in
  let r := createRect 0 0 1 1 None None noOptions cs in
  el_id r.1 = "rect-2" ∧ idsInSync (addElement r.1 m).2 r.2.
Proof.
  cbv zeta.
  destruct (created_shapes_keep_ids_in_sync
              (fromJSON Scenario.bothDoc Scenario.blankCanvas ∅).1
              (fromJSON Scenario.bothDoc Scenario.blankCanvas ∅).2 noOptions) as [H _].
  - apply fromJSON_idsInSync.
    + apply (bool_decide_unpack _). vm_compute. exact I.
    + intros p. destruct p; vm_compute; reflexivity.
  - reflexivity.
  - destruct (H 0%Q 0%Q 1%Q 1%Q None None) as [_ H2]; [vm_compute; reflexivity|].
    split; [|exact H2]. vm_compute. reflexivity.
Defined.
End MoreDocumentFacts.

(* ================================================================== *)
(** * Further properties of the history manager *)
(* ================================================================== *)
Section MoreHistoryFacts.
Import Document History.

Lemma dropSnapshots_is_Some removed sn k :
  is_Some (dropSnapshots removed sn !! k) →
  is_Some (sn !! k) ∧ k ∉ h_id <$> removed.
Proof.
  intros Hk. destruct (decide (k ∈ h_id <$> removed)) as [Hin|Hnot].
  - apply list_elem_of_fmap in Hin as (e & -> & He).
    rewrite (dropSnapshots_lookup_elem removed sn e He) in Hk. by destruct Hk.
  - by rewrite dropSnapshots_lookup_other in Hk.
Qed.

Lemma evict_owned es : ∀ sn idx bound es' sn' idx',
  (∀ k, is_Some (sn !! k) → k ∈ h_id <$> es) →
  evict es sn idx bound = Some (es', sn', idx') →
  (∀ k, is_Some (sn' !! k) → k ∈ h_id <$> es') ∧ (length es' ≤ bound)%Z.
Proof.
  induction es as [|e es IH]; intros sn idx bound es' sn' idx' Hown; cbn [evict length].
  - case_bool_decide; [done|]. intros [= <- <- <-]. split; [done|]. cbn. lia.
  - case_bool_decide.
    + intros Hev. apply (IH _ _ _ _ _ _) in Hev; [done|].
      intros k Hk. rewrite lookup_delete in Hk. case_decide as Hne; [by destruct Hk|].
      apply Hown in Hk. rewrite fmap_cons in Hk.
      apply elem_of_cons in Hk as [?|?]; [congruence|done].
    + intros [= <- <- <-]. split; [done|]. cbn [length]. lia.
Qed.

Lemma size_list_to_set_le (l : list string) : size (list_to_set (C := gset string) l) ≤ length l.
Proof.
  induction l as [|x l IH]; [by rewrite list_to_set_nil, size_empty|].
  rewrite list_to_set_cons, size_union_alt, size_singleton. cbn [length].
  assert (Hle : size (list_to_set l ∖ {[x]} : gset string)
                ≤ size (list_to_set l : gset string)).
  { apply subseteq_size. apply subseteq_difference_l. done. }
  lia.
Qed.

Lemma snapshotsOwned_size h : snapshotsOwned h → size (snapshots h) ≤ length (entries h).
Proof.
  intros Hown. rewrite <- size_dom, <- (length_fmap h_id).
  etrans; [|apply size_list_to_set_le]. apply subseteq_size.
  intros k Hk. apply elem_of_list_to_set, Hown. by apply elem_of_dom.
Qed.

Lemma record_owned r h h' :
  snapshotsOwned h → recordCall r h = Some h' →
  snapshotsOwned h' ∧
  (isRecording h = true → (length (entries h') ≤ maxEntries h)%Z).
Proof.
  unfold snapshotsOwned, recordCall, record. intros Hown.
  destruct (isRecording h); cbn [negb]; [|intros [= <-]; by split].
  set (cut := if bool_decide _ then _ else _).
  assert (Hcut : ∀ k, is_Some (cut.2 !! k) → k ∈ h_id <$> cut.1).
  { unfold cut. case_bool_decide; [|done]. cbn [fst snd]. intros k Hk.
    apply dropSnapshots_is_Some in Hk as [Hk Hnot]. apply Hown in Hk.
    rewrite <- (take_drop (spliceStart (currentIndex h + 1) (length (entries h)))
                  (entries h)) in Hk at 1.
    rewrite fmap_app, elem_of_app in Hk. by destruct Hk. }
  destruct cut as [es1 sn1]. cbn [fst snd] in Hcut.
  destruct (evict _ _ _ _) as [[[es3 sn3] idx]|] eqn:Hev; [|done].
  cbn. intros [= <-]. cbn [entries snapshots].
  apply evict_owned in Hev; [destruct Hev; by split|].
  intros k Hk. rewrite fmap_app, elem_of_app. cbn [h_id] in Hk.
  rewrite lookup_insert in Hk. case_decide as Heq.
  - right. rewrite <- Heq. cbn. by left.
  - left. by apply Hcut.
Qed.

Lemma snapshotsOwned_new k : snapshotsOwned (History.new k).
Proof. intros i [s Hs]. cbn in Hs. by rewrite lookup_empty in Hs. Qed.

Lemma recordAll_owned rs : ∀ h h',
  snapshotsOwned h → recordAll rs h = Some h' → snapshotsOwned h'.
Proof.
  induction rs as [|r rs IH]; intros h h' Hown; cbn [recordAll].
  - by intros [= <-].
  - destruct (recordCall r h) as [h1|] eqn:E; [|done]. cbn [mbind option_bind].
    apply IH. by apply (record_owned r h h1).
Qed.

(** Property X12 ([record] and the snapshot store).  Suppose every key
    of the snapshot map is the identifier of an entry of the history.
    Then after a [record] call that returns this is still so: the cut of
    the redo branch and the eviction loop delete the snapshot of every
    entry they drop.  Hence the map holds at most as many snapshots as
    there are entries, and when the manager records, the entries are at
    most [maxEntries]. *)
Theorem snapshot_store_stays_bounded (r : Recording) (h h' : HistoryManager) :
  snapshotsOwned h → recordCall r h = Some h' →
  snapshotsOwned h' ∧
  size (snapshots h') ≤ length (entries h') ∧
  (isRecording h = true → (length (entries h') ≤ maxEntries h)%Z).
Proof.
  intros Hown Hr. destruct (record_owned r h h' Hown Hr) as [H1 H2].
  split_and!; [done|by apply snapshotsOwned_size|done].
Qed.

Lemma recordAll_paused rs h : isRecording h = false → recordAll rs h = Some h.
Proof.
  intros Hp. induction rs as [|r rs IH]; [done|].
  cbn [recordAll]. unfold recordCall at 1, record. rewrite Hp. cbn. exact IH.
Qed.

(** Property X13 ([beginGroup], [endGroup]).  Between [beginGroup()]
    and [endGroup(...)] every [record] call leaves the history as it is,
    and [endGroup] then records one entry: the whole group has the effect
    of the single [record] call of [endGroup] on the history with
    recording switched on, which is the history itself when it was
    recording before the group. *)
Theorem group_records_one_entry (rs : list Recording) (r : Recording)
    (h : HistoryManager) :
  recordAll rs (beginGroup h) = Some (beginGroup h) ∧
  (h1 ← recordAll rs (beginGroup h); endGroupCall r h1)
  = recordCall r (resumeRecording h) ∧
  (isRecording h = true →
   (h1 ← recordAll rs (beginGroup h); endGroupCall r h1) = recordCall r h).
Proof.
  assert (Hp : recordAll rs (beginGroup h) = Some (beginGroup h))
    by (by apply recordAll_paused).
  assert (Hg : (h1 ← recordAll rs (beginGroup h); endGroupCall r h1)
               = recordCall r (resumeRecording h)).
  { rewrite Hp. done. }
  split_and!; [done|done|].
  intros Hrec. rewrite Hg. f_equal. destruct h. cbn in *. by subst.
Qed.

Lemma redo_inside steps h :
  cursorInRange h → (1 ≤ steps)%Z →
  (currentIndex h < length (entries h) - 1)%Z →
  let target := Z.min (length (entries h) - 1) (currentIndex h + steps) in
  ∃ entry, entries h !! Z.to_nat target = Some entry ∧
           redo steps h
           = Some (snap_document <$> snapshots h !! h_id entry, setIndex target h).
Proof.
  intros Hr Hsteps Hlt target. unfold cursorInRange in Hr. unfold redo, canRedo.
  rewrite bool_decide_eq_true_2 by done. cbn [negb]. fold target.
  cbn [setIndex entries currentIndex].
  destruct (lookup_lt_is_Some_2 (entries h) (Z.to_nat target)) as [entry He]; [lia|].
  exists entry. split; [done|]. rewrite at_index_Z by lia. by rewrite He.
Qed.

(** Property X14 ([redo]).  With the cursor in its range and at least
    one step: on the last entry [redo] returns null and changes nothing;
    before it, the cursor moves to [min(length - 1, cursor + steps)] and
    the result is the document of the snapshot stored for the entry
    there (null when none is stored). *)
Theorem redo_follows_algorithm (h : HistoryManager) (steps : Z) :
  cursorInRange h → (1 ≤ steps)%Z →
  ((currentIndex h = length (entries h) - 1)%Z → redo steps h = Some (None, h)) ∧
  ((currentIndex h < length (entries h) - 1)%Z →
   let target := Z.min (length (entries h) - 1) (currentIndex h + steps) in
   ∃ entry, entries h !! Z.to_nat target = Some entry ∧
            redo steps h
            = Some (snap_document <$> snapshots h !! h_id entry, setIndex target h)).
Proof.
  intros Hr Hsteps. split.
  - intros Htail. unfold redo, canRedo. by rewrite bool_decide_eq_false_2 by lia.
  - by apply redo_inside.
Qed.

(** Property X15 ([undo] then [redo]).  With the cursor on the entry
    at position [i], [undo()] followed by [redo()] leaves the cursor on
    position [max(0, i - 1)], one entry before [i] unless [i = 0], and
    the [redo] returns the snapshot document of the entry there. *)
Theorem undo_then_redo_ends_one_entry_earlier (h : HistoryManager) :
  (0 ≤ currentIndex h < length (entries h))%Z →
  let back := Z.max 0 (currentIndex h - 1) in
  ∃ entry, entries h !! Z.to_nat back = Some entry ∧
           (u ← undo 1 h; redo 1 u.2)
           = Some (snap_document <$> snapshots h !! h_id entry, setIndex back h).
Proof.
  intros Hidx back.
  destruct (decide (2 ≤ currentIndex h)%Z) as [Hbig|Hsmall].
  - destruct (undo_inside 1 h) as (e & He & ->); [lia..|].
    cbn [mbind option_bind snd].
    destruct (redo_inside 1 (setIndex (Z.max 0 (currentIndex h - 1) - 1) h))
      as (e' & He' & ->).
    { unfold cursorInRange. cbn. lia. }
    { lia. }
    { cbn. lia. }
    cbn [setIndex entries currentIndex snapshots] in *.
    replace (Z.min (length (entries h) - 1) (Z.max 0 (currentIndex h - 1) - 1 + 1))
      with back in * by lia.
    exists e'. split; [done|]. done.
  - destruct (undo_to_first 1 h) as (e & He & ->); [lia..|].
    cbn [mbind option_bind snd].
    destruct (redo_inside 1 (setIndex (-1) h)) as (e' & He' & ->).
    { unfold cursorInRange. cbn. lia. }
    { lia. }
    { cbn. lia. }
    cbn [setIndex entries currentIndex snapshots] in *.
    replace (Z.min (length (entries h) - 1) (-1 + 1)) with back in * by lia.
    exists e'. split; [done|]. done.
Qed.

(** Property X16 ([record] then [goto]).  When the manager records,
    its bound is positive and the identifier of the new entry is not
    that of an entry already held, [record] returns, the new entry is
    the last one, the cursor is on it, nothing can be redone, and [goto]
    at the cursor returns the document that was recorded. *)
Theorem recorded_state_is_current (r : Recording) (h : HistoryManager) :
  isRecording h = true → cursorInRange h → (0 < maxEntries h)%Z →
  h_id (entryOf r) ∉ h_id <$> entries h →
  ∃ h', recordCall r h = Some h' ∧
        last (entries h') = Some (entryOf r) ∧
        currentIndex h' = (length (entries h') - 1)%Z ∧
        canRedo h' = false ∧
        goto (currentIndex h') h' = Some (Some (r_document r), h').
Proof.
  intros Hrec Hr Hmax Hfresh. unfold cursorInRange in Hr.
  unfold recordCall, record. rewrite Hrec. cbn [negb].
  fold (entryOf r).
  set (es1sn1 := if bool_decide (currentIndex h < length (entries h) - 1)%Z
                 then _ else _).
  assert (Hes1 : ∃ k, es1sn1.1 = take k (entries h) ∧
                      es1sn1.2 = dropSnapshots (drop k (entries h)) (snapshots h)).
  { unfold es1sn1. case_bool_decide.
    - by eexists.
    - exists (length (entries h)). by rewrite firstn_all, drop_all. }
  destruct es1sn1 as [es1 sn1]. destruct Hes1 as (k & Hes1 & _). cbn [fst] in Hes1.
  rewrite evict_spec by lia. cbn [mbind option_bind deepCopy].
  set (es2 := es1 ++ [entryOf r]).
  set (j := length es2 - Z.to_nat (maxEntries h)).
  assert (Hlen : length es2 = S (length es1)).
  { unfold es2. rewrite length_app. simpl. lia. }
  assert (Hj : j ≤ length es1) by (unfold j; lia).
  eexists. split; [done|]. cbn [entries currentIndex snapshots].
  assert (Hlast : last (drop j es2) = Some (entryOf r)).
  { rewrite last_lookup, lookup_drop, length_drop.
    replace (j + pred (length es2 - j)) with (length es1) by lia.
    unfold es2. by rewrite list_lookup_middle. }
  assert (Hsn : dropSnapshots (take j es2)
                  (<[h_id (entryOf r) := mkSnapshot (r_document r) (r_now r)]> sn1)
                !! h_id (entryOf r)
                = Some (mkSnapshot (r_document r) (r_now r))).
  { rewrite dropSnapshots_lookup_other; [by rewrite lookup_insert_eq|].
    unfold es2. rewrite take_app_le by done. rewrite Hes1.
    intros Hin. apply Hfresh.
    apply list_elem_of_fmap in Hin as (e & He & Hin).
    apply list_elem_of_fmap. exists e. split; [done|].
    apply (subseteq_take j), (subseteq_take k) in Hin. done. }
  split_and!.
  - done.
  - rewrite length_drop. lia.
  - unfold canRedo. cbn [entries currentIndex]. apply bool_decide_eq_false_2.
    rewrite length_drop. lia.
  - unfold goto. cbn [entries currentIndex setIndex].
    rewrite bool_decide_eq_false_2 by (rewrite length_drop; lia).
    rewrite at_index_Z by lia.
    rewrite last_lookup, length_drop in Hlast.
    replace (Z.to_nat (length es2 - 1 - j)%Z) with (pred (length es2 - j)) by lia.
    rewrite Hlast. cbn [mbind option_bind]. unfold snapshotOf, setIndex, deepCopy.
    cbn [snapshots entries maxEntries isRecording].
    rewrite Hsn. done.
Qed.

Lemma snapshot_store_stays_bounded_witness :
  ∃ h', recordCall Scenario.wipe Scenario.twoEntries = Some h' ∧
        snapshotsOwned h' ∧
        size (snapshots h') ≤ length (entries h') ∧
        (length (entries h') ≤ 100)%Z.
Proof.
  destruct (recordCall Scenario.wipe Scenario.twoEntries) as [h'|] eqn:E;
    [|vm_compute in E; discriminate].
  exists h'. split; [reflexivity|].
  destruct (snapshot_store_stays_bounded Scenario.wipe Scenario.twoEntries h')
    as (H1 & H2 & H3).
  - apply (recordAll_owned [Scenario.drawRect; Scenario.drawCircle] (History.new 100));
      [apply snapshotsOwned_new | vm_compute; reflexivity].
  - exact E.
  - split_and!; [exact H1|exact H2|apply H3; reflexivity].
Defined.

Lemma redo_follows_algorithm_witness :
  redo 5 Scenario.threeEntries = Some (None, Scenario.threeEntries) ∧
  ∃ entry, entries Scenario.threeEntries !! 2 = Some entry ∧
           redo 5 (setIndex 0 Scenario.threeEntries)
           = Some (snap_document <$> snapshots Scenario.threeEntries !! h_id entry,
                   Scenario.threeEntries).
Proof.
  split.
  - destruct (redo_follows_algorithm Scenario.threeEntries 5) as [H _];
      [vm_compute; split; [discriminate|reflexivity] | lia |].
    apply H. reflexivity.
  - destruct (redo_follows_algorithm (setIndex 0 Scenario.threeEntries) 5) as [_ H];
      [vm_compute; split; [discriminate|reflexivity] | lia |].
    apply H. vm_compute. reflexivity.
Defined.

Lemma undo_then_redo_ends_one_entry_earlier_witness :
  ∃ entry, entries Scenario.threeEntries !! 1 = Some entry ∧
           (u ← undo 1 Scenario.threeEntries; redo 1 u.2)
           = Some (snap_document <$> snapshots Scenario.threeEntries !! h_id entry,
                   setIndex 1 Scenario.threeEntries).
Proof.
  apply (undo_then_redo_ends_one_entry_earlier Scenario.threeEntries).
  vm_compute. split; [discriminate|reflexivity].
Defined.

Lemma recorded_state_is_current_witness :
  ∃ h', recordCall Scenario.wipe Scenario.twoEntries = Some h' ∧
        last (entries h') = Some (entryOf Scenario.wipe) ∧
        currentIndex h' = (length (entries h') - 1)%Z ∧
        canRedo h' = false ∧
        goto (currentIndex h') h' = Some (Some Scenario.emptyDoc, h').
Proof.
  apply (recorded_state_is_current Scenario.wipe Scenario.twoEntries).
  - reflexivity.
  - vm_compute. split; [discriminate|reflexivity].
  - reflexivity.
  - apply (bool_decide_unpack _). vm_compute. exact I.
Defined.
End MoreHistoryFacts.

(* ================================================================== *)
(** * Further properties of the layer manager *)
(* ================================================================== *)
Section MoreLayerFacts.
Import IdGenerator Layers.

Lemma concat_alter_app (ys : list string) (ls : list Layer) : ∀ i l,
  ls !! i = Some l →
  concat (elements <$> alter (λ l, setElements (elements l ++ ys) l) i ls)
  ≡ₚ ys ++ concat (elements <$> ls).
Proof.
  induction ls as [|y ls IH]; intros i l Hl; [done|].
  destruct i as [|i]; cbn [alter list_alter fmap list_fmap concat].
  - cbn [setElements elements]. rewrite <- app_assoc.
    rewrite (app_assoc ys). rewrite (Permutation_app_comm ys (elements y)).
    by rewrite <- app_assoc.
  - cbn in Hl. rewrite (IH i l Hl). apply Permutation_app_swap_app.
Qed.

Lemma concat_delete_layer (ls : list Layer) : ∀ i l,
  ls !! i = Some l →
  elements l ++ concat (elements <$> delete i ls) ≡ₚ concat (elements <$> ls).
Proof.
  induction ls as [|y ls IH]; intros i l Hl; [done|].
  destruct i as [|i]; cbn [delete list_delete fmap list_fmap concat].
  - by injection Hl as ->.
  - cbn in Hl. rewrite <- (IH i l Hl). apply Permutation_app_swap_app.
Qed.

Lemma findIndex_lookup x ls i l :
  list_find (λ l, id l = x) ls = Some (i, l) → findIndex x ls = Some i ∧ ls !! i = Some l.
Proof.
  intros H. unfold findIndex. rewrite H. split; [done|].
  by apply list_find_Some in H as (? & _).
Qed.

Lemma mergeLayers_cases a b s :
  (mergeLayers a b s).2 = s ∧ success (mergeLayers a b s).1 = false ∨
  ∃ i j source target,
    i ≠ j ∧ layers s !! i = Some source ∧ layers s !! j = Some target ∧
    success (mergeLayers a b s).1 = true ∧
    layers (mergeLayers a b s).2
    = delete i (alter (λ l, setElements (elements l ++ elements source) l) j (layers s)).
Proof.
  unfold mergeLayers.
  destruct (getLayer a s) as [source|] eqn:Ha; [|by left].
  destruct (getLayer b s) as [target|] eqn:Hb; [|by left].
  case_decide as Hab; [by left|]. right.
  apply getLayer_findIndex in Ha as (i & Hi & Hli & Hida).
  apply getLayer_findIndex in Hb as (j & Hj & Hlj & Hidb).
  assert (Hij : i ≠ j) by (intros ->; congruence).
  exists i, j, source, target. split_and!; [done..| |].
  - unfold deleteLayer. cbn [layers activeLayerId].
    rewrite findIndex_mutateLayer by done. rewrite Hi.
    rewrite length_mutateLayer.
    pose proof (lookup_lt_Some _ _ _ Hli). pose proof (lookup_lt_Some _ _ _ Hlj).
    rewrite decide_False by lia. done.
  - unfold deleteLayer. cbn [layers activeLayerId].
    rewrite findIndex_mutateLayer by done. rewrite Hi.
    rewrite length_mutateLayer.
    pose proof (lookup_lt_Some _ _ _ Hli). pose proof (lookup_lt_Some _ _ _ Hlj).
    rewrite decide_False by lia. cbn [snd layers].
    unfold mutateLayer. by rewrite Hj.
Qed.

(** Property X17 ([mergeLayers]).  Whatever the two identifiers are,
    the membership lists of all layers taken together hold after the call
    the same element identifiers, with the same multiplicities, as
    before: a merge loses and duplicates nothing, so it keeps single
    membership.  A successful merge leaves one layer less; a failed one
    leaves the manager as it was. *)
Theorem merge_keeps_every_member (sourceLayerId targetLayerId : string)
    (s : LayerManager) :
  let r := mergeLayers sourceLayerId targetLayerId s in
  concat (elements <$> layers r.2) ≡ₚ concat (elements <$> layers s) ∧
  (singleMembership s → singleMembership r.2) ∧
  (success r.1 = true → length (layers r.2) + 1 = length (layers s)) ∧
  (success r.1 = false → r.2 = s).
Proof.
  cbv zeta.
  assert (Hperm : concat (elements <$> layers (mergeLayers sourceLayerId targetLayerId s).2)
                  ≡ₚ concat (elements <$> layers s)).
  { destruct (mergeLayers_cases sourceLayerId targetLayerId s)
      as [[-> _]|(i & j & source & target & Hij & Hi & Hj & _ & ->)]; [done|].
    apply (Permutation_app_inv_l (elements source)).
    rewrite concat_delete_layer by (by rewrite list_lookup_alter_ne).
    by apply concat_alter_app with target. }
  split_and!.
  - done.
  - unfold singleMembership. by rewrite Hperm.
  - destruct (mergeLayers_cases sourceLayerId targetLayerId s)
      as [[_ Hf]|(i & j & source & target & Hij & Hi & Hj & _ & ->)]; [congruence|].
    intros _. pose proof (lookup_lt_Some _ _ _ Hi).
    rewrite length_delete by (rewrite list_lookup_alter_ne by done; eauto).
    rewrite length_alter. lia.
  - destruct (mergeLayers_cases sourceLayerId targetLayerId s)
      as [[Hs _]|(i & j & source & target & _ & _ & _ & Hok & _)]; [done|congruence].
Qed.

Lemma removeId_Permutation x xs : x ∈ xs → xs ≡ₚ x :: removeId x xs.
Proof.
  induction xs as [|y xs IH]; intros Hx; [by apply elem_of_nil in Hx|].
  rewrite removeId_cons. case_decide as Hyx; [by subst|].
  apply elem_of_cons in Hx as [->|Hx]; [done|].
  rewrite (IH Hx) at 1. apply perm_swap.
Qed.

Lemma concat_alter_removeId (x : string) (ls : list Layer) : ∀ i l,
  ls !! i = Some l → x ∈ elements l →
  concat (elements <$> ls)
  ≡ₚ x :: concat (elements <$> alter (λ l, setElements (removeId x (elements l)) l) i ls).
Proof.
  induction ls as [|y ls IH]; intros i l Hl Hx; [done|].
  destruct i as [|i]; cbn [alter list_alter fmap list_fmap concat].
  - injection Hl as ->. cbn [setElements elements].
    by rewrite (removeId_Permutation x (elements l) Hx) at 1.
  - cbn in Hl. rewrite (IH i l Hl Hx). by rewrite Permutation_middle.
Qed.

Lemma findLayerByElement_None e s :
  findLayerByElement e s = None ↔ e ∉ concat (elements <$> layers s).
Proof.
  unfold findLayerByElement. rewrite fmap_None, list_find_None, Forall_forall.
  rewrite elem_of_concat_lookup. split.
  - intros Hall (i & l & Hl & He).
    rewrite list_lookup_fmap in Hl. apply fmap_Some in Hl as (y & Hy & ->).
    apply (Hall y); [by eapply list_elem_of_lookup_2|done].
  - intros Hno l Hl He. apply Hno.
    apply list_elem_of_lookup_1 in Hl as [i Hi].
    exists i, (elements l). split; [|done]. by rewrite list_lookup_fmap, Hi.
Qed.

(** Property X18 ([removeElementFromLayer]).  For an identifier that is
    in no membership list the call fails and changes nothing.  Otherwise
    it succeeds and takes one occurrence of the identifier out of the
    membership lists, all other occurrences staying.  Under single
    membership the identifier is then in no layer, and single membership
    still holds. *)
Theorem removeElementFromLayer_removes_one (elementId : string) (s : LayerManager) :
  let r := removeElementFromLayer elementId s in
  (elementId ∉ concat (elements <$> layers s) → success r.1 = false ∧ r.2 = s) ∧
  (elementId ∈ concat (elements <$> layers s) →
   success r.1 = true ∧
   concat (elements <$> layers s) ≡ₚ elementId :: concat (elements <$> layers r.2)) ∧
  (singleMembership s → singleMembership r.2 ∧ findLayerByElement elementId r.2 = None).
Proof.
  cbv zeta.
  assert (Hin : elementId ∈ concat (elements <$> layers s) →
    success (removeElementFromLayer elementId s).1 = true ∧
    concat (elements <$> layers s)
    ≡ₚ elementId :: concat (elements <$> layers (removeElementFromLayer elementId s).2)).
  { intros He. unfold removeElementFromLayer.
    destruct (list_find _ (layers s)) as [[i l]|] eqn:Hfind.
    - apply list_find_Some in Hfind as (Hl & Hel & _). cbn [fst snd success ok layers].
      split; [done|]. by apply concat_alter_removeId with l.
    - exfalso. revert He. apply findLayerByElement_None.
      unfold findLayerByElement. by rewrite Hfind. }
  assert (Hout : elementId ∉ concat (elements <$> layers s) →
    success (removeElementFromLayer elementId s).1 = false ∧
    (removeElementFromLayer elementId s).2 = s).
  { intros He. apply findLayerByElement_None in He.
    unfold findLayerByElement in He. apply fmap_None in He.
    unfold removeElementFromLayer. by rewrite He. }
  split_and!; [done|done|].
  unfold singleMembership. intros Hnd.
  destruct (decide (elementId ∈ concat (elements <$> layers s))) as [He|He].
  - destruct (Hin He) as [_ Hperm]. rewrite Hperm in Hnd.
    apply NoDup_cons in Hnd as [Hno Hnd]. split; [done|].
    by apply findLayerByElement_None.
  - destruct (Hout He) as [_ ->]. split; [done|]. by apply findLayerByElement_None.
Qed.

Lemma insertAt_lookup {A} k (x : A) xs :
  k ≤ length xs → insertAt k x xs !! k = Some x.
Proof.
  intros Hk. unfold insertAt.
  rewrite lookup_app_r by (rewrite length_take; lia).
  rewrite length_take. by replace (k - k `min` length xs) with 0 by lia.
Qed.

Lemma delete_insertAt {A} k (x : A) xs :
  k ≤ length xs → delete k (insertAt k x xs) = xs.
Proof.
  intros Hk. unfold insertAt.
  rewrite <- (take_drop k xs) at 3.
  assert (Hlen : length (take k xs) = k) by (rewrite length_take; lia).
  rewrite <- Hlen at 1. by rewrite delete_middle.
Qed.

Lemma insertAt_Permutation {A} k (x : A) xs : insertAt k x xs ≡ₚ x :: xs.
Proof.
  unfold insertAt. rewrite <- Permutation_middle. by rewrite take_drop.
Qed.

(** Property X19 ([duplicateLayer]).  For an unknown layer the call
    fails, changes nothing and draws no identifier.  Otherwise the copy
    gets the next [layer] identifier, is unlocked, is inserted right
    after the original, the other layers keeping their order, and holds
    the same element identifiers as the original: when the original has
    an element, single membership does not hold after the call. *)
Theorem duplicateLayer_shares_members (layerId : string) (s : LayerManager)
    (cs : Counters) :
  let r := duplicateLayer layerId s cs in
  (getLayer layerId s = None → r = (notFound, s, cs)) ∧
  (∀ index layer,
     list_find (λ l, id l = layerId) (layers s) = Some (index, layer) →
     ∃ copy,
       success r.1.1 = true ∧ Layers.layerId r.1.1 = Some (id copy) ∧
       id copy = (generateId p_layer cs).1 ∧
       layers r.1.2 !! (index + 1) = Some copy ∧
       delete (index + 1) (layers r.1.2) = layers s ∧
       elements copy = elements layer ∧ locked copy = false ∧
       (elements layer ≠ [] → ¬ singleMembership r.1.2)).
Proof.
  cbv zeta. unfold duplicateLayer. split.
  - unfold getLayer. intros H. apply fmap_None in H. by rewrite H.
  - intros index layer Hfind. rewrite Hfind.
    apply list_find_Some in Hfind as (Hl & _ & _).
    pose proof (lookup_lt_Some _ _ _ Hl) as Hlt.
    exists (mkLayer (generateId p_layer cs).1 (name layer +:+ " (복사본)") (visible layer)
              false (opacity layer) (blendMode layer) (elements layer) None).
    unfold mbind, gen_bind, mret, gen_ret, generateId. cbn [fst snd].
    split_and!; [reflexivity|reflexivity|reflexivity| | |reflexivity|reflexivity|].
    + cbn [layers]. apply insertAt_lookup. lia.
    + cbn [layers]. apply delete_insertAt. lia.
    + cbn [layers]. intros Hne Hnd. unfold singleMembership in Hnd. cbn [layers] in Hnd.
      assert (He : ∃ e, e ∈ elements layer).
      { destruct (elements layer) as [|e es]; [done|]. exists e. apply elem_of_cons. by left. }
      destruct He as [e He].
      assert (index = index + 1); [|lia].
      eapply (NoDup_concat_unique e _ index (index + 1) (elements layer) (elements layer) Hnd).
      * rewrite list_lookup_fmap. unfold insertAt.
        rewrite lookup_app_l by (rewrite length_take; lia).
        rewrite lookup_take_lt by lia. by rewrite Hl.
      * rewrite list_lookup_fmap, insertAt_lookup by lia. done.
      * done.
      * done.
Qed.

(** Property X20 ([reorderLayer]).  For an unknown layer the call fails
    and changes nothing, and so it does for an index below 0 or not
    below the number of layers.  Otherwise the first layer with the
    identifier ends at position [newIndex], the other layers keep their
    order, so the list is a permutation of the old one, and the active
    layer identifier is unchanged. *)
Theorem reorderLayer_moves_one (layerId : string) (newIndex : Z) (s : LayerManager) :
  let r := reorderLayer layerId newIndex s in
  (getLayer layerId s = None → r = (notFound, s)) ∧
  ((newIndex < 0 ∨ length (layers s) ≤ newIndex)%Z → success r.1 = false ∧ r.2 = s) ∧
  (∀ currentIndex layer,
     list_find (λ l, id l = layerId) (layers s) = Some (currentIndex, layer) →
     (0 ≤ newIndex < length (layers s))%Z →
     success r.1 = true ∧
     layers r.2 !! Z.to_nat newIndex = Some layer ∧
     delete (Z.to_nat newIndex) (layers r.2) = delete currentIndex (layers s) ∧
     layers r.2 ≡ₚ layers s ∧
     activeLayerId r.2 = activeLayerId s).
Proof.
  cbv zeta. unfold reorderLayer. split_and!.
  - unfold getLayer. intros H. apply fmap_None in H. by rewrite H.
  - intros Hbad. destruct (list_find _ (layers s)) as [[i l]|]; [|done].
    by rewrite bool_decide_eq_true_2.
  - intros i l Hfind Hok. rewrite Hfind.
    rewrite bool_decide_eq_false_2 by lia. cbn [fst snd success ok layers activeLayerId].
    apply list_find_Some in Hfind as (Hl & _ & _).
    assert (Hlen : length (delete i (layers s)) = length (layers s) - 1)
      by (rewrite length_delete by eauto; done).
    split_and!; [done| | | |done].
    + apply insertAt_lookup. lia.
    + apply delete_insertAt. lia.
    + rewrite insertAt_Permutation. by rewrite <- delete_Permutation.
Qed.
End MoreLayerFacts.

(* ================================================================== *)
(** * The active layer *)
(* ================================================================== *)
Section ActiveLayerFacts.
Import IdGenerator Layers.

Lemma getLayer_is_Some a s : is_Some (getLayer a s) ↔ a ∈ id <$> layers s.
Proof.
  unfold getLayer. rewrite fmap_is_Some. split.
  - intros [[i l] H]. apply list_find_Some in H as (Hl & Hid & _).
    apply list_elem_of_fmap. exists l. split; [done|by eapply list_elem_of_lookup_2].
  - intros H. apply list_elem_of_fmap in H as (l & -> & Hl).
    by apply (list_find_elem_of _ _ l).
Qed.

Lemma activeLayerPresent_ids s :
  activeLayerPresent s ↔
  ("" ∉ id <$> layers s) ∧ ∃ a, activeLayerId s = Some a ∧ a ∈ id <$> layers s.
Proof.
  unfold activeLayerPresent. split.
  - intros [Hne (a & Ha & Hin)]. split.
    + intros H. apply list_elem_of_fmap in H as (l & Hid & Hl). by apply (Hne l).
    + exists a. split; [done|]. by apply getLayer_is_Some.
  - intros [Hne (a & Ha & Hin)]. split.
    + intros l Hl Hid. apply Hne. apply list_elem_of_fmap. by exists l.
    + exists a. split; [done|]. by apply getLayer_is_Some.
Qed.

Lemma present_same_ids s s' :
  id <$> layers s' ≡ₚ id <$> layers s → activeLayerId s' = activeLayerId s →
  activeLayerPresent s → activeLayerPresent s'.
Proof.
  rewrite !activeLayerPresent_ids. intros Hp Ha [Hne (a & Hact & Hin)].
  split.
  - by rewrite Hp.
  - exists a. rewrite Ha, Hp. by split.
Qed.

Lemma present_more_ids s s' i :
  id <$> layers s' ≡ₚ i :: (id <$> layers s) → i ≠ "" →
  activeLayerId s' = activeLayerId s →
  activeLayerPresent s → activeLayerPresent s'.
Proof.
  rewrite !activeLayerPresent_ids. intros Hp Hi Ha [Hne (a & Hact & Hin)].
  split.
  - rewrite Hp, not_elem_of_cons. by split.
  - exists a. rewrite Ha, Hp. split; [done|]. apply elem_of_cons. by right.
Qed.

Lemma present_nonempty s : activeLayerPresent s → 1 ≤ length (layers s).
Proof.
  rewrite activeLayerPresent_ids. intros [_ (a & _ & Hin)].
  destruct (layers s); [by apply elem_of_nil in Hin|cbn; lia].
Qed.

Lemma ids_mutateLayer y f ls :
  (∀ l, id (f l) = id l) → id <$> mutateLayer y f ls = id <$> ls.
Proof.
  intros Hf. unfold mutateLayer. destruct (findIndex y ls) as [i|]; [|done].
  rewrite (list_fmap_alter id f (λ x, x)) by (apply Forall_forall; intros; apply Hf).
  by rewrite list_alter_id.
Qed.

Lemma ids_alter i f (ls : list Layer) :
  (∀ l, id (f l) = id l) → id <$> alter f i ls = id <$> ls.
Proof.
  intros Hf.
  rewrite (list_fmap_alter id f (λ x, x)) by (apply Forall_forall; intros; apply Hf).
  by rewrite list_alter_id.
Qed.

Lemma ids_insertAt k (x : Layer) ls : id <$> insertAt k x ls ≡ₚ id x :: (id <$> ls).
Proof.
  unfold insertAt. rewrite fmap_app, fmap_cons, <- Permutation_middle.
  by rewrite <- fmap_app, take_drop.
Qed.

Lemma present_createLayer n a s cs :
  activeLayerPresent s → activeLayerPresent (createLayer n a s cs).1.2.
Proof.
  intros Hs. pose proof (present_nonempty s Hs) as Hlen.
  apply (present_more_ids s _ (generateId p_layer cs).1); [| |
    |done].
  - unfold createLayer, mbind, gen_bind, mret, gen_ret, generateId.
    cbn [fst snd layers]. destruct a as [z|]; [case_bool_decide|].
    + apply ids_insertAt.
    + rewrite fmap_app. cbn. by rewrite <- Permutation_cons_append.
    + rewrite fmap_app. cbn. by rewrite <- Permutation_cons_append.
  - apply generateId_nonempty.
  - pose proof (createLayer_length n a s cs) as Hc. revert Hc.
    unfold createLayer, mbind, gen_bind, mret, gen_ret, generateId.
    cbn [fst snd layers activeLayerId]. intros Hc.
    rewrite decide_False by lia. done.
Qed.

Lemma present_new cs : activeLayerPresent (new cs).1.
Proof.
  unfold new. rewrite run_bind_ret. apply activeLayerPresent_ids.
  unfold createLayer, mbind, gen_bind, mret, gen_ret, generateId.
  cbn [fst snd layers activeLayerId app length fmap list_fmap].
  rewrite decide_True by done. split.
  - rewrite not_elem_of_cons. split; [|apply not_elem_of_nil].
    intros H. by apply (generateId_nonempty p_layer cs).
  - eexists. split; [done|]. apply elem_of_cons. by left.
Qed.

Lemma present_deleteLayer x s :
  activeLayerPresent s → activeLayerPresent (deleteLayer x s).2.
Proof.
  intros Hs. unfold deleteLayer.
  destruct (findIndex x (layers s)) as [index|] eqn:Hidx; [|done].
  case_decide as Hone; [done|]. cbn [snd].
  apply findIndex_Some in Hidx as (d & Hd & Hid).
  pose proof (lookup_lt_Some _ _ _ Hd) as Hlt.
  apply activeLayerPresent_ids in Hs as [Hne (a & Hact & Hin)].
  apply activeLayerPresent_ids. cbn [layers activeLayerId].
  assert (Hsub : ∀ i, i ∈ id <$> delete index (layers s) → i ∈ id <$> layers s).
  { intros i Hi. apply list_elem_of_fmap in Hi as (l & -> & Hl).
    apply list_elem_of_fmap. exists l. split; [done|].
    revert Hl. apply sublist_subseteq, sublist_delete. }
  assert (Hkeep : ∀ l, l ∈ layers s → id l ≠ x → l ∈ delete index (layers s)).
  { intros l Hl Hlx. rewrite (delete_Permutation _ _ _ Hd) in Hl.
    apply elem_of_cons in Hl as [->|Hl]; [done|done]. }
  split.
  - intros H. by apply Hne, Hsub.
  - case_decide as Hax.
    + assert (Hrest : length (delete index (layers s)) = length (layers s) - 1)
        by (by rewrite length_delete by eauto).
      destruct (lookup_lt_is_Some_2 (delete index (layers s))
                  (index `min` (length (delete index (layers s)) - 1))) as [y Hy]; [lia|].
      rewrite Hy. cbn [idOrNull].
      assert (Hyin : id y ∈ id <$> delete index (layers s)).
      { apply list_elem_of_fmap. exists y. split; [done|by eapply list_elem_of_lookup_2]. }
      rewrite decide_False by (intros E; apply Hne, Hsub; by rewrite <- E).
      by exists (id y).
    + exists a. split; [done|].
      apply list_elem_of_fmap in Hin as (l & -> & Hl).
      apply list_elem_of_fmap. exists l. split; [done|].
      apply Hkeep; [done|]. intros E. apply Hax. by rewrite Hact, E.
Qed.

Lemma present_updateLayer x f msg s :
  (∀ l, id (f l) = id l) →
  activeLayerPresent s → activeLayerPresent (updateLayer x f msg s).2.
Proof.
  intros Hf Hs. unfold updateLayer. destruct (getLayer x s); [|done]. cbn [snd].
  apply (present_same_ids s); [|done|done]. cbn [layers]. by rewrite ids_mutateLayer.
Qed.

Lemma present_addElementToLayer x e s :
  activeLayerPresent s → activeLayerPresent (addElementToLayer x e s).2.
Proof.
  intros Hs. unfold addElementToLayer. destruct (getLayer x s) as [l|]; [|done].
  destruct (locked l); [done|]. cbn [snd].
  apply (present_same_ids s); [|done|done]. cbn [layers].
  rewrite ids_mutateLayer by done. by rewrite <- list_fmap_compose.
Qed.

Lemma present_perform c s cs :
  (∀ d, c ≠ FromJSON d) → activeLayerPresent s → activeLayerPresent (perform c s cs).1.
Proof.
  intros Hc Hs.
  destruct c as [n a|x|x n|x n|x v|x b|x o|x b|x|x e|e|e|src tgt|x| |d]; cbn [perform].
  - rewrite run_bind_ret. by apply present_createLayer.
  - by apply present_deleteLayer.
  - by apply present_updateLayer.
  - cbn. unfold reorderLayer.
    destruct (list_find _ (layers s)) as [[i l]|] eqn:Hfind; [|done].
    case_bool_decide; [done|]. cbn [snd].
    apply list_find_Some in Hfind as (Hl & _ & _).
    apply (present_same_ids s); [|done|done]. cbn [layers].
    rewrite ids_insertAt. rewrite (delete_Permutation (layers s) i l Hl) at 2.
    by rewrite fmap_cons.
  - by apply present_updateLayer.
  - by apply present_updateLayer.
  - cbn. unfold setLayerOpacity. destruct (getLayer x s); [|done].
    destruct (_ || _); [done|]. cbn [snd].
    apply (present_same_ids s); [|done|done]. cbn [layers]. by rewrite ids_mutateLayer.
  - by apply present_updateLayer.
  - cbn. unfold setActiveLayer. destruct (getLayer x s) as [l|] eqn:Hget; [|done].
    cbn [snd]. apply activeLayerPresent_ids in Hs as [Hne _].
    apply activeLayerPresent_ids. cbn [layers activeLayerId]. split; [done|].
    exists x. split; [done|]. apply getLayer_is_Some. by rewrite Hget.
  - by apply present_addElementToLayer.
  - unfold addElementToActiveLayer. destruct (getActiveLayer s) as [l|].
    + by apply present_addElementToLayer.
    + rewrite run_bind_ret, run_bind.
      pose proof (present_createLayer None None s cs Hs) as Hcr.
      destruct (Layers.layerId (createLayer None None s cs).1.1) as [i|]; [|done].
      destruct (_ || _); [done|]. cbn. by apply present_addElementToLayer.
  - cbn. unfold removeElementFromLayer.
    destruct (list_find _ (layers s)) as [[i l]|]; [|done]. cbn [snd].
    apply (present_same_ids s); [|done|done]. cbn [layers]. by rewrite ids_alter.
  - cbn. unfold mergeLayers.
    destruct (getLayer src s) as [source|]; [|done].
    destruct (getLayer tgt s) as [target|]; [|done].
    case_decide; [done|]. apply present_deleteLayer.
    apply (present_same_ids s); [|done|done]. cbn [layers]. by rewrite ids_mutateLayer.
  - rewrite run_bind_ret. unfold duplicateLayer.
    destruct (list_find _ (layers s)) as [[i l]|]; [|done].
    unfold mbind, gen_bind, mret, gen_ret, generateId. cbn [fst snd].
    apply (present_more_ids s _ (generateId p_layer cs).1);
      [|apply generateId_nonempty|done|done].
    cbn [layers]. apply ids_insertAt.
  - apply present_new.
  - by destruct (Hc d).
Qed.

Lemma built_present s : built s → activeLayerPresent s.
Proof.
  induction 1 as [cs|s c cs _ IH Hc]; [apply present_new|by apply present_perform].
Qed.

(** Property X21 (the active layer).  In a manager built from a fresh
    one by any calls other than [fromJSON], [activeLayerId] names a layer
    of the manager: [getActiveLayer()] returns it, and
    [addElementToActiveLayer] never creates a layer, it is
    [addElementToLayer] on the active layer and draws no identifier. *)
Theorem active_layer_always_exists (s : LayerManager) :
  built s →
  ∃ a layer,
    activeLayerId s = Some a ∧ getLayer a s = Some layer ∧ id layer = a ∧
    getActiveLayer s = Some layer ∧
    ∀ e cs, addElementToActiveLayer e s cs = (addElementToLayer a e s, cs).
Proof.
  intros Hb. apply built_present in Hb as [Hne (a & Ha & [layer Hl])].
  exists a, layer.
  assert (Hid : id layer = a) by (by apply getLayer_findIndex in Hl as (i & _ & _ & ?)).
  assert (Hact : getActiveLayer s = Some layer).
  { unfold getActiveLayer. rewrite Ha.
    rewrite decide_False; [done|].
    intros ->. apply getLayer_findIndex in Hl as (i & _ & Hi & Hempty).
    apply (Hne layer); [by eapply list_elem_of_lookup_2|done]. }
  split_and!; [done..|].
  intros e cs. unfold addElementToActiveLayer. rewrite Hact. by rewrite Hid.
Qed.

Lemma active_layer_always_exists_witness :
  ∃ a layer,
    activeLayerId Scenario.lockedSecond = Some a ∧
    getLayer a Scenario.lockedSecond = Some layer ∧ id layer = a ∧
    getActiveLayer Scenario.lockedSecond = Some layer ∧
    ∀ e cs, addElementToActiveLayer e Scenario.lockedSecond cs
            = (addElementToLayer a e Scenario.lockedSecond, cs).
Proof.
  apply (active_layer_always_exists Scenario.lockedSecond).
  assert (Hb : Scenario.lockedSecond
               = (perform (SetLayerLock "layer-2" true)
                    (perform (CreateLayer (Some "L2") None) (new ∅).1 (new ∅).2).1 ∅).1)
    by (vm_compute; reflexivity).
  rewrite Hb. apply built_call; [apply built_call; [apply built_new|]|]; intros d; discriminate.
Defined.
End ActiveLayerFacts.
